(** * Task_Align: shallow embedding of src/task_align.cc

    The alignment task of focus-stack registers a source image against a
    reference image with OpenCV.  This development embeds
    [Task_Align::Task_Align], [Task_Align::task], [match_contrast],
    [match_transform], [match_whitebalance], [apply_contrast_whitebalance]
    and [apply_transform] and proves the properties the design document
    states about them.

    - C++ [float] is IEEE-754 binary32, modelled with the Standard Library's
      [SpecFloat] at precision 24 and maximal exponent 128; every operation
      is correctly rounded to nearest-even, as the hardware does, and each
      expression is evaluated operation by operation in binary32 (no wider
      intermediate format, no fused multiply-add).
    - C++ [int] is modelled by [Z]; the one place where a difference of
      two dimensions is formed writes the 32-bit wrap-around out.
    - [cv::Mat] is a record of its dimensions and its row-major samples.
    - The OpenCV entry points ([cv::resize], [cv::warpAffine],
      [cv::findTransformECC], [cv::solve]) are not part of the repository:
      they are parameters of the model, and each call is recorded with its
      arguments in a call log carried by the task monad.  An OpenCV
      exception is the only exception the code can meet and nothing in the
      file catches one: it ends the run.
    - The [m_verbose] diagnostics print the state and change nothing; they
      are left out.
    - [find_files] of src/main.cc, which gathers the images of an input
      folder, is embedded over the listing the directory iterator yields. *)

From Stdlib Require Import ZArith List Bool Lia String Ascii SpecFloat.
From stdpp Require Import base list.

Local Open Scope Z_scope.

(** ** binary32 arithmetic *)

Module F32.

Definition prec : Z := 24.
Definition emax : Z := 128.

Definition t : Type := spec_float.

Definition INT_MIN : Z := - 2 ^ 31.
Definition INT_MAX : Z := 2 ^ 31 - 1.

(** [(float)i] for an [int] (or [uint8_t]) [i]. *)
Definition of_int (z : Z) : t := binary_normalize prec emax z 0 false.

Definition add : t -> t -> t := SFadd prec emax.
Definition sub : t -> t -> t := SFsub prec emax.
Definition mul : t -> t -> t := SFmul prec emax.
Definition div : t -> t -> t := SFdiv prec emax.
Definition leb : t -> t -> bool := SFleb.

Definition zero : t := S754_zero false.
Definition one : t := of_int 1.
Definition two : t := of_int 2.

(** Truncation towards zero of a finite value. *)
Definition trunc (f : t) : option Z :=
  match f with
  | S754_zero _ => Some 0
  | S754_finite s m e =>
      let a := match e with
               | Zneg p => Z.shiftr (Zpos m) (Zpos p)
               | _ => Z.shiftl (Zpos m) e
               end in
      Some (if s then - a else a)
  | S754_infinity _ | S754_nan => None
  end.

(** [(int)f].  The conversion is only defined by C++ when the truncated
    value fits an [int]; elsewhere the model returns what the x86
    conversion instruction yields, the "integer indefinite" [INT_MIN]. *)
Definition to_int (f : t) : Z :=
  match trunc f with
  | Some z => if (INT_MIN <=? z) && (z <=? INT_MAX) then z else INT_MIN
  | None => INT_MIN
  end.

(** The dyadic rational [n / 2^k], for stating exact values. *)
Definition dyadic (n : Z) (k : Z) : t := binary_normalize prec emax n (- k) false.

End F32.

Declare Scope f32_scope.
Delimit Scope f32_scope with f32.
Bind Scope f32_scope with F32.t.
Infix "+" := F32.add : f32_scope.
Infix "-" := F32.sub : f32_scope.
Infix "*" := F32.mul : f32_scope.
Infix "/" := F32.div : f32_scope.

(** [static inline float sq(float x)] *)
Definition sq (x : F32.t) : F32.t := (x * x)%f32.


(** ** The double-precision tolerances of [cv::TermCriteria] *)

Module F64.
Definition prec : Z := 53.
Definition emax : Z := 1024.
Definition of_int (z : Z) : spec_float := binary_normalize prec emax z 0 false.
Definition div : spec_float -> spec_float -> spec_float := SFdiv prec emax.
(** The literal [p/q] written in decimal, correctly rounded. *)
Definition lit (p q : Z) : spec_float := div (of_int p) (of_int q).
End F64.

(** ** OpenCV constants used by the task (values of the OpenCV headers) *)

Module cv.
Definition INTER_CUBIC : Z := 2.
Definition INTER_AREA : Z := 3.
Definition WARP_INVERSE_MAP : Z := 16.
Definition BORDER_REFLECT : Z := 2.
Definition MOTION_AFFINE : Z := 2.
Definition DECOMP_SVD : Z := 1.
Definition TermCriteria_COUNT : Z := 1.
Definition TermCriteria_EPS : Z := 2.
End cv.

(** ** Rasters *)

(** [cv::Rect]: origin, width, height. *)
Record Rect := mkRect { rx : Z; ry : Z; rwidth : Z; rheight : Z }.

(** Sample storage of an 8-bit [cv::Mat], row-major: one byte per pixel
    ([CV_8UC1]) or a [cv::Vec3b] per pixel ([CV_8UC3], channel order B,G,R). *)
Inductive Samples :=
| Gray8 (px : list Z)
| Bgr8 (px : list (Z * Z * Z)).

Record Mat := mkMat { rows : Z; cols : Z; samples : Samples }.

(** A default-constructed [cv::Mat]. *)
Definition Mat_empty : Mat := mkMat 0 0 (Gray8 []).

Definition channels (m : Mat) : Z :=
  match samples m with Gray8 _ => 1 | Bgr8 _ => 3 end.

(** The raw byte view of the storage. *)
Definition bytes (m : Mat) : list Z :=
  match samples m with
  | Gray8 px => px
  | Bgr8 px => flat_map (fun '(b, g, r) => [b; g; r]) px
  end.

Definition pixel_index (m : Mat) (y x : Z) : nat := Z.to_nat (y * cols m + x).

(** [img.at<uint8_t>(y, x)] *)
Definition at_u8 (m : Mat) (y x : Z) : Z :=
  match samples m with
  | Gray8 px => nth (pixel_index m y x) px 0
  | Bgr8 _ => nth (Z.to_nat (y * (cols m * 3) + x)) (bytes m) 0
  end.

(** [img.at<cv::Vec3b>(y, x)] *)
Definition at_vec3b (m : Mat) (y x : Z) : Z * Z * Z :=
  match samples m with
  | Bgr8 px => nth (pixel_index m y x) px (0, 0, 0)
  | Gray8 px =>
      let i := Z.to_nat (y * cols m + 3 * x) in
      (nth i px 0, nth (i + 1)%nat px 0, nth (i + 2)%nat px 0)
  end.

(** [img.at<uint8_t>(y, x) = v] *)
Definition set_u8 (m : Mat) (y x : Z) (v : Z) : Mat :=
  match samples m with
  | Gray8 px => mkMat (rows m) (cols m) (Gray8 (<[pixel_index m y x := v]> px))
  | Bgr8 _ => m
  end.

(** [img.at<cv::Vec3b>(y, x) = v] *)
Definition set_vec3b (m : Mat) (y x : Z) (v : Z * Z * Z) : Mat :=
  match samples m with
  | Bgr8 px => mkMat (rows m) (cols m) (Bgr8 (<[pixel_index m y x := v]> px))
  | Gray8 _ => m
  end.

Definition rect_inside (r : Rect) (m : Mat) : bool :=
  (0 <=? rx r) && (0 <=? rwidth r) && (rx r + rwidth r <=? cols m) &&
  (0 <=? ry r) && (0 <=? rheight r) && (ry r + rheight r <=? rows m).

Definition in_rect (r : Rect) (y x : Z) : bool :=
  (rx r <=? x) && (x <? rx r + rwidth r) && (ry r <=? y) && (y <? ry r + rheight r).

(** The rows [ry .. ry+rheight) restricted to the columns [rx .. rx+rwidth). *)
Definition crop_rows {A} (r : Rect) (w : Z) (px : list A) : list A :=
  flat_map
    (fun y => take (Z.to_nat (rwidth r))
                (drop (Z.to_nat ((ry r + Z.of_nat y) * w + rx r)) px))
    (seq 0 (Z.to_nat (rheight r))).

(** [img(roi)]: the sub-matrix of [img] under [roi]; [cv::Mat::operator()]
    raises a [cv::Exception] when [roi] is not inside the matrix. *)
Definition Mat_roi (m : Mat) (r : Rect) : option Mat :=
  if rect_inside r m then
    Some (mkMat (rheight r) (rwidth r)
            match samples m with
            | Gray8 px => Gray8 (crop_rows r (cols m) px)
            | Bgr8 px => Bgr8 (crop_rows r (cols m) px)
            end)
  else None.

(** ** Loops *)

(** [for (int i = lo; ...; i++) body], run for [n] iterations. *)
Fixpoint for_loop {S : Type} (n : nat) (i : Z) (body : Z -> S -> S) (s : S) : S :=
  match n with
  | O => s
  | S n' => for_loop n' (i + 1) body (body i s)
  end.

(** [for (int i = 0; i < hi; i++) body] *)
Definition for_range {S : Type} (hi : Z) (body : Z -> S -> S) (s : S) : S :=
  for_loop (Z.to_nat hi) 0 body s.

(** [mask.create(rows, cols, CV_8U); mask = 0; mask(r) = 255;] *)
Definition mask_of_rect (nrows ncols : Z) (r : Rect) : option Mat :=
  let zero := mkMat nrows ncols (Gray8 (replicate (Z.to_nat (nrows * ncols)) 0)) in
  if rect_inside r zero then
    Some (for_range (rheight r)
            (fun dy m => for_range (rwidth r)
                           (fun dx m => set_u8 m (ry r + dy) (rx r + dx) 255) m)
            zero)
  else None.

(** ** Float matrices ([CV_32F]) *)

Record FMat := mkFMat { frows : Z; fcols : Z; fdata : list F32.t }.

(** [m.create(r, c, CV_32F); m = 0;] *)
Definition FMat_zeros (r c : Z) : FMat :=
  mkFMat r c (replicate (Z.to_nat (r * c)) F32.zero).

(** [m.at<float>(i, j)] *)
Definition fat (m : FMat) (i j : Z) : F32.t :=
  nth (Z.to_nat (i * fcols m + j)) (fdata m) F32.zero.

(** [m.at<float>(i)] on a column vector *)
Definition fat1 (m : FMat) (i : Z) : F32.t :=
  nth (Z.to_nat i) (fdata m) F32.zero.

(** [m.at<float>(i, j) = v] *)
Definition fset (m : FMat) (i j : Z) (v : F32.t) : FMat :=
  mkFMat (frows m) (fcols m) (<[Z.to_nat (i * fcols m + j) := v]> (fdata m)).

(** [m.at<float>(i) = v] *)
Definition fset1 (m : FMat) (i : Z) (v : F32.t) : FMat :=
  mkFMat (frows m) (fcols m) (<[Z.to_nat i := v]> (fdata m)).

(** A matrix of [r] rows and [c] columns holding all its entries. *)
Definition fshape (r c : Z) (m : FMat) : Prop :=
  frows m = r /\ fcols m = c /\ length (fdata m) = Z.to_nat (r * c).

(** ** Tasks the alignment depends on *)

(** An [ImgTask] behind a [std::shared_ptr]: [addr] is the identity of the
    pointed-to object, which is what [==] on two shared pointers compares. *)
Record ImgTask := mkImgTask { addr : Z; basename : string; img : Mat }.

(** A [Task_LoadImg]: its (padded) image and the size before padding. *)
Record Task_LoadImg :=
  mkLoadImg { load_addr : Z; load_img : Mat; orig_width : Z; orig_height : Z }.

(** The neighbouring [Task_Align] given as initial guess; the task reads
    its [m_transformation] only. *)
Record Neighbour := mkNeighbour { nb_addr : Z; nb_transformation : FMat }.

(** [cv::TermCriteria(type, maxCount, epsilon)] *)
Record TermCriteria :=
  mkTermCriteria { tc_type : Z; tc_maxCount : Z; tc_epsilon : spec_float }.

(** The two forms of [cv::resize] the task uses: an explicit [cv::Size], or
    an empty size with the factors [fx], [fy]. *)
Inductive ResizeSpec :=
| ToSize (width height : Z)
| ByFactor (fx fy : F32.t).

(** Member functions, for the call log. *)
Inductive Method :=
| M_match_transform (max_resolution : Z) (rough : bool)
| M_match_contrast
| M_match_whitebalance
| M_apply_contrast_whitebalance
| M_apply_transform (inverse : bool).

(** What the task does that is visible from outside its own fields: the
    member functions it enters and the OpenCV calls it makes. *)
Inductive Event :=
| Enter (f : Method)
| CvResize (src : Mat) (spec : ResizeSpec) (interpolation : Z)
| CvWarpAffine (src : Mat) (M : FMat) (dsize : Z * Z) (flags : Z) (borderMode : Z)
| CvFindTransformECC (templateImage inputImage : Mat) (warpMatrix : FMat)
    (motionType : Z) (criteria : TermCriteria) (inputMask : Mat)
| CvSolve (src1 src2 : FMat) (flags : Z).

(** The fields of [Task_Align] (with those of its bases [ImgTask], [Task]
    that the source file touches). *)
Record Task_Align := mkTask_Align {
  m_filename : string;
  m_name : string;
  m_refgray : option ImgTask;
  m_refcolor : option ImgTask;
  m_srcgray : option ImgTask;
  m_srccolor : option ImgTask;
  m_initial_guess : option Neighbour;
  m_cropinfo : option Task_LoadImg;
  m_flags : Z;
  m_depends_on : list Z;
  m_transformation : FMat;
  m_contrast : FMat;
  m_whitebalance : FMat;
  m_roi : Rect;
  m_result : Mat
}.

Definition set_transformation (t : Task_Align) (v : FMat) : Task_Align :=
  mkTask_Align (m_filename t) (m_name t) (m_refgray t) (m_refcolor t) (m_srcgray t)
    (m_srccolor t) (m_initial_guess t) (m_cropinfo t) (m_flags t) (m_depends_on t)
    v (m_contrast t) (m_whitebalance t) (m_roi t) (m_result t).

Definition set_contrast (t : Task_Align) (v : FMat) : Task_Align :=
  mkTask_Align (m_filename t) (m_name t) (m_refgray t) (m_refcolor t) (m_srcgray t)
    (m_srccolor t) (m_initial_guess t) (m_cropinfo t) (m_flags t) (m_depends_on t)
    (m_transformation t) v (m_whitebalance t) (m_roi t) (m_result t).

Definition set_whitebalance (t : Task_Align) (v : FMat) : Task_Align :=
  mkTask_Align (m_filename t) (m_name t) (m_refgray t) (m_refcolor t) (m_srcgray t)
    (m_srccolor t) (m_initial_guess t) (m_cropinfo t) (m_flags t) (m_depends_on t)
    (m_transformation t) (m_contrast t) v (m_roi t) (m_result t).

Definition set_roi (t : Task_Align) (v : Rect) : Task_Align :=
  mkTask_Align (m_filename t) (m_name t) (m_refgray t) (m_refcolor t) (m_srcgray t)
    (m_srccolor t) (m_initial_guess t) (m_cropinfo t) (m_flags t) (m_depends_on t)
    (m_transformation t) (m_contrast t) (m_whitebalance t) v (m_result t).

Definition set_result (t : Task_Align) (v : Mat) : Task_Align :=
  mkTask_Align (m_filename t) (m_name t) (m_refgray t) (m_refcolor t) (m_srcgray t)
    (m_srccolor t) (m_initial_guess t) (m_cropinfo t) (m_flags t) (m_depends_on t)
    (m_transformation t) (m_contrast t) (m_whitebalance t) (m_roi t) v.

(** The six [reset()] calls that end [Task_Align::task]. *)
Definition reset_dependencies (t : Task_Align) : Task_Align :=
  mkTask_Align (m_filename t) (m_name t) None None None None None None
    (m_flags t) (m_depends_on t)
    (m_transformation t) (m_contrast t) (m_whitebalance t) (m_roi t) (m_result t).

(** ** The task monad: state, call log, C++ exceptions *)

Record World := mkWorld { self : Task_Align; calls : list Event }.

Inductive Outcome (A : Type) :=
| Returned (a : A) (w : World)
| Thrown (w : World).
Arguments Returned {A} a w.
Arguments Thrown {A} w.

Definition M (A : Type) : Type := World -> Outcome A.

Definition ret {A} (a : A) : M A := fun w => Returned a w.

Definition bind {A B} (m : M A) (k : A -> M B) : M B :=
  fun w => match m w with
           | Returned a w' => k a w'
           | Thrown w' => Thrown w'
           end.

Notation "'let*' x := m 'in' k" := (bind m (fun x => k))
  (at level 10, x name, m at level 100, k at level 200, only parsing).
Notation "m >> k" := (bind m (fun _ => k))
  (at level 65, right associativity, only parsing).

Definition throw {A} : M A := fun w => Thrown w.
Definition this : M Task_Align := fun w => Returned (self w) w.
Definition modify (f : Task_Align -> Task_Align) : M unit :=
  fun w => Returned tt (mkWorld (f (self w)) (calls w)).
Definition emit (e : Event) : M unit :=
  fun w => Returned tt (mkWorld (self w) (calls w ++ [e])).

(** Dereferencing a shared pointer; the constructor sets all four image
    pointers, so a null one is a contract violation, modelled as a throw. *)
Definition deref {A} (p : option A) : M A :=
  match p with Some a => ret a | None => throw end.

(** The state a run ends in, returned or thrown. *)
Definition world_of {A} (o : Outcome A) : World :=
  match o with Returned _ w => w | Thrown w => w end.

Definition is_returned {A} (o : Outcome A) : bool :=
  match o with Returned _ _ => true | Thrown _ => false end.

(** [if (b) { m; }] *)
Definition when (b : bool) (m : M unit) : M unit := if b then m else ret tt.

(** A library call that may raise. *)
Definition try_cv {A} (r : option A) : M A :=
  match r with Some a => ret a | None => throw end.

(** The six entries of an affine warp, as [cv::findTransformECC] leaves
    them in its 2x3 [warpMatrix]. *)
Record Affine := mkAffine {
  a00 : F32.t; a01 : F32.t; a02 : F32.t;
  a10 : F32.t; a11 : F32.t; a12 : F32.t
}.

Definition FMat_of_affine (a : Affine) : FMat :=
  mkFMat 2 3 [a00 a; a01 a; a02 a; a10 a; a11 a; a12 a].

(** A float matrix of 2 rows and 3 columns (holding 6 entries). *)
Definition is_2x3 (T : FMat) : bool :=
  (frows T =? 2) && (fcols T =? 3) && (Nat.eqb (length (fdata T)) 6).

(** ** The member functions *)

(** [(i - n/2.0f) / (float)n], the normalised coordinate of index [i] in
    an axis of [n] samples. *)
Definition coord (i n : Z) : F32.t :=
  ((F32.of_int i - F32.of_int n / F32.two) / F32.of_int n)%f32.

(** The contrast factor at a normalised position. *)
Definition contrast_factor (C : FMat) (xd yd : F32.t) : F32.t :=
  (fat1 C 0 + xd * (fat1 C 1 + fat1 C 2 * xd) + yd * (fat1 C 3 + fat1 C 4 * yd))%f32.

(** [std::min(255, std::max(0, i))] *)
Definition saturate (i : Z) : Z := Z.min 255 (Z.max 0 i).

(** One channel of one pixel: the corrected value [f], the residual
    [delta] carried so far; gives the stored byte and the new residual. *)
Definition dither (f delta : F32.t) : Z * F32.t :=
  let v := saturate (F32.to_int (f + delta)%f32) in
  (v, (delta + (f - F32.of_int v))%f32).

(** Body of the inner loop, grayscale branch. *)
Definition gray_pixel (C : FMat) (y x : Z) (st : F32.t * Mat) : F32.t * Mat :=
  let '(delta, img) := st in
  let yd := coord y (rows img) in
  let xd := coord x (cols img) in
  let c := contrast_factor C xd yd in
  let v := at_u8 img y x in
  let f := (F32.of_int v * c)%f32 in
  let '(v', delta') := dither f delta in
  (delta', set_u8 img y x v').

(** Body of the inner loop, colour branch. *)
Definition color_pixel (C W : FMat) (y x : Z)
    (st : (F32.t * F32.t * F32.t) * Mat) : (F32.t * F32.t * F32.t) * Mat :=
  let '((d0, d1, d2), img) := st in
  let yd := coord y (rows img) in
  let xd := coord x (cols img) in
  let c := contrast_factor C xd yd in
  let '(v0, v1, v2) := at_vec3b img y x in
  let b := (F32.of_int v0 * c * fat1 W 1 + fat1 W 0)%f32 in
  let g := (F32.of_int v1 * c * fat1 W 3 + fat1 W 2)%f32 in
  let r := (F32.of_int v2 * c * fat1 W 5 + fat1 W 4)%f32 in
  let '(v0', d0') := dither b d0 in
  let '(v1', d1') := dither g d1 in
  let '(v2', d2') := dither r d2 in
  ((d0', d1', d2'), set_vec3b img y x (v0', v1', v2')).

(** The pixel loops of [Task_Align::apply_contrast_whitebalance]. *)
Definition correct_pixels (C W : FMat) (img : Mat) : Mat :=
  if channels img =? 1 then
    snd (for_range (rows img)
           (fun y st => for_range (cols img) (fun x st => gray_pixel C y x st) st)
           (F32.zero, img))
  else
    snd (for_range (rows img)
           (fun y st => for_range (cols img) (fun x st => color_pixel C W y x st) st)
           ((F32.zero, F32.zero, F32.zero), img)).

(** [cv::Rect(roi.x * s, roi.y * s, roi.width * s, roi.height * s)]: each
    product is formed in [float] and converted to [int]. *)
Definition scale_rect (r : Rect) (s : F32.t) : Rect :=
  mkRect (F32.to_int (F32.of_int (rx r) * s)%f32)
         (F32.to_int (F32.of_int (ry r) * s)%f32)
         (F32.to_int (F32.of_int (rwidth r) * s)%f32)
         (F32.to_int (F32.of_int (rheight r) * s)%f32).

(** [T.at<float>(0, 2) *= s; T.at<float>(1, 2) *= s;] *)
Definition scale_translation (T : FMat) (s : F32.t) : FMat :=
  let T1 := fset T 0 2 (fat T 0 2 * s)%f32 in
  fset T1 1 2 (fat T1 1 2 * s)%f32.

(** [T.at<float>(0, 2) /= s; T.at<float>(1, 2) /= s;] *)
Definition unscale_translation (T : FMat) (s : F32.t) : FMat :=
  let T1 := fset T 0 2 (fat T 0 2 / s)%f32 in
  fset T1 1 2 (fat T1 1 2 / s)%f32.

(** Body of the sampling loop of [match_contrast]. *)
Definition contrast_sample (ref src : Mat) (xsamples : Z) (y x : Z)
    (st : FMat * FMat) : FMat * FMat :=
  let '(contrast, positions) := st in
  let idx := y * xsamples + x in
  let yd := coord y (rows ref) in
  let xd := coord x (cols ref) in
  let c := (F32.of_int (at_u8 ref y x) / F32.of_int (at_u8 src y x))%f32 in
  let contrast := fset1 contrast idx c in
  let positions := fset positions idx 0 F32.one in
  let positions := fset positions idx 1 xd in
  let positions := fset positions idx 2 (sq xd) in
  let positions := fset positions idx 3 yd in
  let positions := fset positions idx 4 (sq yd) in
  (contrast, positions).

(** Body of the sampling loop of [match_whitebalance]. *)
Definition whitebalance_sample (ref src : Mat) (xsamples : Z) (y x : Z)
    (st : FMat * FMat) : FMat * FMat :=
  let '(targets, factors) := st in
  let idx := y * xsamples + x in
  let '(s0, s1, s2) := at_vec3b src y x in
  let '(r0, r1, r2) := at_vec3b ref y x in
  let targets := fset targets (idx * 3 + 0) 0 (F32.of_int r0) in
  let targets := fset targets (idx * 3 + 1) 0 (F32.of_int r1) in
  let targets := fset targets (idx * 3 + 2) 0 (F32.of_int r2) in
  let factors := fset factors (idx * 3 + 0) 0 F32.one in
  let factors := fset factors (idx * 3 + 0) 1 (F32.of_int s0) in
  let factors := fset factors (idx * 3 + 1) 2 F32.one in
  let factors := fset factors (idx * 3 + 1) 3 (F32.of_int s1) in
  let factors := fset factors (idx * 3 + 2) 4 F32.one in
  let factors := fset factors (idx * 3 + 2) 5 (F32.of_int s2) in
  (targets, factors).

(** The sampling loops of [match_contrast]: the right-hand side
    [contrast] and the matrix [positions]. *)
Definition contrast_system (xsamples ysamples : Z) (ref src : Mat) : FMat * FMat :=
  let total := xsamples * ysamples in
  for_range ysamples
    (fun y st => for_range xsamples
                   (fun x st => contrast_sample ref src xsamples y x st) st)
    (FMat_zeros total 1, FMat_zeros total 5).

(** The sampling loops of [match_whitebalance]: the right-hand side
    [targets] and the matrix [factors], cleared beforehand. *)
Definition whitebalance_system (xsamples ysamples : Z) (ref src : Mat) : FMat * FMat :=
  let total := xsamples * ysamples in
  for_range ysamples
    (fun y st => for_range xsamples
                   (fun x st => whitebalance_sample ref src xsamples y x st) st)
    (FMat_zeros (total * 3) 1, FMat_zeros (total * 3) 6).

(** [p == q] on two shared pointers. *)
Definition shared_ptr_eqb (p q : option ImgTask) : bool :=
  match p, q with
  | Some a, Some b => addr a =? addr b
  | None, None => true
  | _, _ => false
  end.

(** 32-bit two's complement wrap-around of an [int] result. *)
Definition wrap_int (z : Z) : Z := (z + 2 ^ 31) mod 2 ^ 32 - 2 ^ 31.

(** The ROI derived from the loader's crop information. *)
Definition crop_roi (c : Task_LoadImg) : Rect :=
  let expand_x := wrap_int (cols (load_img c) - orig_width c) in
  let expand_y := wrap_int (rows (load_img c) - orig_height c) in
  mkRect (Z.quot expand_x 2) (Z.quot expand_y 2)
         (wrap_int (cols (load_img c) - expand_x))
         (wrap_int (rows (load_img c) - expand_y)).

(** The 2x3 identity the constructor stores in [m_transformation]. *)
Definition identity_transformation : FMat :=
  fset (fset (FMat_zeros 2 3) 0 0 F32.one) 1 1 F32.one.

(** [Task_Align::Task_Align] *)
Definition Task_Align_new (refgray refcolor srcgray srccolor : ImgTask)
    (initial_guess : option Neighbour) (cropinfo : option Task_LoadImg)
    (flags : Z) : Task_Align :=
  {| m_filename := String.append "aligned_" (basename srccolor);
     m_name := String.append "Align "
                 (String.append (basename srccolor)
                    (String.append " to " (basename refcolor)));
     m_refgray := Some refgray;
     m_refcolor := Some refcolor;
     m_srcgray := Some srcgray;
     m_srccolor := Some srccolor;
     m_initial_guess := initial_guess;
     m_cropinfo := cropinfo;
     m_flags := flags;
     m_depends_on :=
       [addr refgray; addr refcolor; addr srcgray; addr srccolor]
       ++ match initial_guess with Some g => [nb_addr g] | None => [] end
       ++ match cropinfo with Some c => [load_addr c] | None => [] end;
     m_transformation := identity_transformation;
     m_contrast := fset1 (FMat_zeros 5 1) 0 F32.one;
     m_whitebalance :=
       fset1 (fset1 (fset1 (FMat_zeros 6 1) 1 F32.one) 3 F32.one) 5 F32.one;
     m_roi := mkRect 0 0 0 0;
     m_result := Mat_empty |}.

Section Align.

(** Values of [FocusStack::align_flags_t], declared outside this file. *)
Variables ALIGN_FULL_RESOLUTION ALIGN_NO_WHITEBALANCE ALIGN_NO_CONTRAST : Z.

(** The OpenCV routines; [None] stands for a raised [cv::Exception]. *)
Variable resize_impl : Mat -> ResizeSpec -> Z -> option Mat.
Variable warpAffine_impl : Mat -> FMat -> Z * Z -> Z -> Z -> option Mat.
Variable findTransformECC_impl :
  Mat -> Mat -> FMat -> Z -> TermCriteria -> Mat -> option Affine.
Variable solve_impl : FMat -> FMat -> Z -> option FMat.

(** [cv::resize(src, dst, dsize, fx, fy, interpolation)]; with an explicit
    [dsize] the result has that size. *)
Definition cv_resize (src : Mat) (spec : ResizeSpec) (interpolation : Z) : M Mat :=
  emit (CvResize src spec interpolation) >>
  let* out := try_cv (resize_impl src spec interpolation) in
  ret match spec with
      | ToSize w h => mkMat h w (samples out)
      | ByFactor _ _ => out
      end.

(** [cv::warpAffine(src, dst, M, dsize, flags, borderMode)]; the result
    has size [dsize]. *)
Definition cv_warpAffine (src : Mat) (T : FMat) (dsize : Z * Z) (flags border : Z)
    : M Mat :=
  emit (CvWarpAffine src T dsize flags border) >>
  let* out := try_cv (warpAffine_impl src T dsize flags border) in
  ret (mkMat (snd dsize) (fst dsize) (samples out)).

(** [cv::findTransformECC(templ, input, warp, motion, criteria, mask)];
    it refines [warp] in place, and for an affine motion it rejects a
    [warp] that is not 2x3 with a [cv::Exception]. *)
Definition cv_findTransformECC (templ input : Mat) (warp : FMat) (motion : Z)
    (criteria : TermCriteria) (mask : Mat) : M FMat :=
  emit (CvFindTransformECC templ input warp motion criteria mask) >>
  if is_2x3 warp then
    let* a := try_cv (findTransformECC_impl templ input warp motion criteria mask) in
    ret (FMat_of_affine a)
  else throw.

(** [cv::solve(src1, src2, dst, flags)]; gives [dst]. *)
Definition cv_solve (src1 src2 : FMat) (flags : Z) : M FMat :=
  emit (CvSolve src1 src2 flags) >>
  try_cv (solve_impl src1 src2 flags).

(** [Task_Align::apply_transform] *)
Definition apply_transform (src : Mat) (inverse : bool) : M Mat :=
  emit (Enter (M_apply_transform inverse)) >>
  let invflag := if negb inverse then cv.WARP_INVERSE_MAP else 0 in
  let* t := this in
  cv_warpAffine src (m_transformation t) (cols src, rows src)
    (Z.lor cv.INTER_CUBIC invflag) cv.BORDER_REFLECT.

(** [Task_Align::apply_contrast_whitebalance] *)
Definition apply_contrast_whitebalance (img : Mat) : M Mat :=
  emit (Enter M_apply_contrast_whitebalance) >>
  let* t := this in
  ret (correct_pixels (m_contrast t) (m_whitebalance t) img).

(** [Task_Align::match_transform] *)
Definition match_transform (max_resolution : Z) (rough : bool) : M unit :=
  emit (Enter (M_match_transform max_resolution rough)) >>
  let* t := this in
  let* refgray := deref (m_refgray t) in
  let* srcgray := deref (m_srcgray t) in
  let resolution := Z.max (cols (img refgray)) (rows (img refgray)) in
  let* scaled :=
    (if resolution <=? max_resolution then
       ret (F32.one, img refgray, img srcgray)
     else
       let scale_ratio := (F32.of_int max_resolution / F32.of_int resolution)%f32 in
       let* ref := cv_resize (img refgray) (ByFactor scale_ratio scale_ratio)
                     cv.INTER_AREA in
       let* src := cv_resize (img srcgray) (ByFactor scale_ratio scale_ratio)
                     cv.INTER_AREA in
       ret (scale_ratio, ref, src)) in
  let '(scale_ratio, ref, src) := scaled in
  let* mask := try_cv (mask_of_rect (rows ref) (cols ref)
                         (scale_rect (m_roi t) scale_ratio)) in
  let* src := apply_contrast_whitebalance src in
  modify (fun t => set_transformation t
                     (scale_translation (m_transformation t) scale_ratio)) >>
  let* t := this in
  let criteria :=
    if rough then
      mkTermCriteria (cv.TermCriteria_COUNT + cv.TermCriteria_EPS) 25 (F64.lit 1 100)
    else
      mkTermCriteria (cv.TermCriteria_COUNT + cv.TermCriteria_EPS) 50 (F64.lit 1 1000) in
  let* warp := cv_findTransformECC ref src (m_transformation t) cv.MOTION_AFFINE
                 criteria mask in
  modify (fun t => set_transformation t warp) >>
  modify (fun t => set_transformation t
                     (unscale_translation (m_transformation t) scale_ratio)).

(** [Task_Align::match_contrast] *)
Definition match_contrast : M unit :=
  emit (Enter M_match_contrast) >>
  let xsamples := 64 in
  let ysamples := 64 in
  let* t := this in
  let* srcgray := deref (m_srcgray t) in
  let* tmp := apply_transform (img srcgray) false in
  let* refgray := deref (m_refgray t) in
  let* ref_roi := try_cv (Mat_roi (img refgray) (m_roi t)) in
  let* ref := cv_resize ref_roi (ToSize xsamples ysamples) cv.INTER_AREA in
  let* tmp_roi := try_cv (Mat_roi tmp (m_roi t)) in
  let* src := cv_resize tmp_roi (ToSize xsamples ysamples) cv.INTER_AREA in
  let '(contrast, positions) := contrast_system xsamples ysamples ref src in
  let* sol := cv_solve positions contrast cv.DECOMP_SVD in
  modify (fun t => set_contrast t sol).

(** [Task_Align::match_whitebalance] *)
Definition match_whitebalance : M unit :=
  emit (Enter M_match_whitebalance) >>
  let xsamples := 64 in
  let ysamples := 64 in
  let* t := this in
  let* srccolor := deref (m_srccolor t) in
  let* tmp := apply_transform (img srccolor) false in
  let* tmp := apply_contrast_whitebalance tmp in
  let* refcolor := deref (m_refcolor t) in
  let* ref_roi := try_cv (Mat_roi (img refcolor) (m_roi t)) in
  let* ref := cv_resize ref_roi (ToSize xsamples ysamples) cv.INTER_AREA in
  let* tmp_roi := try_cv (Mat_roi tmp (m_roi t)) in
  let* src := cv_resize tmp_roi (ToSize xsamples ysamples) cv.INTER_AREA in
  let '(targets, factors) := whitebalance_system xsamples ysamples ref src in
  let* sol := cv_solve factors targets cv.DECOMP_SVD in
  modify (fun t => set_whitebalance t sol).

Definition flag_set (flags bit : Z) : bool := negb (Z.land flags bit =? 0).

(** The [else] branch of [Task_Align::task]: source and reference differ. *)
Definition register : M unit :=
  let* t := this in
  match m_initial_guess t with
  | Some g => modify (fun t => set_transformation t (nb_transformation g))
  | None => ret tt
  end >>
  match m_cropinfo t with
  | Some c => modify (fun t => set_roi t (crop_roi c))
  | None =>
      let* srccolor := deref (m_srccolor t) in
      modify (fun t => set_roi t
                (mkRect 0 0 (cols (img srccolor)) (rows (img srccolor))))
  end >>
  match_transform 256 true >>
  when (negb (flag_set (m_flags t) ALIGN_NO_CONTRAST)) match_contrast >>
  when (negb (flag_set (m_flags t) ALIGN_NO_WHITEBALANCE)) match_whitebalance >>
  (if flag_set (m_flags t) ALIGN_FULL_RESOLUTION then
     let* srccolor := deref (m_srccolor t) in
     let res := Z.max (cols (img srccolor)) (rows (img srccolor)) in
     match_transform res false
   else
     match_transform 2048 false) >>
  let* srccolor := deref (m_srccolor t) in
  let* out := apply_transform (img srccolor) false in
  modify (fun t => set_result t out) >>
  when (negb (flag_set (m_flags t) ALIGN_NO_CONTRAST)
        || negb (flag_set (m_flags t) ALIGN_NO_WHITEBALANCE))
    (let* t := this in
     let* out := apply_contrast_whitebalance (m_result t) in
     modify (fun t => set_result t out)).

(** [Task_Align::task] *)
Definition task : M unit :=
  let* t := this in
  (if shared_ptr_eqb (m_refcolor t) (m_srccolor t) then
     let* srccolor := deref (m_srccolor t) in
     modify (fun t => set_result t (img srccolor))
   else register) >>
  modify reset_dependencies.

End Align.


(** ** Error diffusion told as one pass in scan order

    [gray_scan] and [color_scan] restate the pixel loops of
    [apply_contrast_whitebalance] as a single left-to-right pass over the
    samples in storage (scan) order: the accumulator holds the samples
    written so far and the residual carried to the next pixel.  They are
    compared with [correct_pixels] below. *)

Definition gray_scan_step (C : FMat) (nrows ncols : Z)
    (acc : list Z * F32.t) (v : Z) : list Z * F32.t :=
  let '(out, delta) := acc in
  let k := Z.of_nat (length out) in
  let c := contrast_factor C (coord (k mod ncols) ncols) (coord (k / ncols) nrows) in
  let '(v', delta') := dither (F32.of_int v * c)%f32 delta in
  (out ++ [v'], delta').

Definition gray_scan (C : FMat) (nrows ncols : Z) (px : list Z) : list Z * F32.t :=
  fold_left (gray_scan_step C nrows ncols) px ([], F32.zero).

Definition color_scan_step (C W : FMat) (nrows ncols : Z)
    (acc : list (Z * Z * Z) * (F32.t * F32.t * F32.t)) (v : Z * Z * Z)
    : list (Z * Z * Z) * (F32.t * F32.t * F32.t) :=
  let '(out, (d0, d1, d2)) := acc in
  let k := Z.of_nat (length out) in
  let c := contrast_factor C (coord (k mod ncols) ncols) (coord (k / ncols) nrows) in
  let '(v0, v1, v2) := v in
  let '(v0', d0') := dither (F32.of_int v0 * c * fat1 W 1 + fat1 W 0)%f32 d0 in
  let '(v1', d1') := dither (F32.of_int v1 * c * fat1 W 3 + fat1 W 2)%f32 d1 in
  let '(v2', d2') := dither (F32.of_int v2 * c * fat1 W 5 + fat1 W 4)%f32 d2 in
  (out ++ [(v0', v1', v2')], (d0', d1', d2')).

Definition color_scan (C W : FMat) (nrows ncols : Z) (px : list (Z * Z * Z))
    : list (Z * Z * Z) * (F32.t * F32.t * F32.t) :=
  fold_left (color_scan_step C W nrows ncols) px ([], (F32.zero, F32.zero, F32.zero)).


(** ** What the sampling loops are meant to build

    Row [y * 64 + x] of the contrast system: the ratio of the reference
    sample to the source sample on the right-hand side, and the five
    regressors [1, xd, xd^2, yd, yd^2] on the left. *)
Definition contrast_row (ref src : Mat) (contrast positions : FMat) (y x : Z) : Prop :=
  let idx := y * 64 + x in
  let xd := coord x (cols ref) in
  let yd := coord y (rows ref) in
  fat1 contrast idx = (F32.of_int (at_u8 ref y x) / F32.of_int (at_u8 src y x))%f32 /\
  fat positions idx 0 = F32.one /\
  fat positions idx 1 = xd /\
  fat positions idx 2 = (xd * xd)%f32 /\
  fat positions idx 3 = yd /\
  fat positions idx 4 = (yd * yd)%f32.

(** Entry [(row, col)] of the white-balance system matrix for channel [ch]
    of a sample whose source value is [s]: offset and gain columns of that
    channel ([2 ch], [2 ch + 1]) hold [1] and [s], every other column 0. *)
Definition whitebalance_entry (ch : Z) (s : Z) (col : Z) : F32.t :=
  if col =? 2 * ch then F32.one
  else if col =? 2 * ch + 1 then F32.of_int s
  else F32.zero.

Definition channel (v : Z * Z * Z) (ch : Z) : Z :=
  let '(b, g, r) := v in
  if ch =? 0 then b else if ch =? 1 then g else r.

(** Rows [3 (y * 64 + x) + ch] of the white-balance system, [ch = 0, 1, 2]. *)
Definition whitebalance_rows (ref src : Mat) (targets factors : FMat) (y x : Z) : Prop :=
  let idx := y * 64 + x in
  forall ch, 0 <= ch < 3 ->
    fat targets (idx * 3 + ch) 0 = F32.of_int (channel (at_vec3b ref y x) ch) /\
    forall col, 0 <= col < 6 ->
      fat factors (idx * 3 + ch) col
      = whitebalance_entry ch (channel (at_vec3b src y x) ch) col.

(** A pixel whose three channels are bytes. *)
Definition channels_in_range (v : Z * Z * Z) : Prop :=
  let '(b, g, r) := v in 0 <= b <= 255 /\ 0 <= g <= 255 /\ 0 <= r <= 255.


(** *** Rasters and their dithered correction *)

(** A raster that holds exactly its [rows * cols] pixels. *)
Definition raster (m : Mat) : Prop :=
  0 <= rows m /\ 0 <= cols m /\
  match samples m with
  | Gray8 px => length px = Z.to_nat (rows m * cols m)
  | Bgr8 px => length px = Z.to_nat (rows m * cols m)
  end.


(** ** Vocabulary for the statements *)

Section Specification.

Variables ALIGN_FULL_RESOLUTION ALIGN_NO_WHITEBALANCE ALIGN_NO_CONTRAST : Z.
Variable resize_impl : Mat -> ResizeSpec -> Z -> option Mat.

(** The resolution cap of the final pass. *)
Definition final_cap (t : Task_Align) (srccolor : ImgTask) : Z :=
  if flag_set (m_flags t) ALIGN_FULL_RESOLUTION
  then Z.max (cols (img srccolor)) (rows (img srccolor))
  else 2048.

Definition contrast_enabled (t : Task_Align) : bool :=
  negb (flag_set (m_flags t) ALIGN_NO_CONTRAST).

Definition whitebalance_enabled (t : Task_Align) : bool :=
  negb (flag_set (m_flags t) ALIGN_NO_WHITEBALANCE).

(** The reference and source a geometric pass works on, for the cap
    [cap]: the images themselves when the longer side of the reference
    is within the cap, their area-averaged reductions otherwise. *)
Inductive pass_inputs (R S : Mat) (cap : Z) :
    F32.t -> Mat -> Mat -> list Event -> Prop :=
| pass_full :
    Z.max (cols R) (rows R) <= cap ->
    pass_inputs R S cap F32.one R S []
| pass_reduced ratio ref src :
    cap < Z.max (cols R) (rows R) ->
    ratio = (F32.of_int cap / F32.of_int (Z.max (cols R) (rows R)))%f32 ->
    resize_impl R (ByFactor ratio ratio) cv.INTER_AREA = Some ref ->
    resize_impl S (ByFactor ratio ratio) cv.INTER_AREA = Some src ->
    pass_inputs R S cap ratio ref src
      [CvResize R (ByFactor ratio ratio) cv.INTER_AREA;
       CvResize S (ByFactor ratio ratio) cv.INTER_AREA].

(** The termination criteria of the rough and of the final pass. *)
Definition pass_criteria (rough : bool) : TermCriteria :=
  if rough then
    mkTermCriteria (cv.TermCriteria_COUNT + cv.TermCriteria_EPS) 25 (F64.lit 1 100)
  else
    mkTermCriteria (cv.TermCriteria_COUNT + cv.TermCriteria_EPS) 50 (F64.lit 1 1000).

(** The flags [cv::warpAffine] gets from [apply_transform]. *)
Definition warp_flags (inverse : bool) : Z :=
  Z.lor cv.INTER_CUBIC (if negb inverse then cv.WARP_INVERSE_MAP else 0).

(** The fields a step of the registration leaves alone. *)
Definition same_inputs (t t' : Task_Align) : Prop :=
  m_refgray t' = m_refgray t /\ m_refcolor t' = m_refcolor t /\
  m_srcgray t' = m_srcgray t /\ m_srccolor t' = m_srccolor t /\
  m_initial_guess t' = m_initial_guess t /\ m_cropinfo t' = m_cropinfo t /\
  m_flags t' = m_flags t /\ m_depends_on t' = m_depends_on t /\
  m_roi t' = m_roi t /\ m_result t' = m_result t.

(** *** One geometric pass *)

(** What a run of [match_transform] chose and obtained. *)
Record Pass := mkPass {
  p_ratio : F32.t;          (* scale_ratio *)
  p_ref : Mat;              (* the reference handed to ECC *)
  p_src : Mat;              (* the source, before its photometric correction *)
  p_resizes : list Event;   (* the cv::resize calls made *)
  p_mask : Mat;             (* the ECC mask *)
  p_answer : Affine         (* the warp ECC left *)
}.

(** The warp handed to ECC: the task's transformation, translation scaled. *)
Definition pass_warp (t : Task_Align) (p : Pass) : FMat :=
  scale_translation (m_transformation t) (p_ratio p).

(** The source handed to ECC: corrected with the current models. *)
Definition pass_input (t : Task_Align) (p : Pass) : Mat :=
  correct_pixels (m_contrast t) (m_whitebalance t) (p_src p).

Definition ecc_event (t : Task_Align) (rough : bool) (p : Pass) : Event :=
  CvFindTransformECC (p_ref p) (pass_input t p) (pass_warp t p)
    cv.MOTION_AFFINE (pass_criteria rough) (p_mask p).

(** The calls of one pass, in order. *)
Definition pass_events (t : Task_Align) (cap : Z) (rough : bool) (p : Pass)
    : list Event :=
  Enter (M_match_transform cap rough) :: p_resizes p
    ++ [Enter M_apply_contrast_whitebalance; ecc_event t rough p].

(** The transformation the pass leaves: ECC's answer, translation divided
    by the ratio. *)
Definition pass_result (p : Pass) : FMat :=
  unscale_translation (FMat_of_affine (p_answer p)) (p_ratio p).

(** A pass entered in state [t] with cap [cap]: the images are reduced
    (area-averaged) exactly when the longer side of the reference exceeds
    the cap; the mask has the size of the reference used and is 255 on
    the scaled ROI, 0 elsewhere; the warp handed over is a 2x3 matrix whose
    translation column alone is multiplied by the ratio; the warp left is
    ECC's, its translation column alone divided by the ratio. *)
Definition geometric_pass (t : Task_Align) (cap : Z) (p : Pass) : Prop :=
  exists refgray srcgray,
    m_refgray t = Some refgray /\
    m_srcgray t = Some srcgray /\
    pass_inputs (img refgray) (img srcgray) cap
      (p_ratio p) (p_ref p) (p_src p) (p_resizes p) /\
    (* mask *)
    rows (p_mask p) = rows (p_ref p) /\
    cols (p_mask p) = cols (p_ref p) /\
    (forall y x, 0 <= y < rows (p_ref p) -> 0 <= x < cols (p_ref p) ->
       at_u8 (p_mask p) y x
       = if in_rect (scale_rect (m_roi t) (p_ratio p)) y x then 255 else 0) /\
    (* translation scaled before the solve *)
    is_2x3 (m_transformation t) = true /\
    fat (pass_warp t p) 0 2 = (fat (m_transformation t) 0 2 * p_ratio p)%f32 /\
    fat (pass_warp t p) 1 2 = (fat (m_transformation t) 1 2 * p_ratio p)%f32 /\
    fat (pass_warp t p) 0 0 = fat (m_transformation t) 0 0 /\
    fat (pass_warp t p) 0 1 = fat (m_transformation t) 0 1 /\
    fat (pass_warp t p) 1 0 = fat (m_transformation t) 1 0 /\
    fat (pass_warp t p) 1 1 = fat (m_transformation t) 1 1 /\
    (* and divided after it *)
    fat (pass_result p) 0 2 = (a02 (p_answer p) / p_ratio p)%f32 /\
    fat (pass_result p) 1 2 = (a12 (p_answer p) / p_ratio p)%f32 /\
    fat (pass_result p) 0 0 = a00 (p_answer p) /\
    fat (pass_result p) 0 1 = a01 (p_answer p) /\
    fat (pass_result p) 1 0 = a10 (p_answer p) /\
    fat (pass_result p) 1 1 = a11 (p_answer p).

(** *** The photometric fits *)

(** A coordinate within [-0.5, 0.5]. *)
Definition coord_normalised (c : F32.t) : bool :=
  F32.leb (F32.dyadic (-1) 1) c && F32.leb c (F32.dyadic 1 1).

(** What a run of [match_contrast] or [match_whitebalance] sampled and
    obtained. *)
Record Fit := mkFit {
  f_moved : Mat;      (* the source, transform applied (and corrected) *)
  f_ref_roi : Mat;    (* the reference under the ROI *)
  f_src_roi : Mat;    (* the moved source under the ROI *)
  f_ref : Mat;        (* the 64x64 resampling of the reference *)
  f_src : Mat;        (* the 64x64 resampling of the source *)
  f_rhs : FMat;       (* right-hand side of the system *)
  f_matrix : FMat;    (* matrix of the system *)
  f_solution : FMat   (* what cv::solve left *)
}.

(** The calls of a fit whose source image is [source], in order. *)
Definition fit_events (t : Task_Align) (entry : Method) (corrected : bool)
    (source : Mat) (f : Fit) : list Event :=
  [Enter entry;
   Enter (M_apply_transform false);
   CvWarpAffine source (m_transformation t) (cols source, rows source)
     (warp_flags false) cv.BORDER_REFLECT]
  ++ (if corrected then [Enter M_apply_contrast_whitebalance] else [])
  ++ [CvResize (f_ref_roi f) (ToSize 64 64) cv.INTER_AREA;
      CvResize (f_src_roi f) (ToSize 64 64) cv.INTER_AREA;
      CvSolve (f_matrix f) (f_rhs f) cv.DECOMP_SVD].

(** The 64x64 area resampling of both images under the ROI. *)
Definition resampled (t : Task_Align) (reference : Mat) (f : Fit) : Prop :=
  Mat_roi reference (m_roi t) = Some (f_ref_roi f) /\
  Mat_roi (f_moved f) (m_roi t) = Some (f_src_roi f) /\
  (exists raw, resize_impl (f_ref_roi f) (ToSize 64 64) cv.INTER_AREA = Some raw /\
               f_ref f = mkMat 64 64 (samples raw)) /\
  (exists raw, resize_impl (f_src_roi f) (ToSize 64 64) cv.INTER_AREA = Some raw /\
               f_src f = mkMat 64 64 (samples raw)).

(** The task once the neighbour's transformation, if any, is copied in. *)
Definition seeded (t : Task_Align) : Task_Align :=
  match m_initial_guess t with
  | Some g => set_transformation t (nb_transformation g)
  | None => t
  end.

(** The ROI [Task_Align::task] computes. *)
Definition roi_for (t : Task_Align) : option Rect :=
  match m_cropinfo t with
  | Some c => Some (crop_roi c)
  | None =>
      match m_srccolor t with
      | Some s => Some (mkRect 0 0 (cols (img s)) (rows (img s)))
      | None => None
      end
  end.

End Specification.


(** *** What a run leaves of [m_result] *)

(** [m] ends, returned or thrown, with [m_result] as it found it. *)
Definition keeps_result {A} (m : M A) : Prop :=
  forall w, m_result (self (world_of (m w))) = m_result (self w).

(** If [m] throws, [m_result] is as [m] found it. *)
Definition throws_clean {A} (m : M A) : Prop :=
  forall w w', m w = Thrown w' -> m_result (self w') = m_result (self w).

(** ** Vocabulary for the fits, over the remaining OpenCV routines *)

Section FitSpecification.

Variable resize_impl : Mat -> ResizeSpec -> Z -> option Mat.
Variable warpAffine_impl : Mat -> FMat -> Z * Z -> Z -> Z -> option Mat.
Variable solve_impl : FMat -> FMat -> Z -> option FMat.

(** The source [source] moved by the task's transformation: cubic
    interpolation, the matrix taken as the map from result to source
    ([WARP_INVERSE_MAP]), reflected border, result of the source's size. *)
Definition moved (t : Task_Align) (source result : Mat) : Prop :=
  exists raw,
    warpAffine_impl source (m_transformation t) (cols source, rows source)
      (warp_flags false) cv.BORDER_REFLECT = Some raw /\
    result = mkMat (rows source) (cols source) (samples raw).

(** A contrast fit entered in state [t]. *)
Definition contrast_fit (t : Task_Align) (f : Fit) : Prop :=
  exists refgray srcgray,
    m_refgray t = Some refgray /\
    m_srcgray t = Some srcgray /\
    moved t (img srcgray) (f_moved f) /\
    resampled resize_impl t (img refgray) f /\
    fshape 4096 1 (f_rhs f) /\
    fshape 4096 5 (f_matrix f) /\
    (forall y x, 0 <= y < 64 -> 0 <= x < 64 ->
       contrast_row (f_ref f) (f_src f) (f_rhs f) (f_matrix f) y x /\
       coord x (cols (f_ref f)) = F32.dyadic (x - 32) 6 /\
       coord y (rows (f_ref f)) = F32.dyadic (y - 32) 6 /\
       coord_normalised (coord x (cols (f_ref f))) = true /\
       coord_normalised (coord y (rows (f_ref f))) = true) /\
    solve_impl (f_matrix f) (f_rhs f) cv.DECOMP_SVD = Some (f_solution f).

(** A white-balance fit entered in state [t]. *)
Definition whitebalance_fit (t : Task_Align) (f : Fit) : Prop :=
  exists refcolor srccolor warped,
    m_refcolor t = Some refcolor /\
    m_srccolor t = Some srccolor /\
    moved t (img srccolor) warped /\
    f_moved f = correct_pixels (m_contrast t) (m_whitebalance t) warped /\
    resampled resize_impl t (img refcolor) f /\
    fshape 12288 1 (f_rhs f) /\
    fshape 12288 6 (f_matrix f) /\
    (forall y x, 0 <= y < 64 -> 0 <= x < 64 ->
       whitebalance_rows (f_ref f) (f_src f) (f_rhs f) (f_matrix f) y x) /\
    solve_impl (f_matrix f) (f_rhs f) cv.DECOMP_SVD = Some (f_solution f).

End FitSpecification.

(** ** The full registration, step by step *)

(** What a run of the registering branch of [Task_Align::task] chose and
    obtained. *)
Record Registration := mkRegistration {
  r_roi : Rect;
  r_rough : Pass;
  r_contrast : option Fit;        (* [None]: the fit was skipped *)
  r_whitebalance : option Fit;    (* [None]: the fit was skipped *)
  r_final : Pass;
  r_warped : Mat                  (* the colour source, transform applied *)
}.

(** The task's state on entry to the rough pass ... *)
Definition at_rough (t : Task_Align) (r : Registration) : Task_Align :=
  set_roi (seeded t) (r_roi r).

(** ... to the contrast fit ... *)
Definition at_contrast (t : Task_Align) (r : Registration) : Task_Align :=
  set_transformation (at_rough t r) (pass_result (r_rough r)).

(** ... to the white-balance fit ... *)
Definition at_whitebalance (t : Task_Align) (r : Registration) : Task_Align :=
  match r_contrast r with
  | Some f => set_contrast (at_contrast t r) (f_solution f)
  | None => at_contrast t r
  end.

(** ... to the final pass ... *)
Definition at_final (t : Task_Align) (r : Registration) : Task_Align :=
  match r_whitebalance r with
  | Some f => set_whitebalance (at_whitebalance t r) (f_solution f)
  | None => at_whitebalance t r
  end.

(** ... and to the production of the output. *)
Definition at_output (t : Task_Align) (r : Registration) : Task_Align :=
  set_transformation (at_final t r) (pass_result (r_final r)).

(** Whether some photometric correction was fitted. *)
Definition photometric (r : Registration) : bool :=
  match r_contrast r, r_whitebalance r with
  | None, None => false
  | _, _ => true
  end.

(** The published result. *)
Definition output (t : Task_Align) (r : Registration) : Mat :=
  if photometric r
  then correct_pixels (m_contrast (at_output t r)) (m_whitebalance (at_output t r))
         (r_warped r)
  else r_warped r.

Definition optional_events (o : option Fit) (ev : Fit -> list Event) : list Event :=
  match o with Some f => ev f | None => [] end.

(** Every call of the registration, in order. *)
Definition registration_events (t : Task_Align) (gray color : Mat) (cap : Z)
    (r : Registration) : list Event :=
  pass_events (at_rough t r) 256 true (r_rough r)
  ++ optional_events (r_contrast r)
       (fit_events (at_contrast t r) M_match_contrast false gray)
  ++ optional_events (r_whitebalance r)
       (fit_events (at_whitebalance t r) M_match_whitebalance true color)
  ++ pass_events (at_final t r) cap false (r_final r)
  ++ [Enter (M_apply_transform false);
      CvWarpAffine color (m_transformation (at_output t r))
        (cols color, rows color) (warp_flags false) cv.BORDER_REFLECT]
  ++ (if photometric r then [Enter M_apply_contrast_whitebalance] else []).

(** A fit that ran exactly when it was enabled. *)
Definition optional_fit (enabled : bool) (ok : Fit -> Prop) (o : option Fit) : Prop :=
  match o with
  | Some f => enabled = true /\ ok f
  | None => enabled = false
  end.

(** The OpenCV calls that ask for an ECC solve. *)
Definition is_ecc_call (e : Event) : bool :=
  match e with CvFindTransformECC _ _ _ _ _ _ => true | _ => false end.

(** An ECC call in the log that the solver answered with an exception. *)
Definition ecc_failed
    (ecc : Mat -> Mat -> FMat -> Z -> TermCriteria -> Mat -> option Affine)
    (e : Event) : Prop :=
  match e with
  | CvFindTransformECC templ input warp motion criteria mask =>
      ecc templ input warp motion criteria mask = None
  | _ => False
  end.

(** The ROI is [roi] at every stage of the registration. *)
Definition roi_throughout (t : Task_Align) (r : Registration) (roi : Rect) : Prop :=
  m_roi (at_rough t r) = roi /\ m_roi (at_contrast t r) = roi /\
  m_roi (at_whitebalance t r) = roi /\ m_roi (at_final t r) = roi /\
  m_roi (at_output t r) = roi.

Definition solved (ecc : Mat -> Mat -> FMat -> Z -> TermCriteria -> Mat -> option Affine)
    (t : Task_Align) (rough : bool) (p : Pass) : Prop :=
  ecc (p_ref p) (pass_input t p) (pass_warp t p) cv.MOTION_AFFINE
    (pass_criteria rough) (p_mask p) = Some (p_answer p).

(** ** A concrete instance

    Small rasters and simple stand-ins for the OpenCV routines, on which
    the model can be run: nearest-neighbour resampling, a warp that copies
    its source (exact for the identity transformation), an ECC that
    converges at once on the warp it is given, and a solver that answers
    the neutral model. *)

Module Demo.

Definition ALIGN_FULL_RESOLUTION : Z := 2.
Definition ALIGN_NO_WHITEBALANCE : Z := 4.
Definition ALIGN_NO_CONTRAST : Z := 8.

Definition nearest {A} (d : A) (nr nc : Z) (px : list A) (h w : Z) : list A :=
  flat_map
    (fun y => map (fun x => nth (Z.to_nat ((Z.of_nat y * nr / h) * nc
                                           + Z.of_nat x * nc / w)) px d)
                (seq 0 (Z.to_nat w)))
    (seq 0 (Z.to_nat h)).

Definition resize_to (src : Mat) (w h : Z) : Mat :=
  mkMat h w
    match samples src with
    | Gray8 px => Gray8 (nearest 0 (rows src) (cols src) px h w)
    | Bgr8 px => Bgr8 (nearest (0, 0, 0) (rows src) (cols src) px h w)
    end.

Definition resize (src : Mat) (spec : ResizeSpec) (interpolation : Z) : option Mat :=
  match spec with
  | ToSize w h => Some (resize_to src w h)
  | ByFactor fx fy =>
      Some (resize_to src
              (Z.max 1 (F32.to_int (F32.of_int (cols src) * fx)%f32))
              (Z.max 1 (F32.to_int (F32.of_int (rows src) * fy)%f32)))
  end.

Definition warpAffine (src : Mat) (T : FMat) (dsize : Z * Z) (flags border : Z)
    : option Mat := Some src.

Definition findTransformECC (templ input : Mat) (warp : FMat) (motion : Z)
    (criteria : TermCriteria) (mask : Mat) : option Affine :=
  Some (mkAffine (fat warp 0 0) (fat warp 0 1) (fat warp 0 2)
                 (fat warp 1 0) (fat warp 1 1) (fat warp 1 2)).

(** An ECC that never converges. *)
Definition failing_ECC (templ input : Mat) (warp : FMat) (motion : Z)
    (criteria : TermCriteria) (mask : Mat) : option Affine := None.

Definition solve (A b : FMat) (method : Z) : option FMat :=
  Some (if fcols A =? 5
        then fset1 (FMat_zeros 5 1) 0 F32.one
        else fset1 (fset1 (fset1 (FMat_zeros 6 1) 1 F32.one) 3 F32.one) 5 F32.one).

(** A 3x2 scene, in grey and in colour, and a second exposure of it. *)
Definition gray_a : Mat := mkMat 2 3 (Gray8 [10; 20; 30; 40; 50; 60]).
Definition gray_b : Mat := mkMat 2 3 (Gray8 [11; 21; 31; 41; 51; 61]).
Definition color_a : Mat :=
  mkMat 2 3 (Bgr8 [(10, 11, 12); (20, 21, 22); (30, 31, 32);
                   (40, 41, 42); (50, 51, 52); (60, 61, 62)]).
Definition color_b : Mat :=
  mkMat 2 3 (Bgr8 [(11, 12, 13); (21, 22, 23); (31, 32, 33);
                   (41, 42, 43); (51, 52, 53); (61, 62, 63)]).

Definition refgray : ImgTask := mkImgTask 1 "gray_a" gray_a.
Definition refcolor : ImgTask := mkImgTask 2 "a" color_a.
Definition srcgray : ImgTask := mkImgTask 3 "gray_b" gray_b.
Definition srccolor : ImgTask := mkImgTask 4 "b" color_b.

(** The second exposure as the loader would hand it over with one column
    of padding on each side of an original of width 1. *)
Definition cropinfo : Task_LoadImg := mkLoadImg 5 color_b 1 2.

(** A neighbour whose solved transformation shifts by (2, -1). *)
Definition neighbour : Neighbour :=
  mkNeighbour 6
    (FMat_of_affine (mkAffine F32.one F32.zero (F32.of_int 2)
                              F32.zero F32.one (F32.of_int (-1)))).

(** A task aligning the second exposure to the first, before its run. *)
Definition fresh (flags : Z) (guess : option Neighbour)
    (crop : option Task_LoadImg) : World :=
  mkWorld (Task_Align_new refgray refcolor srcgray srccolor guess crop flags) [].

(** A task aligning the second exposure to itself. *)
Definition fresh_same (flags : Z) : World :=
  mkWorld (Task_Align_new srcgray srccolor srcgray srccolor None None flags) [].

(** Only the geometric search: both photometric fits switched off. *)
Definition geometric_only : Z := Z.lor ALIGN_NO_WHITEBALANCE ALIGN_NO_CONTRAST.

End Demo.

(** ** Intermediate states of the loops, for the proofs *)

(** The state of the gray loops once the first [k] pixels are done. *)
Definition gray_state (C : FMat) (nr nc : Z) (px : list Z) (k : nat) : F32.t * Mat :=
  (snd (gray_scan C nr nc (take k px)),
   mkMat nr nc (Gray8 (fst (gray_scan C nr nc (take k px)) ++ drop k px))).

(** The state of the colour loops once the first [k] pixels are done. *)
Definition color_state (C W : FMat) (nr nc : Z) (px : list (Z * Z * Z)) (k : nat)
    : (F32.t * F32.t * F32.t) * Mat :=
  (snd (color_scan C W nr nc (take k px)),
   mkMat nr nc (Bgr8 (fst (color_scan C W nr nc (take k px)) ++ drop k px))).

(** A one-channel raster of [nr] rows and [nc] columns holding all its
    samples. *)
Definition gray_raster (nr nc : Z) (m : Mat) : Prop :=
  rows m = nr /\ cols m = nc /\
  exists px, samples m = Gray8 px /\ length px = Z.to_nat (nr * nc).

(** The part of the rectangle filled once [dy] full rows and [dx] samples
    of the next row are written. *)
Definition filled (r : Rect) (dy dx : Z) (y x : Z) : Prop :=
  (rx r <= x < rx r + rwidth r /\ ry r <= y < ry r + dy) \/
  (y = ry r + dy /\ rx r <= x < rx r + dx).

Definition mask_upto (nr nc : Z) (r : Rect) (dy dx : Z) (m : Mat) : Prop :=
  gray_raster nr nc m /\
  forall y x, 0 <= y < nr -> 0 <= x < nc ->
    (filled r dy dx y x -> at_u8 m y x = 255) /\
    (~ filled r dy dx y x -> at_u8 m y x = 0).

(** ** Runs on the concrete instance *)

(** A uniform gain of 1.5 and the neutral white balance. *)
Definition gain_3_2 : FMat := fset1 (FMat_zeros 5 1) 0 (F32.dyadic 3 1).
Definition neutral_whitebalance : FMat :=
  fset1 (fset1 (fset1 (FMat_zeros 6 1) 1 F32.one) 3 F32.one) 5 F32.one.

(** The runs used below: the geometric search alone, with contrast
    correction, and with both corrections. *)
Definition demo_geometric : World := Demo.fresh Demo.geometric_only None None.
Definition demo_contrast : World := Demo.fresh Demo.ALIGN_NO_WHITEBALANCE None None.
Definition demo_full : World := Demo.fresh 0 None None.
Definition demo_cropped : World :=
  Demo.fresh Demo.geometric_only None (Some Demo.cropinfo).
Definition demo_seeded : World :=
  Demo.fresh Demo.geometric_only (Some Demo.neighbour) None.

(** A wider scene, 4 rows of 300 columns, which the rough pass has to
    reduce; the loader padded it from an original of 280 columns and 2
    rows, and the neighbour's transformation seeds the search. *)
Definition wide_gray (shift : Z) : Mat :=
  mkMat 4 300
    (Gray8 (map (fun i => (Z.of_nat i + shift) mod 256) (seq 0 1200))).
Definition wide_color (shift : Z) : Mat :=
  mkMat 4 300
    (Bgr8 (map (fun i => let v := (Z.of_nat i + shift) mod 256 in (v, v, v))
             (seq 0 1200))).
Definition demo_wide : World :=
  mkWorld
    (Task_Align_new (mkImgTask 11 "wide_gray_a" (wide_gray 0))
       (mkImgTask 12 "wide_a" (wide_color 0))
       (mkImgTask 13 "wide_gray_b" (wide_gray 1))
       (mkImgTask 14 "wide_b" (wide_color 1))
       (Some Demo.neighbour) (Some (mkLoadImg 15 (wide_color 1) 280 2))
       Demo.geometric_only) [].

(** The seeded task on entry to a pass, with a ROI of one column. *)
Definition demo_on_entry : World :=
  mkWorld (set_roi (seeded (self demo_seeded)) (mkRect 1 0 1 2)) [].

(** [Task_Align::task] over the stand-ins, and with the failing ECC. *)
Abbreviation demo_task :=
  (task Demo.ALIGN_FULL_RESOLUTION Demo.ALIGN_NO_WHITEBALANCE Demo.ALIGN_NO_CONTRAST
     Demo.resize Demo.warpAffine Demo.findTransformECC Demo.solve).
Abbreviation demo_task_failing :=
  (task Demo.ALIGN_FULL_RESOLUTION Demo.ALIGN_NO_WHITEBALANCE Demo.ALIGN_NO_CONTRAST
     Demo.resize Demo.warpAffine Demo.failing_ECC Demo.solve).

(** The world a run from [w] ends in. *)
Definition after (w : World) : World := world_of (demo_task w).

(** ** Vocabulary for the further properties *)

(** A value that is neither infinite nor NaN, of exponent at least [L]
    and magnitude below [2^K]. *)
Definition finite_upto (K L : Z) (f : F32.t) : Prop :=
  match f with
  | S754_zero _ => True
  | S754_finite _ m e => L <= e /\ Zpos (digits2_pos m) + e <= K
  | _ => False
  end.

(** Neither an infinity nor a NaN. *)
Definition is_finite (f : F32.t) : bool :=
  match f with
  | S754_zero _ | S754_finite _ _ _ => true
  | _ => false
  end.

(** A binary32 value as the hardware holds it. *)
Definition is_binary32 (f : F32.t) : bool := valid_binary F32.prec F32.emax f.

(** The contrast model the constructor installs. *)
Definition neutral_contrast : FMat := fset1 (FMat_zeros 5 1) 0 F32.one.

(** A raster whose samples are bytes. *)
Definition byte_samples (m : Mat) : Prop :=
  match samples m with
  | Gray8 px => Forall (fun v => 0 <= v <= 255) px
  | Bgr8 px => Forall channels_in_range px
  end.

(** An 8-bit image as OpenCV holds it: all its samples present, each a
    byte, the dimensions within [int]. *)
Definition image (m : Mat) : Prop :=
  raster m /\ byte_samples m /\ rows m < 2 ^ 31 /\ cols m < 2 ^ 31.

(** The fields [Task_Align::task] has no statement to change before its
    six [reset()] calls. *)
Definition dependencies_held (t t' : Task_Align) : Prop :=
  m_refgray t' = m_refgray t /\ m_refcolor t' = m_refcolor t /\
  m_srcgray t' = m_srcgray t /\ m_srccolor t' = m_srccolor t /\
  m_initial_guess t' = m_initial_guess t /\ m_cropinfo t' = m_cropinfo t.

(** The fields no run changes. *)
Definition identity_kept (t t' : Task_Align) : Prop :=
  m_filename t' = m_filename t /\ m_name t' = m_name t /\
  m_flags t' = m_flags t /\ m_depends_on t' = m_depends_on t.

(** The only ways the task uses OpenCV: area-averaged resampling, to 64x64
    or by one factor for both axes; warps that keep the size of their
    source, cubic, with the matrix taken as the map from result to source
    and a reflected border; affine ECC with a count-and-tolerance
    criterion; SVD solves. *)
Definition conventional (e : Event) : Prop :=
  match e with
  | Enter (M_apply_transform inverse) => inverse = false
  | Enter _ => True
  | CvResize _ spec interpolation =>
      interpolation = cv.INTER_AREA /\
      match spec with
      | ToSize w h => w = 64 /\ h = 64
      | ByFactor fx fy => fx = fy
      end
  | CvWarpAffine src _ dsize flags border =>
      dsize = (cols src, rows src) /\
      flags = Z.lor cv.INTER_CUBIC cv.WARP_INVERSE_MAP /\
      border = cv.BORDER_REFLECT
  | CvFindTransformECC _ _ _ motion criteria _ =>
      motion = cv.MOTION_AFFINE /\
      tc_type criteria = cv.TermCriteria_COUNT + cv.TermCriteria_EPS /\
      (tc_maxCount criteria = 25 \/ tc_maxCount criteria = 50)
  | CvSolve _ _ flags => flags = cv.DECOMP_SVD
  end.

(** What holds between the world a computation starts in and the one it
    ends in, returned or thrown. *)
Definition always {A} (P : World -> World -> Prop) (m : M A) : Prop :=
  forall w, P w (world_of (m w)).

(** The log grew by conventional calls only, and the dependencies and the
    identity of the task are as they were. *)
Definition orderly (w w' : World) : Prop :=
  dependencies_held (self w) (self w') /\
  identity_kept (self w) (self w') /\
  exists ev, calls w' = calls w ++ ev /\ Forall conventional ev.

(** What the geometric search reads of the task. *)
Definition geometry (t : Task_Align) : _ :=
  (m_refgray t, m_srcgray t, m_roi t, m_transformation t, m_contrast t).

(** The ECC calls of a log. *)
Definition ecc_calls (w : World) : list Event := List.filter is_ecc_call (calls w).

(** A rectangle whose four components fit 24 bits, so that their
    conversion to [float] is exact. *)
Definition small_rect (r : Rect) : Prop :=
  - 2 ^ 24 < rx r < 2 ^ 24 /\ - 2 ^ 24 < ry r < 2 ^ 24 /\
  - 2 ^ 24 < rwidth r < 2 ^ 24 /\ - 2 ^ 24 < rheight r < 2 ^ 24.

(** The translation column of a 2x3 matrix holds binary32 values. *)
Definition binary32_translation (T : FMat) : Prop :=
  is_binary32 (fat T 0 2) = true /\ is_binary32 (fat T 1 2) = true.

(** The warps and the linear solves of a log. *)
Definition is_warp_call (e : Event) : bool :=
  match e with CvWarpAffine _ _ _ _ _ => true | _ => false end.

Definition is_solve_call (e : Event) : bool :=
  match e with CvSolve _ _ _ => true | _ => false end.

Definition count (f : Event -> bool) (l : list Event) : nat :=
  length (List.filter f l).

(** Crop information of a loader whose padded image (4 rows of 5) is
    larger than the gray reference of the instance. *)
Definition demo_oversized : World :=
  Demo.fresh Demo.geometric_only None
    (Some (mkLoadImg 7 (mkMat 4 5 (Gray8 [])) 5 4)).

(** The contrast fit switched off, the white-balance fit left on. *)
Definition demo_whitebalance : World := Demo.fresh Demo.ALIGN_NO_CONTRAST None None.

(** The same gray pair with the two colour images exchanged and both fits
    switched off. *)
Definition demo_recoloured : World :=
  mkWorld (Task_Align_new Demo.refgray Demo.srccolor Demo.srcgray Demo.refcolor
             None None Demo.geometric_only) [].

(** * main.cc: the files of an input folder *)

(** The suffix of [s] that starts at the last occurrence of [c]. *)
Fixpoint last_suffix (c : ascii) (s : string) : option string :=
  match s with
  | EmptyString => None
  | String a r =>
      match last_suffix c r with
      | Some t => Some t
      | None => if Ascii.eqb a c then Some s else None
      end
  end.

(** [std::filesystem::path::filename], POSIX separators: what follows the
    last ['/'], the whole path when there is none. *)
Definition path_filename (p : string) : string :=
  match last_suffix "/" p with
  | Some (String _ r) => r
  | _ => p
  end.

(** [std::filesystem::path::extension]: the suffix of the file name that
    starts at its last period; empty when the name has no period, when
    its only period leads it, and for the names ["."] and [".."]. *)
Definition path_extension (p : string) : string :=
  let f := path_filename p in
  if String.eqb f "." || String.eqb f ".." then EmptyString
  else match f with
       | EmptyString => EmptyString
       | String _ r =>
           match last_suffix "." r with
           | Some t => t
           | None => EmptyString
           end
       end.

(** [find_files].  [listing] is what [std::filesystem::directory_iterator]
    yields for the folder, in its order; [None] when it throws (the folder
    cannot be read).  The loop appends the paths it keeps. *)
Definition find_files (listing : option (list string)) : option (list string) :=
  match listing with
  | None => None
  | Some entries =>
      Some (fold_left
              (fun filepaths path =>
                 let ext := path_extension path in
                 if String.eqb ext ".jpg" || String.eqb ext ".png"
                 then filepaths ++ [path]
                 else filepaths)
              entries [])
  end.

(** A file name made of a non-empty stem and the suffix [ext]. *)
Definition named_with (ext : string) (p : string) : Prop :=
  exists stem, stem <> EmptyString /\ path_filename p = String.append stem ext.

(** * Properties *)

(** ** Loops *)

Lemma for_loop_inv {St : Type} (P : Z -> St -> Prop) (body : Z -> St -> St) :
  forall n i s,
    P i s ->
    (forall j t, i <= j < i + Z.of_nat n -> P j t -> P (j + 1) (body j t)) ->
    P (i + Z.of_nat n) (for_loop n i body s).
Proof.
  induction n as [|n IH]; intros i s Hs Hstep.
  - cbn. replace (i + Z.of_nat 0) with i by lia. exact Hs.
  - cbn [for_loop].
    replace (i + Z.of_nat (S n)) with ((i + 1) + Z.of_nat n) by lia.
    apply IH.
    + apply Hstep; [lia | exact Hs].
    + intros j t Hj. apply Hstep. lia.
Qed.

Lemma for_range_inv {St : Type} (P : Z -> St -> Prop) (body : Z -> St -> St) hi s :
  0 <= hi ->
  P 0 s ->
  (forall j t, 0 <= j < hi -> P j t -> P (j + 1) (body j t)) ->
  P hi (for_range hi body s).
Proof.
  intros Hhi Hs Hstep. unfold for_range.
  replace hi with (0 + Z.of_nat (Z.to_nat hi)) at 1 by lia.
  apply for_loop_inv; [exact Hs|].
  intros j t Hj. apply Hstep. lia.
Qed.

Lemma for_range_neg {St : Type} (body : Z -> St -> St) hi s :
  hi <= 0 -> for_range hi body s = s.
Proof.
  intros H. unfold for_range. replace (Z.to_nat hi) with O by lia. reflexivity.
Qed.

(** ** The pixel loops against the scan *)

Lemma gray_scan_step_length C nr nc acc v :
  length (fst (gray_scan_step C nr nc acc v)) = S (length (fst acc)).
Proof.
  destruct acc as [out d]. unfold gray_scan_step.
  destruct (dither _ _) as [v' d']. cbn. rewrite length_app. cbn. lia.
Qed.

Lemma gray_scan_fold_length C nr nc l : forall acc,
  length (fst (fold_left (gray_scan_step C nr nc) l acc))
  = (length (fst acc) + length l)%nat.
Proof.
  induction l as [|v l IH]; intros acc; cbn [fold_left length].
  - lia.
  - rewrite IH, gray_scan_step_length. lia.
Qed.

Lemma gray_scan_length C nr nc px :
  length (fst (gray_scan C nr nc px)) = length px.
Proof. unfold gray_scan. rewrite gray_scan_fold_length. reflexivity. Qed.

Lemma gray_scan_snoc C nr nc px v :
  gray_scan C nr nc (px ++ [v]) = gray_scan_step C nr nc (gray_scan C nr nc px) v.
Proof. unfold gray_scan. rewrite fold_left_app. reflexivity. Qed.

(** The index of pixel [(y, x)] in a raster of [nc] columns determines
    [y] and [x]. *)
Lemma index_div nc y x : 0 <= x < nc -> (y * nc + x) / nc = y.
Proof.
  intros H. rewrite Z.add_comm, Z.div_add by lia. rewrite Z.div_small by lia. lia.
Qed.

Lemma index_mod nc y x : 0 <= x < nc -> (y * nc + x) mod nc = x.
Proof.
  intros H. rewrite Z.add_comm, Z.mod_add by lia. apply Z.mod_small. lia.
Qed.

Lemma gray_pixel_scan C nr nc px y x :
  0 <= y -> 0 <= x < nc ->
  (Z.to_nat (y * nc + x) < length px)%nat ->
  gray_pixel C y x (gray_state C nr nc px (Z.to_nat (y * nc + x)))
  = gray_state C nr nc px (Z.to_nat (y * nc + x + 1)).
Proof.
  intros Hy Hx Hk.
  set (k := Z.to_nat (y * nc + x)) in *.
  replace (Z.to_nat (y * nc + x + 1)) with (S k) by (unfold k; nia).
  destruct (lookup_lt_is_Some_2 px k Hk) as [v Hv].
  unfold gray_state.
  rewrite (take_S_r _ _ _ Hv), gray_scan_snoc.
  assert (Hlen : length (fst (gray_scan C nr nc (take k px))) = k).
  { rewrite gray_scan_length, length_take. lia. }
  destruct (gray_scan C nr nc (take k px)) as [out d] eqn:Hscan.
  cbn [fst snd] in *.
  unfold gray_pixel, gray_scan_step, at_u8, set_u8, pixel_index.
  cbn [rows cols samples]. fold k.
  rewrite Hlen.
  replace (Z.of_nat k) with (y * nc + x) by (unfold k; nia).
  rewrite index_div, index_mod by lia.
  assert (Hnth : nth k (out ++ drop k px) 0 = v).
  { rewrite app_nth2 by lia. rewrite Hlen, Nat.sub_diag.
    rewrite (drop_S _ _ _ Hv). reflexivity. }
  rewrite Hnth.
  destruct (dither _ d) as [v' d'].
  cbn [fst snd]. f_equal. f_equal. f_equal.
  rewrite (drop_S _ _ _ Hv).
  rewrite <- Hlen at 1.
  rewrite <- (Nat.add_0_r (length out)), insert_app_r. cbn.
  rewrite <- app_assoc. reflexivity.
Qed.

Lemma correct_pixels_gray C W nr nc px :
  0 <= nr -> 0 <= nc -> length px = Z.to_nat (nr * nc) ->
  correct_pixels C W (mkMat nr nc (Gray8 px))
  = mkMat nr nc (Gray8 (fst (gray_scan C nr nc px))).
Proof.
  intros Hnr Hnc Hlen. unfold correct_pixels. cbn [channels samples rows cols].
  change (1 =? 1) with true. cbv iota.
  pose (P := fun (y : Z) (st : F32.t * Mat) =>
               st = gray_state C nr nc px (Z.to_nat (y * nc))).
  assert (Hend : P nr (for_range nr
            (fun y st => for_range nc (fun x st => gray_pixel C y x st) st)
            (F32.zero, mkMat nr nc (Gray8 px)))).
  { apply for_range_inv; [exact Hnr | reflexivity |].
    intros y st Hy ->.
    pose (Q := fun (x : Z) (st : F32.t * Mat) =>
                 st = gray_state C nr nc px (Z.to_nat (y * nc + x))).
    assert (Hrow : Q nc (for_range nc (fun x st => gray_pixel C y x st)
                           (gray_state C nr nc px (Z.to_nat (y * nc))))).
    { apply for_range_inv; [exact Hnc | |].
      - unfold Q. rewrite Z.add_0_r. reflexivity.
      - intros x st Hx ->. unfold Q.
        rewrite gray_pixel_scan; [f_equal; lia | lia | lia | nia]. }
    unfold Q in Hrow. unfold P. rewrite Hrow. f_equal. f_equal. lia. }
  unfold P in Hend. rewrite Hend. unfold gray_state. cbn [snd].
  rewrite <- Hlen, firstn_all, drop_all, app_nil_r. reflexivity.
Qed.

Lemma color_scan_step_length C W nr nc acc v :
  length (fst (color_scan_step C W nr nc acc v)) = S (length (fst acc)).
Proof.
  destruct acc as [out [[d0 d1] d2]], v as [[v0 v1] v2]. unfold color_scan_step.
  do 3 destruct (dither _ _). cbn. rewrite length_app. cbn. lia.
Qed.

Lemma color_scan_fold_length C W nr nc l : forall acc,
  length (fst (fold_left (color_scan_step C W nr nc) l acc))
  = (length (fst acc) + length l)%nat.
Proof.
  induction l as [|v l IH]; intros acc; cbn [fold_left length].
  - lia.
  - rewrite IH, color_scan_step_length. lia.
Qed.

Lemma color_scan_length C W nr nc px :
  length (fst (color_scan C W nr nc px)) = length px.
Proof. unfold color_scan. rewrite color_scan_fold_length. reflexivity. Qed.

Lemma color_scan_snoc C W nr nc px v :
  color_scan C W nr nc (px ++ [v])
  = color_scan_step C W nr nc (color_scan C W nr nc px) v.
Proof. unfold color_scan. rewrite fold_left_app. reflexivity. Qed.

Lemma color_pixel_scan C W nr nc px y x :
  0 <= y -> 0 <= x < nc ->
  (Z.to_nat (y * nc + x) < length px)%nat ->
  color_pixel C W y x (color_state C W nr nc px (Z.to_nat (y * nc + x)))
  = color_state C W nr nc px (Z.to_nat (y * nc + x + 1)).
Proof.
  intros Hy Hx Hk.
  set (k := Z.to_nat (y * nc + x)) in *.
  replace (Z.to_nat (y * nc + x + 1)) with (S k) by (unfold k; nia).
  destruct (lookup_lt_is_Some_2 px k Hk) as [v Hv].
  unfold color_state.
  rewrite (take_S_r _ _ _ Hv), color_scan_snoc.
  assert (Hlen : length (fst (color_scan C W nr nc (take k px))) = k).
  { rewrite color_scan_length, length_take. lia. }
  destruct (color_scan C W nr nc (take k px)) as [out [[d0 d1] d2]] eqn:Hscan.
  cbn [fst snd] in *.
  unfold color_pixel, color_scan_step, at_vec3b, set_vec3b, pixel_index.
  cbn [rows cols samples]. fold k.
  rewrite Hlen.
  replace (Z.of_nat k) with (y * nc + x) by (unfold k; nia).
  rewrite index_div, index_mod by lia.
  assert (Hnth : nth k (out ++ drop k px) (0, 0, 0) = v).
  { rewrite app_nth2 by lia. rewrite Hlen, Nat.sub_diag.
    rewrite (drop_S _ _ _ Hv). reflexivity. }
  rewrite Hnth. destruct v as [[v0 v1] v2].
  do 3 destruct (dither _ _).
  cbn [fst snd]. f_equal. f_equal. f_equal.
  rewrite (drop_S _ _ _ Hv).
  rewrite <- Hlen at 1.
  rewrite <- (Nat.add_0_r (length out)), insert_app_r. cbn.
  rewrite <- app_assoc. reflexivity.
Qed.

Lemma correct_pixels_color C W nr nc px :
  0 <= nr -> 0 <= nc -> length px = Z.to_nat (nr * nc) ->
  correct_pixels C W (mkMat nr nc (Bgr8 px))
  = mkMat nr nc (Bgr8 (fst (color_scan C W nr nc px))).
Proof.
  intros Hnr Hnc Hlen. unfold correct_pixels. cbn [channels samples rows cols].
  change (3 =? 1) with false. cbv iota.
  pose (P := fun (y : Z) (st : (F32.t * F32.t * F32.t) * Mat) =>
               st = color_state C W nr nc px (Z.to_nat (y * nc))).
  assert (Hend : P nr (for_range nr
            (fun y st => for_range nc (fun x st => color_pixel C W y x st) st)
            ((F32.zero, F32.zero, F32.zero), mkMat nr nc (Bgr8 px)))).
  { apply for_range_inv; [exact Hnr | reflexivity |].
    intros y st Hy ->.
    pose (Q := fun (x : Z) (st : (F32.t * F32.t * F32.t) * Mat) =>
                 st = color_state C W nr nc px (Z.to_nat (y * nc + x))).
    assert (Hrow : Q nc (for_range nc (fun x st => color_pixel C W y x st)
                           (color_state C W nr nc px (Z.to_nat (y * nc))))).
    { apply for_range_inv; [exact Hnc | |].
      - unfold Q. rewrite Z.add_0_r. reflexivity.
      - intros x st Hx ->. unfold Q.
        rewrite color_pixel_scan; [f_equal; lia | lia | lia | nia]. }
    unfold Q in Hrow. unfold P. rewrite Hrow. f_equal. f_equal. lia. }
  unfold P in Hend. rewrite Hend. unfold color_state. cbn [snd].
  rewrite <- Hlen, firstn_all, drop_all, app_nil_r. reflexivity.
Qed.

(** ** Saturation and the carried residual *)








(** ** Reading back what was written *)

Lemma nth_insert_eq {A} (l : list A) i v d :
  (i < length l)%nat -> nth i (<[i := v]> l) d = v.
Proof.
  intros H. rewrite nth_lookup, list_lookup_insert_eq by exact H. reflexivity.
Qed.

Lemma nth_insert_ne {A} (l : list A) i j v d :
  i <> j -> nth j (<[i := v]> l) d = nth j l d.
Proof.
  intros H. rewrite !nth_lookup, list_lookup_insert_ne by exact H. reflexivity.
Qed.

Lemma set_u8_raster nr nc m y x v :
  gray_raster nr nc m -> gray_raster nr nc (set_u8 m y x v).
Proof.
  intros (Hr & Hc & px & Hs & Hl). unfold set_u8. rewrite Hs.
  repeat split; cbn; auto. eexists. split; [reflexivity|].
  rewrite length_insert. exact Hl.
Qed.

Lemma at_set_u8_eq nr nc m y x v :
  gray_raster nr nc m -> 0 <= y < nr -> 0 <= x < nc ->
  at_u8 (set_u8 m y x v) y x = v.
Proof.
  intros (Hr & Hc & px & Hs & Hl) Hy Hx.
  unfold at_u8, set_u8, pixel_index. rewrite Hs. cbn [samples cols].
  apply nth_insert_eq. rewrite Hl, Hc. nia.
Qed.

Lemma at_set_u8_ne nr nc m y0 x0 y x v :
  gray_raster nr nc m ->
  0 <= y0 -> 0 <= x0 < nc -> 0 <= y -> 0 <= x < nc ->
  (y, x) <> (y0, x0) ->
  at_u8 (set_u8 m y0 x0 v) y x = at_u8 m y x.
Proof.
  intros (Hr & Hc & px & Hs & Hl) Hy0 Hx0 Hy Hx Hne.
  unfold at_u8, set_u8, pixel_index. rewrite Hs. cbn [samples cols].
  apply nth_insert_ne. rewrite Hc. intros Heq.
  apply Hne.
  assert (y0 * nc + x0 = y * nc + x) as E by nia.
  assert (y0 = y) by nia. subst y0. f_equal. lia.
Qed.

(** ** The ECC mask *)

Lemma in_rect_true r y x :
  in_rect r y x = true <->
  rx r <= x < rx r + rwidth r /\ ry r <= y < ry r + rheight r.
Proof. unfold in_rect. lia. Qed.

Lemma mask_of_rect_spec nr nc r mask :
  mask_of_rect nr nc r = Some mask ->
  rows mask = nr /\ cols mask = nc /\
  (0 <= rx r /\ 0 <= rwidth r /\ rx r + rwidth r <= nc /\
   0 <= ry r /\ 0 <= rheight r /\ ry r + rheight r <= nr) /\
  forall y x, 0 <= y < nr -> 0 <= x < nc ->
    at_u8 mask y x = if in_rect r y x then 255 else 0.
Proof.
  unfold mask_of_rect.
  destruct (rect_inside r _) eqn:Hin; [|discriminate].
  intros [= <-].
  unfold rect_inside in Hin. cbn [rows cols] in Hin.
  assert (Hfin : mask_upto nr nc r (rheight r) 0
            (for_range (rheight r)
               (fun dy m => for_range (rwidth r)
                  (fun dx m => set_u8 m (ry r + dy) (rx r + dx) 255) m)
               (mkMat nr nc (Gray8 (replicate (Z.to_nat (nr * nc)) 0))))).
  { apply (for_range_inv (fun dy m => mask_upto nr nc r dy 0 m)); [lia | |].
    - split.
      + repeat split; cbn; auto. eexists; split; [reflexivity|].
        apply length_replicate.
      + intros y x Hy Hx. split.
        * unfold filled. lia.
        * intros _. unfold at_u8, pixel_index. cbn [samples cols].
          rewrite nth_lookup.
          destruct (replicate _ _ !! _) eqn:E; [|reflexivity].
          apply lookup_replicate in E. cbn. tauto.
    - intros dy m Hdy Hm.
      assert (Hrow : mask_upto nr nc r dy (rwidth r)
                (for_range (rwidth r)
                   (fun dx m => set_u8 m (ry r + dy) (rx r + dx) 255) m)).
      { apply (for_range_inv (fun dx m => mask_upto nr nc r dy dx m));
          [lia | exact Hm |].
        intros dx m' Hdx [Hwf Hm']. split; [apply set_u8_raster; exact Hwf|].
        intros y x Hy Hx.
        destruct (decide ((y, x) = (ry r + dy, rx r + dx))) as [[= -> ->]|Hne].
        - rewrite (at_set_u8_eq nr nc) by (auto; lia).
          split; [reflexivity|]. intros Hn. exfalso. apply Hn. unfold filled. lia.
        - rewrite (at_set_u8_ne nr nc) by (auto; lia).
          destruct (Hm' y x Hy Hx) as [H1 H2]. split; intros Hf.
          + apply H1. unfold filled in *.
            assert (~ (y = ry r + dy /\ x = rx r + dx)) by (intros [-> ->]; auto).
            lia.
          + apply H2. unfold filled in *. lia. }
      destruct Hrow as [Hwf Hrow]. split; [exact Hwf|].
      intros y x Hy Hx. destruct (Hrow y x Hy Hx) as [H1 H2].
      split; intros Hf; [apply H1 | apply H2]; unfold filled in *; lia. }
  destruct Hfin as [(Hr & Hc & _) Hfin].
  split; [exact Hr|]. split; [exact Hc|]. split.
  { lia. }
  intros y x Hy Hx. destruct (Hfin y x Hy Hx) as [H1 H2].
  destruct (in_rect r y x) eqn:E.
  - apply H1. apply in_rect_true in E. unfold filled. lia.
  - apply H2. intros Hf. unfold filled in Hf.
    assert (in_rect r y x = true) by (apply in_rect_true; lia). congruence.
Qed.

(** ** Float matrices *)

Lemma FMat_zeros_shape r c : fshape r c (FMat_zeros r c).
Proof. repeat split. cbn. apply length_replicate. Qed.

Lemma fset_shape r c m i j v : fshape r c m -> fshape r c (fset m i j v).
Proof.
  intros (Hr & Hc & Hl). repeat split; cbn; auto.
  rewrite length_insert. exact Hl.
Qed.

Lemma fset1_shape r c m i v : fshape r c m -> fshape r c (fset1 m i v).
Proof.
  intros (Hr & Hc & Hl). repeat split; cbn; auto.
  rewrite length_insert. exact Hl.
Qed.

Lemma fat_fset r c m i j v i' j' :
  fshape r c m ->
  0 <= i < r -> 0 <= j < c -> 0 <= i' -> 0 <= j' < c ->
  fat (fset m i j v) i' j' = if (i =? i') && (j =? j') then v else fat m i' j'.
Proof.
  intros (Hr & Hc & Hl) Hi Hj Hi' Hj'.
  unfold fat, fset. cbn [fdata fcols]. rewrite Hc.
  destruct ((i =? i') && (j =? j')) eqn:E.
  - assert (i = i' /\ j = j') as [-> ->] by lia.
    apply nth_insert_eq. rewrite Hl. nia.
  - apply nth_insert_ne. intros Heq.
    assert (i * c + j = i' * c + j') as E' by nia.
    assert (i = i') by nia. subst i'. assert (j = j') by lia. subst j'.
    rewrite !Z.eqb_refl in E. discriminate.
Qed.

Lemma fat1_fset1 r m i v i' :
  fshape r 1 m -> 0 <= i < r -> 0 <= i' ->
  fat1 (fset1 m i v) i' = if i =? i' then v else fat1 m i'.
Proof.
  intros (Hr & Hc & Hl) Hi Hi'. unfold fat1, fset1. cbn [fdata].
  destruct (i =? i') eqn:E.
  - assert (i = i') as -> by lia. apply nth_insert_eq. rewrite Hl. lia.
  - apply nth_insert_ne. lia.
Qed.

(** On a column vector [at<float>(i, 0)] and [at<float>(i)] agree. *)
Lemma fat_column m i : fcols m = 1 -> fat m i 0 = fat1 m i.
Proof. intros H. unfold fat, fat1. rewrite H. f_equal. lia. Qed.

Lemma fset_column m i v : fcols m = 1 -> fset m i 0 v = fset1 m i v.
Proof. intros H. unfold fset, fset1. rewrite H. do 2 f_equal. lia. Qed.

(** ** The affine warp and its translation column *)

Lemma is_2x3_affine a : is_2x3 (FMat_of_affine a) = true.
Proof. reflexivity. Qed.

Lemma is_2x3_inv T :
  is_2x3 T = true ->
  exists a, T = FMat_of_affine a.
Proof.
  destruct T as [r c d]. unfold is_2x3. cbn [frows fcols fdata]. intros H.
  assert (r = 2 /\ c = 3 /\ length d = 6%nat) as (-> & -> & Hl).
  { repeat split; try lia.
    apply Nat.eqb_eq. destruct (Nat.eqb (length d) 6); [reflexivity|].
    rewrite andb_false_r in H. discriminate. }
  destruct d as [|t0 [|t1 [|t2 [|t3 [|t4 [|t5 [|]]]]]]]; try discriminate.
  exists (mkAffine t0 t1 t2 t3 t4 t5). reflexivity.
Qed.

Lemma scale_translation_affine a s :
  scale_translation (FMat_of_affine a) s
  = FMat_of_affine (mkAffine (a00 a) (a01 a) (a02 a * s)%f32
                             (a10 a) (a11 a) (a12 a * s)%f32).
Proof. reflexivity. Qed.

Lemma unscale_translation_affine a s :
  unscale_translation (FMat_of_affine a) s
  = FMat_of_affine (mkAffine (a00 a) (a01 a) (a02 a / s)%f32
                             (a10 a) (a11 a) (a12 a / s)%f32).
Proof. reflexivity. Qed.

Lemma scale_translation_is_2x3 T s :
  is_2x3 (scale_translation T s) = is_2x3 T.
Proof.
  unfold is_2x3, scale_translation, fset. cbn [frows fcols fdata].
  rewrite !length_insert. reflexivity.
Qed.

(** Scaling touches the translation column and nothing else. *)
Lemma scale_translation_entries T s :
  is_2x3 T = true ->
  fat (scale_translation T s) 0 2 = (fat T 0 2 * s)%f32 /\
  fat (scale_translation T s) 1 2 = (fat T 1 2 * s)%f32 /\
  fat (scale_translation T s) 0 0 = fat T 0 0 /\
  fat (scale_translation T s) 0 1 = fat T 0 1 /\
  fat (scale_translation T s) 1 0 = fat T 1 0 /\
  fat (scale_translation T s) 1 1 = fat T 1 1.
Proof.
  intros H. destruct (is_2x3_inv T H) as [a ->].
  rewrite scale_translation_affine. repeat split.
Qed.

Lemma unscale_translation_entries T s :
  is_2x3 T = true ->
  fat (unscale_translation T s) 0 2 = (fat T 0 2 / s)%f32 /\
  fat (unscale_translation T s) 1 2 = (fat T 1 2 / s)%f32 /\
  fat (unscale_translation T s) 0 0 = fat T 0 0 /\
  fat (unscale_translation T s) 0 1 = fat T 0 1 /\
  fat (unscale_translation T s) 1 0 = fat T 1 0 /\
  fat (unscale_translation T s) 1 1 = fat T 1 1.
Proof.
  intros H. destruct (is_2x3_inv T H) as [a ->].
  rewrite unscale_translation_affine. repeat split.
Qed.

(** ** The sampling loops *)

Lemma nested_range_inv {St : Type} (P : Z -> St -> Prop)
    (body : Z -> Z -> St -> St) nr nc s :
  0 <= nr -> 0 <= nc ->
  P 0 s ->
  (forall y x t, 0 <= y < nr -> 0 <= x < nc ->
     P (y * nc + x) t -> P (y * nc + x + 1) (body y x t)) ->
  P (nr * nc)
    (for_range nr (fun y st => for_range nc (fun x st => body y x st) st) s).
Proof.
  intros Hnr Hnc Hs Hstep.
  apply (for_range_inv (fun y st => P (y * nc) st)); [exact Hnr | exact Hs |].
  intros y t Hy Ht.
  replace ((y + 1) * nc) with (y * nc + nc) by lia.
  apply (for_range_inv (fun x st => P (y * nc + x) st)); [exact Hnc | |].
  - rewrite Z.add_0_r. exact Ht.
  - intros x t' Hx Ht'. rewrite Z.add_assoc. apply Hstep; assumption.
Qed.

Ltac fat_fset_rw r c :=
  repeat (rewrite (fat_fset r c)
            by first [lia | repeat apply fset_shape; assumption]).

Lemma contrast_sample_rows ref src :
  let '(contrast, positions) := contrast_system 64 64 ref src in
  fshape 4096 1 contrast /\ fshape 4096 5 positions /\
  forall y x, 0 <= y < 64 -> 0 <= x < 64 ->
    contrast_row ref src contrast positions y x.
Proof.
  pose (P := fun (k : Z) (st : FMat * FMat) =>
    fshape 4096 1 (fst st) /\ fshape 4096 5 (snd st) /\
    forall y x, 0 <= y -> 0 <= x < 64 -> y * 64 + x < k ->
      contrast_row ref src (fst st) (snd st) y x).
  assert (H : P (64 * 64)
    (for_range 64
      (fun y st => for_range 64 (fun x st => contrast_sample ref src 64 y x st) st)
      (FMat_zeros (64 * 64) 1, FMat_zeros (64 * 64) 5))).
  { apply nested_range_inv; [lia | lia | |].
    - split; [apply FMat_zeros_shape|]. split; [apply FMat_zeros_shape|].
      intros; lia.
    - intros y x [contrast positions] Hy Hx (Hc & Hp & IH). cbn [fst snd] in *.
      unfold contrast_sample. cbv beta iota zeta. cbn [fst snd].
      split; [apply fset1_shape; exact Hc|].
      split; [repeat apply fset_shape; exact Hp|].
      intros y' x' Hy' Hx' Hlt.
      unfold contrast_row. cbv zeta.
      cbn [fst snd].
      rewrite (fat1_fset1 4096) by (assumption || lia).
      fat_fset_rw 4096 5.
      destruct (Z.eq_dec (y' * 64 + x') (y * 64 + x)) as [Heq|Hne].
      + assert (y' = y) by lia. subst y'. assert (x' = x) by lia. subst x'.
        rewrite !Z.eqb_refl. cbn [andb Z.eqb Pos.eqb]. repeat split.
      + rewrite !(proj2 (Z.eqb_neq (y * 64 + x) (y' * 64 + x'))) by lia.
        cbn [andb]. apply IH; lia. }
  unfold contrast_system. cbv zeta.
  destruct (for_range 64 _ _) as [contrast positions].
  destruct H as (Hc & Hp & H). cbn [fst snd] in *.
  split; [exact Hc|]. split; [exact Hp|].
  intros y x Hy Hx. apply H; lia.
Qed.

Ltac decide_eqb :=
  repeat match goal with
         | |- context [Z.eqb ?a ?b] => destruct (Z.eqb_spec a b); try lia
         end.

Lemma whitebalance_sample_rows ref src :
  let '(targets, factors) := whitebalance_system 64 64 ref src in
  fshape 12288 1 targets /\ fshape 12288 6 factors /\
  forall y x, 0 <= y < 64 -> 0 <= x < 64 ->
    whitebalance_rows ref src targets factors y x.
Proof.
  pose (P := fun (k : Z) (st : FMat * FMat) =>
    fshape 12288 1 (fst st) /\ fshape 12288 6 (snd st) /\
    (forall y x, 0 <= y -> 0 <= x < 64 -> y * 64 + x < k ->
       whitebalance_rows ref src (fst st) (snd st) y x) /\
    (forall row col, k * 3 <= row -> 0 <= col < 6 ->
       fat (snd st) row col = F32.zero)).
  assert (H : P (64 * 64)
    (for_range 64
      (fun y st => for_range 64 (fun x st => whitebalance_sample ref src 64 y x st) st)
      (FMat_zeros (64 * 64 * 3) 1, FMat_zeros (64 * 64 * 3) 6))).
  { apply nested_range_inv; [lia | lia | |].
    - split; [apply FMat_zeros_shape|]. split; [apply FMat_zeros_shape|].
      split; [intros; lia|].
      intros row col Hrow Hcol. unfold fat, FMat_zeros. cbn [fdata fcols fst snd].
      rewrite nth_lookup.
      destruct (replicate _ _ !! _) eqn:E; [|reflexivity].
      apply lookup_replicate in E. cbn. tauto.
    - intros y x [targets factors] Hy Hx (Ht & Hf & IH & Hz). cbn [fst snd] in *.
      unfold whitebalance_sample. cbv beta iota zeta.
      destruct (at_vec3b src y x) as [[s0 s1] s2] eqn:Hsrc.
      destruct (at_vec3b ref y x) as [[r0 r1] r2] eqn:Href.
      cbn [fst snd].
      split; [repeat apply fset_shape; exact Ht|].
      split; [repeat apply fset_shape; exact Hf|].
      split.
      + intros y' x' Hy' Hx' Hlt. unfold whitebalance_rows.
        cbv zeta. cbn [fst snd]. intros ch Hch.
        destruct (Z.eq_dec (y' * 64 + x') (y * 64 + x)) as [Heq|Hne].
        * assert (y' = y) by lia. subst y'. assert (x' = x) by lia. subst x'.
          rewrite Hsrc, Href. split.
          -- fat_fset_rw 12288 1. unfold channel. decide_eqb; reflexivity.
          -- intros col Hcol. fat_fset_rw 12288 6.
             unfold whitebalance_entry, channel.
             decide_eqb; try reflexivity; apply Hz; lia.
        * destruct (IH y' x' Hy' Hx' ltac:(lia) ch Hch) as [IH1 IH2]. split.
          -- fat_fset_rw 12288 1. decide_eqb. cbn [andb]. exact IH1.
          -- intros col Hcol. fat_fset_rw 12288 6. decide_eqb.
             all: cbn [andb]; apply IH2; exact Hcol.
      + intros row col Hrow Hcol. cbn [fst snd]. fat_fset_rw 12288 6.
        decide_eqb. all: cbn [andb]; apply Hz; lia. }
  unfold whitebalance_system. cbv zeta.
  destruct (for_range 64 _ _) as [targets factors].
  destruct H as (Ht & Hf & H & _). cbn [fst snd] in *.
  split; [exact Ht|]. split; [exact Hf|].
  intros y x Hy Hx. apply H; lia.
Qed.

(** ** Normalised sample coordinates *)

Lemma coord_64_table :
  Forall (fun n => coord (Z.of_nat n) 64 = F32.dyadic (Z.of_nat n - 32) 6 /\
                   coord_normalised (coord (Z.of_nat n) 64) = true)
         (seq 0 64).
Proof.
  cbn [seq]. repeat (constructor; [split; vm_compute; reflexivity|]). constructor.
Qed.

Lemma coord_64 i :
  0 <= i < 64 ->
  coord i 64 = F32.dyadic (i - 32) 6 /\ coord_normalised (coord i 64) = true.
Proof.
  intros H. pose proof coord_64_table as T.
  rewrite Forall_forall in T.
  specialize (T (Z.to_nat i)). rewrite Z2Nat.id in T by lia.
  apply T. apply list_elem_of_In, in_seq. lia.
Qed.

(** ** Running the task monad *)

Lemma bind_Returned {A B} (m : M A) (k : A -> M B) w b w' :
  bind m k w = Returned b w' <->
  exists a w1, m w = Returned a w1 /\ k a w1 = Returned b w'.
Proof.
  unfold bind. split.
  - destruct (m w) as [a w1|w1]; [eauto | discriminate].
  - intros (a & w1 & -> & H). exact H.
Qed.

Lemma bind_Thrown {A B} (m : M A) (k : A -> M B) w w' :
  bind m k w = Thrown w' <->
  m w = Thrown w' \/ exists a w1, m w = Returned a w1 /\ k a w1 = Thrown w'.
Proof.
  unfold bind. split.
  - destruct (m w) as [a w1|w1]; [eauto | intros [= ->]; auto].
  - intros [-> | (a & w1 & -> & H)]; [reflexivity | exact H].
Qed.

Lemma deref_Returned {A} (p : option A) w a w' :
  deref p w = Returned a w' <-> p = Some a /\ w' = w.
Proof.
  destruct p as [x|]; unfold deref, ret, throw; split.
  - intros [= -> ->]; auto.
  - intros [[= ->] ->]; reflexivity.
  - discriminate.
  - intros [? _]; discriminate.
Qed.

Lemma try_cv_Returned {A} (p : option A) w a w' :
  try_cv p w = Returned a w' <-> p = Some a /\ w' = w.
Proof. exact (deref_Returned p w a w'). Qed.

(** Symbolic execution of a run that returned: splits binds, resolves the
    primitive actions, and branches on the conditionals met on the way. *)
Ltac run_inv H :=
  cbv beta in H;
  lazymatch type of H with
  | bind _ _ _ = Returned _ _ =>
      let a := fresh "a" in
      let w := fresh "w" in
      let H1 := fresh "R" in
      let H2 := fresh "R" in
      apply bind_Returned in H; destruct H as (a & w & H1 & H2);
      run_inv H1; run_inv H2
  | deref _ _ = Returned _ _ =>
      apply deref_Returned in H; destruct H as [H ->]
  | try_cv _ _ = Returned _ _ =>
      apply try_cv_Returned in H; destruct H as [H ->]
  | emit _ _ = Returned _ _ => unfold emit in H; injection H; intros; subst; clear H
  | this _ = Returned _ _ => unfold this in H; injection H; intros; subst; clear H
  | modify _ _ = Returned _ _ => unfold modify in H; injection H; intros; subst; clear H
  | ret _ _ = Returned _ _ => unfold ret in H; injection H; intros; subst; clear H
  | throw _ = Returned _ _ => discriminate H
  | cv_resize _ _ _ _ _ = Returned _ _ => unfold cv_resize in H; run_inv H
  | cv_warpAffine _ _ _ _ _ _ _ = Returned _ _ => unfold cv_warpAffine in H; run_inv H
  | cv_findTransformECC _ _ _ _ _ _ _ _ = Returned _ _ =>
      unfold cv_findTransformECC in H; run_inv H
  | cv_solve _ _ _ _ _ = Returned _ _ => unfold cv_solve in H; run_inv H
  | apply_transform _ _ _ _ = Returned _ _ => unfold apply_transform in H; run_inv H
  | apply_contrast_whitebalance _ _ = Returned _ _ =>
      unfold apply_contrast_whitebalance in H; run_inv H
  | (if ?b then _ else _) _ = Returned _ _ =>
      let E := fresh "E" in destruct b eqn:E; run_inv H
  | (let '(_, _) := ?p in _) _ = Returned _ _ =>
      let E := fresh "E" in destruct p eqn:E; run_inv H
  | match ?o with Some _ => _ | None => _ end _ = Returned _ _ =>
      let E := fresh "E" in destruct o eqn:E; run_inv H
  | _ => idtac
  end.

Section Properties.

Variables ALIGN_FULL_RESOLUTION ALIGN_NO_WHITEBALANCE ALIGN_NO_CONTRAST : Z.
Variable resize_impl : Mat -> ResizeSpec -> Z -> option Mat.
Variable warpAffine_impl : Mat -> FMat -> Z * Z -> Z -> Z -> option Mat.
Variable findTransformECC_impl :
  Mat -> Mat -> FMat -> Z -> TermCriteria -> Mat -> option Affine.
Variable solve_impl : FMat -> FMat -> Z -> option FMat.

Local Abbreviation match_transform_ := (match_transform resize_impl findTransformECC_impl).
Local Abbreviation cv_resize_ := (cv_resize resize_impl).
Local Abbreviation pass_inputs_ := (pass_inputs resize_impl).
Local Abbreviation final_cap_ := (final_cap ALIGN_FULL_RESOLUTION).
Local Abbreviation contrast_enabled_ := (contrast_enabled ALIGN_NO_CONTRAST).
Local Abbreviation whitebalance_enabled_ := (whitebalance_enabled ALIGN_NO_WHITEBALANCE).

Lemma cv_resize_Returned src spec interp w out w' :
  cv_resize_ src spec interp w = Returned out w' ->
  exists raw, resize_impl src spec interp = Some raw /\
    out = match spec with
          | ToSize wd ht => mkMat ht wd (samples raw)
          | ByFactor _ _ => raw
          end /\
    w' = mkWorld (self w) (calls w ++ [CvResize src spec interp]).
Proof.
  intros H. unfold cv_resize in H. run_inv H. eauto.
Qed.

Lemma match_transform_Returned cap rough w w' :
  match_transform_ cap rough w = Returned tt w' ->
  exists refgray srcgray ratio ref src evs mask a,
    m_refgray (self w) = Some refgray /\
    m_srcgray (self w) = Some srcgray /\
    pass_inputs_ (img refgray) (img srcgray) cap ratio ref src evs /\
    mask_of_rect (rows ref) (cols ref) (scale_rect (m_roi (self w)) ratio)
      = Some mask /\
    let T := scale_translation (m_transformation (self w)) ratio in
    let src' := correct_pixels (m_contrast (self w)) (m_whitebalance (self w)) src in
    is_2x3 T = true /\
    findTransformECC_impl ref src' T cv.MOTION_AFFINE (pass_criteria rough) mask
      = Some a /\
    calls w' = calls w ++ Enter (M_match_transform cap rough) :: evs
                 ++ [Enter M_apply_contrast_whitebalance;
                     CvFindTransformECC ref src' T cv.MOTION_AFFINE
                       (pass_criteria rough) mask] /\
    self w' = set_transformation (self w)
                (unscale_translation (FMat_of_affine a) ratio).
Proof.
  intros H. unfold match_transform in H. run_inv H; cbn [self calls] in *;
    do 8 eexists; (split; [eassumption|]); (split; [eassumption|]).
  - split; [apply pass_full; lia|]. split; [eassumption|].
    cbv zeta. split; [eassumption|]. split; [eassumption|].
    split; [rewrite <- !app_assoc; reflexivity | reflexivity].
  - split; [eapply pass_reduced; try eassumption; [lia | reflexivity] |].
    split; [eassumption|].
    cbv zeta. split; [eassumption|]. split; [eassumption|].
    split; [rewrite <- !app_assoc; reflexivity | reflexivity].
Qed.


Local Abbreviation apply_transform_ := (apply_transform warpAffine_impl).
Local Abbreviation match_contrast_ :=
  (match_contrast resize_impl warpAffine_impl solve_impl).
Local Abbreviation match_whitebalance_ :=
  (match_whitebalance resize_impl warpAffine_impl solve_impl).
Local Abbreviation register_ :=
  (register ALIGN_FULL_RESOLUTION ALIGN_NO_WHITEBALANCE ALIGN_NO_CONTRAST
     resize_impl warpAffine_impl findTransformECC_impl solve_impl).
Local Abbreviation task_ :=
  (task ALIGN_FULL_RESOLUTION ALIGN_NO_WHITEBALANCE ALIGN_NO_CONTRAST
     resize_impl warpAffine_impl findTransformECC_impl solve_impl).

Lemma apply_transform_Returned src inverse w out w' :
  apply_transform_ src inverse w = Returned out w' ->
  exists raw,
    warpAffine_impl src (m_transformation (self w)) (cols src, rows src)
      (warp_flags inverse) cv.BORDER_REFLECT = Some raw /\
    out = mkMat (rows src) (cols src) (samples raw) /\
    w' = mkWorld (self w)
           (calls w ++ [Enter (M_apply_transform inverse);
                        CvWarpAffine src (m_transformation (self w))
                          (cols src, rows src) (warp_flags inverse)
                          cv.BORDER_REFLECT]).
Proof.
  intros H. run_inv H. cbn [self calls] in *.
  eexists. split; [eassumption|]. split; [reflexivity|].
  rewrite <- !app_assoc. reflexivity.
Qed.

Lemma when_Returned b m w a w' :
  when b m w = Returned a w' ->
  (b = true /\ m w = Returned a w') \/ (b = false /\ w' = w).
Proof.
  destruct b; cbn; [auto|]. unfold ret. intros [= <- <-]. auto.
Qed.

Lemma match_contrast_Returned w w' :
  match_contrast_ w = Returned tt w' ->
  exists refgray srcgray raw_warp ref_roi raw_ref src_roi raw_src sol,
    let T := m_transformation (self w) in
    let roi := m_roi (self w) in
    let warped := mkMat (rows (img srcgray)) (cols (img srcgray)) (samples raw_warp) in
    let ref := mkMat 64 64 (samples raw_ref) in
    let src := mkMat 64 64 (samples raw_src) in
    let sys := contrast_system 64 64 ref src in
    m_refgray (self w) = Some refgray /\
    m_srcgray (self w) = Some srcgray /\
    warpAffine_impl (img srcgray) T (cols (img srcgray), rows (img srcgray))
      (warp_flags false) cv.BORDER_REFLECT = Some raw_warp /\
    Mat_roi (img refgray) roi = Some ref_roi /\
    resize_impl ref_roi (ToSize 64 64) cv.INTER_AREA = Some raw_ref /\
    Mat_roi warped roi = Some src_roi /\
    resize_impl src_roi (ToSize 64 64) cv.INTER_AREA = Some raw_src /\
    solve_impl (snd sys) (fst sys) cv.DECOMP_SVD = Some sol /\
    calls w' = calls w ++
      [Enter M_match_contrast;
       Enter (M_apply_transform false);
       CvWarpAffine (img srcgray) T (cols (img srcgray), rows (img srcgray))
         (warp_flags false) cv.BORDER_REFLECT;
       CvResize ref_roi (ToSize 64 64) cv.INTER_AREA;
       CvResize src_roi (ToSize 64 64) cv.INTER_AREA;
       CvSolve (snd sys) (fst sys) cv.DECOMP_SVD] /\
    self w' = set_contrast (self w) sol.
Proof.
  intros H. unfold match_contrast in H. cbv zeta in H.
  run_inv H. cbn [self calls] in *.
  do 8 eexists. cbv zeta.
  repeat (split; [eassumption|]).
  match goal with E : contrast_system _ _ _ _ = _ |- _ => rewrite E end.
  cbn [fst snd]. split; [eassumption|].
  split; [rewrite <- !app_assoc; reflexivity | reflexivity].
Qed.

Lemma match_whitebalance_Returned w w' :
  match_whitebalance_ w = Returned tt w' ->
  exists refcolor srccolor raw_warp ref_roi raw_ref src_roi raw_src sol,
    let T := m_transformation (self w) in
    let roi := m_roi (self w) in
    let warped := mkMat (rows (img srccolor)) (cols (img srccolor)) (samples raw_warp) in
    let corrected :=
      correct_pixels (m_contrast (self w)) (m_whitebalance (self w)) warped in
    let ref := mkMat 64 64 (samples raw_ref) in
    let src := mkMat 64 64 (samples raw_src) in
    let sys := whitebalance_system 64 64 ref src in
    m_refcolor (self w) = Some refcolor /\
    m_srccolor (self w) = Some srccolor /\
    warpAffine_impl (img srccolor) T (cols (img srccolor), rows (img srccolor))
      (warp_flags false) cv.BORDER_REFLECT = Some raw_warp /\
    Mat_roi (img refcolor) roi = Some ref_roi /\
    resize_impl ref_roi (ToSize 64 64) cv.INTER_AREA = Some raw_ref /\
    Mat_roi corrected roi = Some src_roi /\
    resize_impl src_roi (ToSize 64 64) cv.INTER_AREA = Some raw_src /\
    solve_impl (snd sys) (fst sys) cv.DECOMP_SVD = Some sol /\
    calls w' = calls w ++
      [Enter M_match_whitebalance;
       Enter (M_apply_transform false);
       CvWarpAffine (img srccolor) T (cols (img srccolor), rows (img srccolor))
         (warp_flags false) cv.BORDER_REFLECT;
       Enter M_apply_contrast_whitebalance;
       CvResize ref_roi (ToSize 64 64) cv.INTER_AREA;
       CvResize src_roi (ToSize 64 64) cv.INTER_AREA;
       CvSolve (snd sys) (fst sys) cv.DECOMP_SVD] /\
    self w' = set_whitebalance (self w) sol.
Proof.
  intros H. unfold match_whitebalance in H. cbv zeta in H.
  run_inv H. cbn [self calls] in *.
  do 8 eexists. cbv zeta.
  repeat (split; [eassumption|]).
  match goal with E : whitebalance_system _ _ _ _ = _ |- _ => rewrite E end.
  cbn [fst snd]. split; [eassumption|].
  split; [rewrite <- !app_assoc; reflexivity | reflexivity].
Qed.

Ltac same_deref :=
  repeat match goal with
         | a : unit |- _ => destruct a
         | H1 : ?x = Some ?a, H2 : ?x = Some ?b |- _ =>
             rewrite H1 in H2; injection H2 as <-
         end.

Ltac resolve_branches :=
  repeat match goal with
         | E : ?x = _ |- context [match ?x with _ => _ end] => rewrite E
         end.

Lemma register_Returned w w' :
  register_ w = Returned tt w' ->
  exists roi srccolor w1 w2 w3 w4 raw,
    let t := self w in
    let out := mkMat (rows (img srccolor)) (cols (img srccolor)) (samples raw) in
    let photometric := contrast_enabled_ t || whitebalance_enabled_ t in
    roi_for t = Some roi /\
    m_srccolor t = Some srccolor /\
    match_transform_ 256 true (mkWorld (set_roi (seeded t) roi) (calls w))
      = Returned tt w1 /\
    when (contrast_enabled_ t) match_contrast_ w1 = Returned tt w2 /\
    when (whitebalance_enabled_ t) match_whitebalance_ w2 = Returned tt w3 /\
    match_transform_ (final_cap_ t srccolor) false w3 = Returned tt w4 /\
    warpAffine_impl (img srccolor) (m_transformation (self w4))
      (cols (img srccolor), rows (img srccolor))
      (warp_flags false) cv.BORDER_REFLECT = Some raw /\
    self w' = set_result (self w4)
                (if photometric
                 then correct_pixels (m_contrast (self w4))
                        (m_whitebalance (self w4)) out
                 else out) /\
    calls w' = calls w4 ++
      [Enter (M_apply_transform false);
       CvWarpAffine (img srccolor) (m_transformation (self w4))
         (cols (img srccolor), rows (img srccolor))
         (warp_flags false) cv.BORDER_REFLECT]
      ++ (if photometric then [Enter M_apply_contrast_whitebalance] else []).
Proof.
  intros H. unfold register in H. run_inv H.
  all: cbn [self calls] in *; same_deref.
  all: match goal with
       | H : when _ (bind _ _) _ = Returned _ _ |- _ =>
           apply when_Returned in H; destruct H as [[Eph H]|[Eph ->]];
           [run_inv H|]
       end.
  all: cbn [self calls] in *.
  all: do 7 eexists; cbv zeta;
       unfold roi_for, seeded, final_cap, contrast_enabled, whitebalance_enabled;
       resolve_branches.
  all: split; [reflexivity|].
  all: split; [first [eassumption | reflexivity]|].
  all: split; [eassumption|].
  all: split; [eassumption|].
  all: split; [eassumption|].
  all: split; [eassumption|].
  all: split; [eassumption|].
  all: split; [reflexivity|].
  all: cbn [self calls]; rewrite <- ?app_assoc; reflexivity.
Qed.

Local Abbreviation geometric_pass_ := (geometric_pass resize_impl).

(** A returned [match_transform] is a geometric pass, its solver call
    succeeded, and it leaves its result in [m_transformation] only. *)
Lemma match_transform_pass cap rough w w' :
  match_transform_ cap rough w = Returned tt w' ->
  exists p,
    geometric_pass_ (self w) cap p /\
    findTransformECC_impl (p_ref p) (pass_input (self w) p) (pass_warp (self w) p)
      cv.MOTION_AFFINE (pass_criteria rough) (p_mask p) = Some (p_answer p) /\
    calls w' = calls w ++ pass_events (self w) cap rough p /\
    self w' = set_transformation (self w) (pass_result p).
Proof.
  intros H. apply match_transform_Returned in H.
  destruct H as (refgray & srcgray & ratio & ref & src & evs & mask & a
                 & Hr & Hs & Hin & Hmask & H2x3 & Hecc & Hcalls & Hself).
  exists (mkPass ratio ref src evs mask a).
  apply mask_of_rect_spec in Hmask.
  destruct Hmask as (Hmr & Hmc & _ & Hmpx).
  rewrite scale_translation_is_2x3 in H2x3.
  pose proof (scale_translation_entries _ ratio H2x3) as (E1 & E2 & E3 & E4 & E5 & E6).
  split; [|split; [exact Hecc | split; [exact Hcalls | exact Hself]]].
  exists refgray, srcgray. unfold pass_warp, pass_result. cbn [p_ratio p_ref p_src
    p_resizes p_mask p_answer].
  rewrite unscale_translation_affine.
  repeat split; auto.
Qed.

Local Abbreviation contrast_fit_ := (contrast_fit resize_impl warpAffine_impl solve_impl).
Local Abbreviation whitebalance_fit_ :=
  (whitebalance_fit resize_impl warpAffine_impl solve_impl).

(** A returned [match_contrast] is a contrast fit and leaves its result in
    [m_contrast] only. *)
Lemma match_contrast_fit w w' :
  match_contrast_ w = Returned tt w' ->
  exists f srcgray,
    m_srcgray (self w) = Some srcgray /\
    contrast_fit_ (self w) f /\
    calls w' = calls w
      ++ fit_events (self w) M_match_contrast false (img srcgray) f /\
    self w' = set_contrast (self w) (f_solution f).
Proof.
  intros H. apply match_contrast_Returned in H.
  destruct H as (refgray & srcgray & raw_warp & ref_roi & raw_ref & src_roi
                 & raw_src & sol & H). cbv zeta in H.
  destruct H as (Hr & Hs & Hw & Hrr & Hrs & Hsr & Hss & Hsol & Hcalls & Hself).
  pose proof (contrast_sample_rows (mkMat 64 64 (samples raw_ref))
                (mkMat 64 64 (samples raw_src))) as Hrows.
  destruct (contrast_system 64 64 _ _) as [contrast positions] eqn:Esys.
  cbn [fst snd] in *. destruct Hrows as (Hc & Hp & Hrows).
  exists (mkFit (mkMat (rows (img srcgray)) (cols (img srcgray)) (samples raw_warp))
            ref_roi src_roi (mkMat 64 64 (samples raw_ref))
            (mkMat 64 64 (samples raw_src)) contrast positions sol), srcgray.
  split; [exact Hs|]. split; [|split; [exact Hcalls | exact Hself]].
  exists refgray, srcgray. cbn [f_moved f_ref_roi f_src_roi f_ref f_src f_rhs
    f_matrix f_solution].
  split; [exact Hr|]. split; [exact Hs|].
  split; [exists raw_warp; auto|].
  split; [unfold resampled; cbn; eauto 10|].
  split; [exact Hc|]. split; [exact Hp|]. split; [|exact Hsol].
  intros y x Hy Hx. cbn [rows cols].
  destruct (coord_64 x Hx) as [? ?], (coord_64 y Hy) as [? ?].
  split; [apply Hrows; assumption|]. auto.
Qed.

(** A returned [match_whitebalance] is a white-balance fit and leaves its
    result in [m_whitebalance] only. *)
Lemma match_whitebalance_fit w w' :
  match_whitebalance_ w = Returned tt w' ->
  exists f srccolor,
    m_srccolor (self w) = Some srccolor /\
    whitebalance_fit_ (self w) f /\
    calls w' = calls w
      ++ fit_events (self w) M_match_whitebalance true (img srccolor) f /\
    self w' = set_whitebalance (self w) (f_solution f).
Proof.
  intros H. apply match_whitebalance_Returned in H.
  destruct H as (refcolor & srccolor & raw_warp & ref_roi & raw_ref & src_roi
                 & raw_src & sol & H). cbv zeta in H.
  destruct H as (Hr & Hs & Hw & Hrr & Hrs & Hsr & Hss & Hsol & Hcalls & Hself).
  pose proof (whitebalance_sample_rows (mkMat 64 64 (samples raw_ref))
                (mkMat 64 64 (samples raw_src))) as Hrows.
  destruct (whitebalance_system 64 64 _ _) as [targets factors] eqn:Esys.
  cbn [fst snd] in *. destruct Hrows as (Hc & Hp & Hrows).
  exists (mkFit (correct_pixels (m_contrast (self w)) (m_whitebalance (self w))
                   (mkMat (rows (img srccolor)) (cols (img srccolor))
                      (samples raw_warp)))
            ref_roi src_roi (mkMat 64 64 (samples raw_ref))
            (mkMat 64 64 (samples raw_src)) targets factors sol), srccolor.
  split; [exact Hs|]. split; [|split; [exact Hcalls | exact Hself]].
  exists refcolor, srccolor,
    (mkMat (rows (img srccolor)) (cols (img srccolor)) (samples raw_warp)).
  cbn [f_moved f_ref_roi f_src_roi f_ref f_src f_rhs f_matrix f_solution].
  split; [exact Hr|]. split; [exact Hs|].
  split; [exists raw_warp; auto|]. split; [reflexivity|].
  split; [unfold resampled; cbn; eauto 10|].
  split; [exact Hc|]. split; [exact Hp|]. split; [exact Hrows | exact Hsol].
Qed.

Lemma when_fit (enabled : bool) (m : M unit) w w' (ok : World -> Fit -> Prop) :
  when enabled m w = Returned tt w' ->
  (m w = Returned tt w' -> exists f, ok w' f) ->
  (enabled = false /\ w' = w) \/ (enabled = true /\ exists f, ok w' f).
Proof.
  intros H Hm. apply when_Returned in H. destruct H as [[-> H]|[-> ->]]; auto.
Qed.

(** The registering branch, when it returns, is a registration: a rough
    pass, the enabled fits, a final pass, the production of the output;
    and these are all the calls it makes. *)
Lemma register_trace w w' :
  register_ w = Returned tt w' ->
  exists r srcgray srccolor,
    let t := self w in
    m_srcgray t = Some srcgray /\
    m_srccolor t = Some srccolor /\
    roi_for t = Some (r_roi r) /\
    geometric_pass_ (at_rough t r) 256 (r_rough r) /\
    solved findTransformECC_impl (at_rough t r) true (r_rough r) /\
    optional_fit (contrast_enabled_ t) (contrast_fit_ (at_contrast t r))
      (r_contrast r) /\
    optional_fit (whitebalance_enabled_ t) (whitebalance_fit_ (at_whitebalance t r))
      (r_whitebalance r) /\
    geometric_pass_ (at_final t r) (final_cap_ t srccolor) (r_final r) /\
    solved findTransformECC_impl (at_final t r) false (r_final r) /\
    moved warpAffine_impl (at_output t r) (img srccolor) (r_warped r) /\
    calls w' = calls w
      ++ registration_events t (img srcgray) (img srccolor)
           (final_cap_ t srccolor) r /\
    self w' = set_result (at_output t r) (output t r).
Proof.
  intros H. apply register_Returned in H.
  destruct H as (roi & srccolor & w1 & w2 & w3 & w4 & raw & H). cbv zeta in H.
  destruct H as (Hroi & Hsc & H1 & H2 & H3 & H4 & Hwarp & Hself & Hcalls).
  apply match_transform_pass in H1.
  destruct H1 as (p1 & Hp1 & Hs1 & Hc1 & Ht1). cbn [self calls] in *.
  apply match_transform_pass in H4.
  destruct H4 as (p2 & Hp2 & Hs2 & Hc2 & Ht2).
  assert (Hsg : exists srcgray, m_srcgray (self w) = Some srcgray).
  { destruct Hp1 as (rg & sg & _ & Hsg & _). exists sg.
    revert Hsg. unfold seeded. destruct (m_initial_guess (self w)); exact id. }
  destruct Hsg as [srcgray Hsg].
  (* the two optional fits *)
  apply when_Returned in H2. apply when_Returned in H3.
  set (out := mkMat (rows (img srccolor)) (cols (img srccolor)) (samples raw)) in *.
  assert (Hsg1 : m_srcgray (self w1) = Some srcgray).
  { rewrite Ht1. revert Hsg. unfold seeded.
    destruct (m_initial_guess (self w)); exact id. }
  assert (Hsc1 : m_srccolor (self w1) = Some srccolor).
  { rewrite Ht1. revert Hsc. unfold seeded.
    destruct (m_initial_guess (self w)); exact id. }
  destruct H2 as [[Ec H2]|[Ec ->]]; [apply match_contrast_fit in H2;
    destruct H2 as (fc & sg' & Hsg' & Hfc & Hcc & Htc);
    rewrite Hsg1 in Hsg'; injection Hsg' as <- |];
  (destruct H3 as [[Ew H3]|[Ew ->]]; [apply match_whitebalance_fit in H3;
    destruct H3 as (fw & sc' & Hsc' & Hfw & Hcw & Htw);
    (rewrite ?Htc in Hsc'; cbn in Hsc'; rewrite Hsc1 in Hsc'; injection Hsc' as <-) |]).
  - exists (mkRegistration roi p1 (Some fc) (Some fw) p2 out), srcgray, srccolor.
    cbv zeta.
    unfold registration_events, output, photometric, optional_events,
      optional_fit, solved, at_output, at_final, at_whitebalance, at_contrast,
      at_rough.
    cbn [r_roi r_rough r_contrast r_whitebalance r_final r_warped].
    rewrite Ec, Ew in Hself, Hcalls. cbn [orb] in Hself, Hcalls.
    rewrite <- Ht1, <- Htc, <- Htw, <- Ht2.
    repeat (split; [solve [auto | eexists; eauto]|]).
    split; [|exact Hself].
    rewrite Hcalls, Hc2, Hcw, Hcc, Hc1. rewrite <- !app_assoc. reflexivity.
  - exists (mkRegistration roi p1 (Some fc) None p2 out), srcgray, srccolor.
    cbv zeta.
    unfold registration_events, output, photometric, optional_events,
      optional_fit, solved, at_output, at_final, at_whitebalance, at_contrast,
      at_rough.
    cbn [r_roi r_rough r_contrast r_whitebalance r_final r_warped].
    rewrite Ec, Ew in Hself, Hcalls. cbn [orb] in Hself, Hcalls.
    rewrite <- Ht1, <- Htc, <- Ht2.
    repeat (split; [solve [auto | eexists; eauto]|]).
    split; [|exact Hself].
    rewrite Hcalls, Hc2, Hcc, Hc1. rewrite <- !app_assoc. reflexivity.
  - exists (mkRegistration roi p1 None (Some fw) p2 out), srcgray, srccolor.
    cbv zeta.
    unfold registration_events, output, photometric, optional_events,
      optional_fit, solved, at_output, at_final, at_whitebalance, at_contrast,
      at_rough.
    cbn [r_roi r_rough r_contrast r_whitebalance r_final r_warped].
    rewrite Ec, Ew in Hself, Hcalls. cbn [orb] in Hself, Hcalls.
    rewrite <- Ht1, <- Htw, <- Ht2.
    repeat (split; [solve [auto | eexists; eauto]|]).
    split; [|exact Hself].
    rewrite Hcalls, Hc2, Hcw, Hc1. rewrite <- !app_assoc. reflexivity.
  - exists (mkRegistration roi p1 None None p2 out), srcgray, srccolor.
    cbv zeta.
    unfold registration_events, output, photometric, optional_events,
      optional_fit, solved, at_output, at_final, at_whitebalance, at_contrast,
      at_rough.
    cbn [r_roi r_rough r_contrast r_whitebalance r_final r_warped].
    rewrite Ec, Ew in Hself, Hcalls. cbn [orb] in Hself, Hcalls.
    rewrite <- Ht1, <- Ht2.
    repeat (split; [solve [auto | eexists; eauto]|]).
    split; [|exact Hself].
    rewrite Hcalls, Hc2, Hc1. rewrite <- !app_assoc, ?app_nil_r. reflexivity.
Qed.

(** ** The stages of a registration *)

Lemma seeded_fields t :
  m_refgray (seeded t) = m_refgray t /\ m_refcolor (seeded t) = m_refcolor t /\
  m_srcgray (seeded t) = m_srcgray t /\ m_srccolor (seeded t) = m_srccolor t /\
  m_contrast (seeded t) = m_contrast t /\
  m_whitebalance (seeded t) = m_whitebalance t /\
  m_result (seeded t) = m_result t.
Proof. unfold seeded. destruct (m_initial_guess t); repeat split. Qed.

Lemma seeded_transformation t :
  m_transformation (seeded t)
  = match m_initial_guess t with
    | Some g => nb_transformation g
    | None => m_transformation t
    end.
Proof. unfold seeded. destruct (m_initial_guess t); reflexivity. Qed.

Lemma stage_roi t r : roi_throughout t r (r_roi r).
Proof.
  unfold roi_throughout, at_output, at_final, at_whitebalance, at_contrast, at_rough.
  destruct (r_contrast r), (r_whitebalance r); repeat split.
Qed.

Lemma stage_transformation t r :
  m_transformation (at_contrast t r) = pass_result (r_rough r) /\
  m_transformation (at_whitebalance t r) = pass_result (r_rough r) /\
  m_transformation (at_final t r) = pass_result (r_rough r) /\
  m_transformation (at_output t r) = pass_result (r_final r).
Proof.
  unfold at_output, at_final, at_whitebalance, at_contrast.
  destruct (r_contrast r), (r_whitebalance r); repeat split.
Qed.

Lemma stage_contrast t r :
  m_contrast (at_rough t r) = m_contrast t /\
  m_contrast (at_contrast t r) = m_contrast t /\
  m_contrast (at_whitebalance t r)
    = match r_contrast r with Some f => f_solution f | None => m_contrast t end /\
  m_contrast (at_final t r) = m_contrast (at_whitebalance t r) /\
  m_contrast (at_output t r) = m_contrast (at_whitebalance t r).
Proof.
  destruct (seeded_fields t) as (_ & _ & _ & _ & Hc & _).
  unfold at_output, at_final, at_whitebalance, at_contrast, at_rough.
  destruct (r_contrast r), (r_whitebalance r); cbn; rewrite ?Hc; repeat split.
Qed.

Lemma stage_whitebalance t r :
  m_whitebalance (at_rough t r) = m_whitebalance t /\
  m_whitebalance (at_contrast t r) = m_whitebalance t /\
  m_whitebalance (at_whitebalance t r) = m_whitebalance t /\
  m_whitebalance (at_final t r)
    = match r_whitebalance r with
      | Some f => f_solution f
      | None => m_whitebalance t
      end /\
  m_whitebalance (at_output t r) = m_whitebalance (at_final t r).
Proof.
  destruct (seeded_fields t) as (_ & _ & _ & _ & _ & Hw & _).
  unfold at_output, at_final, at_whitebalance, at_contrast, at_rough.
  destruct (r_contrast r), (r_whitebalance r); cbn; rewrite ?Hw; repeat split.
Qed.

(** ** [Task_Align::task] as a whole *)

Lemma task_Returned w w' :
  task_ w = Returned tt w' ->
  (shared_ptr_eqb (m_refcolor (self w)) (m_srccolor (self w)) = true /\
   exists srccolor,
     m_srccolor (self w) = Some srccolor /\
     w' = mkWorld (reset_dependencies (set_result (self w) (img srccolor)))
            (calls w))
  \/
  (shared_ptr_eqb (m_refcolor (self w)) (m_srccolor (self w)) = false /\
   exists w1,
     register_ w = Returned tt w1 /\
     w' = mkWorld (reset_dependencies (self w1)) (calls w1)).
Proof.
  intros H. unfold task in H.
  apply bind_Returned in H. destruct H as (t & w0 & H0 & H).
  unfold this in H0. injection H0 as <- <-.
  apply bind_Returned in H. destruct H as ([] & w1 & H1 & H).
  unfold modify in H. injection H as <-.
  destruct (shared_ptr_eqb _ _) eqn:E.
  - left. split; [reflexivity|]. run_inv H1. eauto.
  - right. split; [reflexivity|]. eauto.
Qed.

(** On the same image the run always returns. *)
Lemma task_same w srccolor :
  shared_ptr_eqb (m_refcolor (self w)) (m_srccolor (self w)) = true ->
  m_srccolor (self w) = Some srccolor ->
  task_ w = Returned tt
              (mkWorld (reset_dependencies (set_result (self w) (img srccolor)))
                 (calls w)).
Proof.
  intros E Hs. unfold task, bind, this. rewrite E, Hs. reflexivity.
Qed.

Lemma filter_ecc_resizes R S cap ratio ref src evs :
  pass_inputs_ R S cap ratio ref src evs -> List.filter is_ecc_call evs = [].
Proof. intros []; reflexivity. Qed.

Lemma filter_ecc_pass t cap rough p :
  geometric_pass_ t cap p ->
  List.filter is_ecc_call (pass_events t cap rough p) = [ecc_event t rough p].
Proof.
  intros (rg & sg & _ & _ & Hin & _). unfold pass_events.
  cbn [List.filter is_ecc_call]. rewrite List.filter_app.
  rewrite (filter_ecc_resizes _ _ _ _ _ _ _ Hin). reflexivity.
Qed.

Lemma filter_ecc_fit t entry corrected source f :
  List.filter is_ecc_call (fit_events t entry corrected source f) = [].
Proof. unfold fit_events. destruct corrected; reflexivity. Qed.

Lemma filter_ecc_registration t gray color cap r :
  geometric_pass_ (at_rough t r) 256 (r_rough r) ->
  geometric_pass_ (at_final t r) cap (r_final r) ->
  List.filter is_ecc_call (registration_events t gray color cap r)
  = [ecc_event (at_rough t r) true (r_rough r);
     ecc_event (at_final t r) false (r_final r)].
Proof.
  intros H1 H2. unfold registration_events.
  rewrite !List.filter_app.
  rewrite (filter_ecc_pass _ _ _ _ H1), (filter_ecc_pass _ _ _ _ H2).
  assert (Hopt : forall o ev, (forall f, List.filter is_ecc_call (ev f) = []) ->
            List.filter is_ecc_call (optional_events o ev) = []).
  { intros [f|] ev Hev; [apply Hev | reflexivity]. }
  rewrite !Hopt by (intros; apply filter_ecc_fit).
  destruct (photometric r); reflexivity.
Qed.

Lemma stage_inputs t r :
  let same t' :=
    m_refgray t' = m_refgray t /\ m_srcgray t' = m_srcgray t /\
    m_refcolor t' = m_refcolor t /\ m_srccolor t' = m_srccolor t in
  same (at_rough t r) /\ same (at_contrast t r) /\ same (at_whitebalance t r) /\
  same (at_final t r) /\ same (at_output t r).
Proof.
  destruct (seeded_fields t) as (H1 & H2 & H3 & H4 & _).
  unfold at_output, at_final, at_whitebalance, at_contrast, at_rough.
  destruct (r_contrast r), (r_whitebalance r); cbn; rewrite ?H1, ?H2, ?H3, ?H4;
    repeat split.
Qed.

(** The registration behind a returned run on distinct images. *)
Lemma task_registration w w' :
  task_ w = Returned tt w' ->
  shared_ptr_eqb (m_refcolor (self w)) (m_srccolor (self w)) = false ->
  exists r srcgray srccolor,
    let t := self w in
    m_srcgray t = Some srcgray /\
    m_srccolor t = Some srccolor /\
    roi_for t = Some (r_roi r) /\
    geometric_pass_ (at_rough t r) 256 (r_rough r) /\
    solved findTransformECC_impl (at_rough t r) true (r_rough r) /\
    optional_fit (contrast_enabled_ t) (contrast_fit_ (at_contrast t r))
      (r_contrast r) /\
    optional_fit (whitebalance_enabled_ t) (whitebalance_fit_ (at_whitebalance t r))
      (r_whitebalance r) /\
    geometric_pass_ (at_final t r) (final_cap_ t srccolor) (r_final r) /\
    solved findTransformECC_impl (at_final t r) false (r_final r) /\
    moved warpAffine_impl (at_output t r) (img srccolor) (r_warped r) /\
    calls w' = calls w
      ++ registration_events t (img srcgray) (img srccolor)
           (final_cap_ t srccolor) r /\
    self w' = reset_dependencies (set_result (at_output t r) (output t r)).
Proof.
  intros H Hne. apply task_Returned in H.
  destruct H as [[E _]|[_ (w1 & H & ->)]]; [congruence|].
  apply register_trace in H.
  destruct H as (r & sg & sc & H). cbv zeta in H.
  destruct H as (H1 & H2 & H3 & H4 & H5 & H6 & H7 & H8 & H9 & H10 & H11 & H12).
  exists r, sg, sc. cbv zeta. cbn [self calls]. rewrite H12.
  repeat (split; [assumption|]). reflexivity.
Qed.

(** What a returned registration leaves in the task. *)
Lemma registration_state t r t' :
  t' = reset_dependencies (set_result (at_output t r) (output t r)) ->
  m_roi t' = r_roi r /\
  m_transformation t' = pass_result (r_final r) /\
  m_contrast t'
  = match r_contrast r with Some f => f_solution f | None => m_contrast t end /\
  m_whitebalance t'
  = match r_whitebalance r with Some f => f_solution f | None => m_whitebalance t end.
Proof.
  intros ->.
  cbn [reset_dependencies set_result m_roi m_transformation m_contrast m_whitebalance].
  destruct (stage_roi t r) as (_ & _ & _ & _ & R5).
  destruct (stage_transformation t r) as (_ & _ & _ & T4).
  destruct (stage_contrast t r) as (_ & _ & C3 & _ & C5).
  destruct (stage_whitebalance t r) as (_ & _ & _ & W4 & W5).
  rewrite C3 in C5. rewrite W4 in W5. auto.
Qed.

(** C1. On distinct source and reference images the geometric search makes
    exactly two ECC calls, both on the grayscale pair: the rough pass with
    cap 256, at most 25 iterations and tolerance 0.01, then the final pass
    with cap 2048 (or the longer side of the colour source under the
    full-resolution flag), at most 50 iterations and tolerance 0.001.  In
    each pass the images are area-reduced exactly when the longer side
    exceeds the cap, the mask is 255 on the ROI scaled by the pass ratio and
    0 elsewhere, and only the two translation entries of the warp are
    multiplied by the ratio before the solve and divided by it afterwards.

    The registration [r] is the run's own: its ROI is the one
    [Task_Align::task] computes and leaves in [m_roi], its passes work on
    the gray images of the task, their ECC calls are the ones in the log
    and their answers are what the solver returned for those calls.  The
    scaled ROI is written out: each component is the product with the
    ratio, formed in [float] and truncated to [int]. *)
Theorem C1_two_ecc_passes w w' :
  task_ w = Returned tt w' ->
  shared_ptr_eqb (m_refcolor (self w)) (m_srccolor (self w)) = false ->
  exists r refgray srcgray srccolor,
    let t := self w in
    let masked (p : Pass) :=
      let s := p_ratio p in
      let x0 := F32.to_int (F32.of_int (rx (r_roi r)) * s)%f32 in
      let y0 := F32.to_int (F32.of_int (ry (r_roi r)) * s)%f32 in
      let w0 := F32.to_int (F32.of_int (rwidth (r_roi r)) * s)%f32 in
      let h0 := F32.to_int (F32.of_int (rheight (r_roi r)) * s)%f32 in
      rows (p_mask p) = rows (p_ref p) /\
      cols (p_mask p) = cols (p_ref p) /\
      forall y x, 0 <= y < rows (p_ref p) -> 0 <= x < cols (p_ref p) ->
        at_u8 (p_mask p) y x
        = if (x0 <=? x) && (x <? x0 + w0) && (y0 <=? y) && (y <? y0 + h0)
          then 255 else 0 in
    (* the images and the ROI of the run *)
    m_refgray t = Some refgray /\
    m_srcgray t = Some srcgray /\
    m_srccolor t = Some srccolor /\
    roi_for t = Some (r_roi r) /\
    m_roi (self w') = r_roi r /\
    m_roi (at_rough t r) = r_roi r /\
    m_roi (at_final t r) = r_roi r /\
    (* the calls of the run, and its ECC calls among them *)
    calls w' = calls w
      ++ registration_events t (img srcgray) (img srccolor)
           (final_cap_ t srccolor) r /\
    List.filter is_ecc_call (calls w')
    = List.filter is_ecc_call (calls w)
      ++ [ecc_event (at_rough t r) true (r_rough r);
          ecc_event (at_final t r) false (r_final r)] /\
    pass_criteria true
    = mkTermCriteria (cv.TermCriteria_COUNT + cv.TermCriteria_EPS) 25 (F64.lit 1 100) /\
    pass_criteria false
    = mkTermCriteria (cv.TermCriteria_COUNT + cv.TermCriteria_EPS) 50 (F64.lit 1 1000) /\
    (* the two passes *)
    geometric_pass_ (at_rough t r) 256 (r_rough r) /\
    geometric_pass_ (at_final t r) (final_cap_ t srccolor) (r_final r) /\
    pass_inputs_ (img refgray) (img srcgray) 256
      (p_ratio (r_rough r)) (p_ref (r_rough r)) (p_src (r_rough r))
      (p_resizes (r_rough r)) /\
    pass_inputs_ (img refgray) (img srcgray) (final_cap_ t srccolor)
      (p_ratio (r_final r)) (p_ref (r_final r)) (p_src (r_final r))
      (p_resizes (r_final r)) /\
    masked (r_rough r) /\
    masked (r_final r) /\
    solved findTransformECC_impl (at_rough t r) true (r_rough r) /\
    solved findTransformECC_impl (at_final t r) false (r_final r) /\
    final_cap_ t srccolor
    = (if flag_set (m_flags t) ALIGN_FULL_RESOLUTION
       then Z.max (cols (img srccolor)) (rows (img srccolor))
       else 2048) /\
    m_refgray (at_rough t r) = m_refgray t /\
    m_srcgray (at_rough t r) = m_srcgray t /\
    m_refgray (at_final t r) = m_refgray t /\
    m_srcgray (at_final t r) = m_srcgray t /\
    m_transformation (at_rough t r) = m_transformation (seeded t) /\
    m_transformation (at_final t r) = pass_result (r_rough r) /\
    m_transformation (self w') = pass_result (r_final r).
Proof.
  intros H Hne. apply task_registration in H; [|exact Hne].
  destruct H as (r & sg & sc & H). cbv zeta in H.
  destruct H as (Hsg & Hsc & Hroi & Hp1 & Hs1 & _ & _ & Hp2 & Hs2 & _ & Hcalls & Hself).
  destruct (stage_inputs (self w) r)
    as ((A1 & A2 & _) & _ & _ & (B1 & B2 & _) & _).
  destruct (stage_transformation (self w) r) as (_ & _ & T3 & _).
  destruct (stage_roi (self w) r) as (R1 & _ & _ & R4 & _).
  destruct (registration_state _ _ _ Hself) as (Qroi & QT & _ & _).
  pose proof Hp1 as (rg & sg1 & Hrg1 & Hsg1 & Hin1 & Hmr1 & Hmc1 & Hm1 & _).
  pose proof Hp2 as (rg2 & sg2 & Hrg2 & Hsg2 & Hin2 & Hmr2 & Hmc2 & Hm2 & _).
  rewrite A1 in Hrg1. rewrite A2, Hsg in Hsg1. injection Hsg1 as <-.
  rewrite B1, Hrg1 in Hrg2. injection Hrg2 as <-.
  rewrite B2, Hsg in Hsg2. injection Hsg2 as <-.
  exists r, rg, sg, sc. cbv zeta.
  split; [exact Hrg1|]. split; [exact Hsg|]. split; [exact Hsc|].
  split; [exact Hroi|]. split; [exact Qroi|]. split; [exact R1|]. split; [exact R4|].
  split; [exact Hcalls|]. split.
  { rewrite Hcalls, List.filter_app.
    rewrite (filter_ecc_registration _ _ _ _ _ Hp1 Hp2). reflexivity. }
  split; [reflexivity|]. split; [reflexivity|].
  split; [exact Hp1|]. split; [exact Hp2|].
  split; [exact Hin1|]. split; [exact Hin2|].
  split.
  { split; [exact Hmr1|]. split; [exact Hmc1|].
    intros y x Hy Hx. rewrite Hm1 by assumption. rewrite R1. reflexivity. }
  split.
  { split; [exact Hmr2|]. split; [exact Hmc2|].
    intros y x Hy Hx. rewrite Hm2 by assumption. rewrite R4. reflexivity. }
  split; [exact Hs1|]. split; [exact Hs2|].
  repeat split; auto.
Qed.

(** C2. When the source colour image is the reference colour image (the
    same object behind both pointers), the run returns, the published
    result is the source image as it is, and nothing else happens: no
    member function is entered, no OpenCV routine is called, and the
    transformation, contrast and white-balance models keep their values. *)
Theorem C2_identity_short_circuit w srccolor :
  shared_ptr_eqb (m_refcolor (self w)) (m_srccolor (self w)) = true ->
  m_srccolor (self w) = Some srccolor ->
  exists w',
    task_ w = Returned tt w' /\
    m_result (self w') = img srccolor /\
    calls w' = calls w /\
    m_transformation (self w') = m_transformation (self w) /\
    m_contrast (self w') = m_contrast (self w) /\
    m_whitebalance (self w') = m_whitebalance (self w) /\
    m_roi (self w') = m_roi (self w).
Proof.
  intros E Hs. eexists. split; [apply (task_same _ _ E Hs)|].
  repeat split.
Qed.

(** C8. When the run returns, on either path, the six dependency pointers
    of the task are null, while its result and everything else it computed
    stay as the body left them. *)
Theorem C8_dependencies_released w w' :
  task_ w = Returned tt w' ->
  (m_refgray (self w') = None /\ m_refcolor (self w') = None /\
   m_srcgray (self w') = None /\ m_srccolor (self w') = None /\
   m_initial_guess (self w') = None /\ m_cropinfo (self w') = None) /\
  exists body,
    self w' = reset_dependencies body /\
    m_result (self w') = m_result body /\
    m_transformation (self w') = m_transformation body /\
    m_contrast (self w') = m_contrast body /\
    m_whitebalance (self w') = m_whitebalance body /\
    m_depends_on (self w') = m_depends_on (self w) /\
    ((shared_ptr_eqb (m_refcolor (self w)) (m_srccolor (self w)) = true /\
      exists srccolor, m_srccolor (self w) = Some srccolor /\
                       m_result body = img srccolor)
     \/
     (shared_ptr_eqb (m_refcolor (self w)) (m_srccolor (self w)) = false /\
      exists w1, register_ w = Returned tt w1 /\ body = self w1)).
Proof.
  intros H. apply task_Returned in H.
  destruct H as [(E & sc & Hs & ->)|(E & w1 & H & ->)]; cbn [self].
  - split; [repeat split|].
    exists (set_result (self w) (img sc)). repeat split. left. eauto.
  - split; [repeat split|].
    exists (self w1). repeat split.
    + apply register_trace in H. destruct H as (r & sg & sc & H). cbv zeta in H.
      destruct H as (_ & _ & _ & _ & _ & _ & _ & _ & _ & _ & _ & ->).
      cbn. unfold at_output, at_final, at_whitebalance, at_contrast, at_rough, seeded.
      destruct (r_contrast r), (r_whitebalance r), (m_initial_guess (self w));
        reflexivity.
    + right. eauto.
Qed.






Lemma in_registration_contrast t gray color cap r f e :
  r_contrast r = Some f ->
  In e (fit_events (at_contrast t r) M_match_contrast false gray f) ->
  In e (registration_events t gray color cap r).
Proof.
  intros Hf Hin. unfold registration_events. rewrite Hf. cbn [optional_events].
  apply in_or_app. right. apply in_or_app. left. exact Hin.
Qed.


(** C4. With contrast correction enabled, on distinct images, the contrast
    model is fitted after the rough pass: the grayscale source is moved by
    the transformation of the rough pass, which is the answer of the rough
    ECC call with its translation divided by the ratio; reference and moved
    source are cut to the ROI the task computed and area-resampled to
    64x64; row [64 y + x] of the system has the ratio reference sample /
    source sample on the right and [1, xd, xd^2, yd, yd^2] on the left, with
    [xd = (x - 32) / 64] and [yd = (y - 32) / 64], both within [-0.5, 0.5];
    the system is handed to [cv::solve] with [DECOMP_SVD] and its answer
    becomes the contrast model. *)
Theorem C4_contrast_fit w w' :
  task_ w = Returned tt w' ->
  shared_ptr_eqb (m_refcolor (self w)) (m_srccolor (self w)) = false ->
  contrast_enabled_ (self w) = true ->
  exists r f refgray srcgray srccolor,
    let t := self w in
    (* the images and the ROI of the run *)
    m_refgray t = Some refgray /\
    m_srcgray t = Some srcgray /\
    m_srccolor t = Some srccolor /\
    roi_for t = Some (r_roi r) /\
    m_roi (self w') = r_roi r /\
    (* the rough pass and its answer *)
    geometric_pass_ (at_rough t r) 256 (r_rough r) /\
    solved findTransformECC_impl (at_rough t r) true (r_rough r) /\
    pass_result (r_rough r)
    = unscale_translation (FMat_of_affine (p_answer (r_rough r)))
        (p_ratio (r_rough r)) /\
    (* every call of the run *)
    calls w' = calls w
      ++ registration_events t (img srcgray) (img srccolor)
           (final_cap_ t srccolor) r /\
    (* the fit *)
    r_contrast r = Some f /\
    contrast_fit_ (at_contrast t r) f /\
    moved warpAffine_impl (at_contrast t r) (img srcgray) (f_moved f) /\
    Mat_roi (img refgray) (r_roi r) = Some (f_ref_roi f) /\
    Mat_roi (f_moved f) (r_roi r) = Some (f_src_roi f) /\
    m_transformation (at_contrast t r) = pass_result (r_rough r) /\
    m_roi (at_contrast t r) = r_roi r /\
    m_refgray (at_contrast t r) = m_refgray t /\
    m_srcgray (at_contrast t r) = m_srcgray t /\
    In (CvResize (f_ref_roi f) (ToSize 64 64) cv.INTER_AREA) (calls w') /\
    In (CvResize (f_src_roi f) (ToSize 64 64) cv.INTER_AREA) (calls w') /\
    In (CvSolve (f_matrix f) (f_rhs f) cv.DECOMP_SVD) (calls w') /\
    m_contrast (self w') = f_solution f.
Proof.
  intros H Hne Hen. apply task_registration in H; [|exact Hne].
  destruct H as (r & sg & sc & H). cbv zeta in H.
  destruct H as (Hsg & Hsc & Hroi & Hp1 & Hs1 & Hfc & _ & _ & _ & _ & Hcalls & Hself).
  unfold optional_fit in Hfc.
  destruct (r_contrast r) as [f|] eqn:Ef; [|congruence].
  destruct Hfc as [_ Hfit].
  destruct (stage_transformation (self w) r) as (T1 & _).
  destruct (stage_roi (self w) r) as (_ & R2 & _).
  destruct (stage_inputs (self w) r) as (_ & (I1 & I2 & _) & _).
  destruct (registration_state _ _ _ Hself) as (Qroi & _ & QC & _).
  pose proof Hfit as (rg & sg' & Hrg & Hsg' & Hmv & (Hcut1 & Hcut2 & _) & _).
  rewrite I1 in Hrg. rewrite I2, Hsg in Hsg'. injection Hsg' as <-.
  rewrite R2 in Hcut1, Hcut2.
  exists r, f, rg, sg, sc. cbv zeta.
  assert (Hev : forall e,
            In e (fit_events (at_contrast (self w) r) M_match_contrast false (img sg) f) ->
            In e (calls w')).
  { intros e He. rewrite Hcalls. apply in_or_app. right.
    eapply in_registration_contrast; eassumption. }
  split; [exact Hrg|]. split; [exact Hsg|]. split; [exact Hsc|].
  split; [exact Hroi|]. split; [exact Qroi|].
  split; [exact Hp1|]. split; [exact Hs1|]. split; [reflexivity|].
  split; [exact Hcalls|].
  split; [exact Ef|]. split; [exact Hfit|].
  split; [exact Hmv|]. split; [exact Hcut1|]. split; [exact Hcut2|].
  repeat (split; [assumption|]).
  split; [apply Hev; cbn; auto 10|].
  split; [apply Hev; cbn; auto 10|].
  split; [apply Hev; cbn; auto 10|].
  rewrite QC, Ef. reflexivity.
Qed.


(** ** The ROI *)

Lemma wrap_int_id z : - 2 ^ 31 <= z < 2 ^ 31 -> wrap_int z = z.
Proof.
  intros H. unfold wrap_int. rewrite Z.mod_small by lia. lia.
Qed.

(** With a padded image at least as large as the original, the crop ROI is
    the original rectangle, set in by half the padding. *)
Lemma crop_roi_padded c :
  0 <= orig_width c <= cols (load_img c) -> cols (load_img c) < 2 ^ 31 ->
  0 <= orig_height c <= rows (load_img c) -> rows (load_img c) < 2 ^ 31 ->
  crop_roi c
  = mkRect ((cols (load_img c) - orig_width c) / 2)
           ((rows (load_img c) - orig_height c) / 2)
           (cols (load_img c) - (cols (load_img c) - orig_width c))
           (rows (load_img c) - (rows (load_img c) - orig_height c)).
Proof.
  intros Hw Hpw Hh Hph. unfold crop_roi.
  rewrite !(wrap_int_id (cols (load_img c) - orig_width c)) by lia.
  rewrite !(wrap_int_id (rows (load_img c) - orig_height c)) by lia.
  rewrite !wrap_int_id by lia.
  rewrite !Z.quot_div_nonneg by lia. reflexivity.
Qed.

(** C6. With crop information from a loader that padded the image, the ROI
    is the padded rectangle with the padding taken off: origin
    ((pw - ow) / 2, (ph - oh) / 2), size (pw - (pw - ow), ph - (ph - oh)),
    which is the original size; the margins left on the two sides of an
    axis differ by at most one pixel.  This rectangle is the ROI at every
    stage of the registration: in the masks of both passes and in the
    resampling of both fits. *)
Theorem C6_crop_roi w w' c :
  task_ w = Returned tt w' ->
  shared_ptr_eqb (m_refcolor (self w)) (m_srccolor (self w)) = false ->
  m_cropinfo (self w) = Some c ->
  0 <= orig_width c <= cols (load_img c) -> cols (load_img c) < 2 ^ 31 ->
  0 <= orig_height c <= rows (load_img c) -> rows (load_img c) < 2 ^ 31 ->
  let pw := cols (load_img c) in
  let ph := rows (load_img c) in
  let ow := orig_width c in
  let oh := orig_height c in
  let roi := mkRect ((pw - ow) / 2) ((ph - oh) / 2)
                    (pw - (pw - ow)) (ph - (ph - oh)) in
  exists r srccolor,
    let t := self w in
    m_srccolor t = Some srccolor /\
    r_roi r = roi /\
    rwidth roi = ow /\ rheight roi = oh /\
    0 <= (pw - (rx roi + rwidth roi)) - rx roi <= 1 /\
    0 <= (ph - (ry roi + rheight roi)) - ry roi <= 1 /\
    0 <= rx roi /\ 0 <= ry roi /\
    roi_throughout t r roi /\
    geometric_pass_ (at_rough t r) 256 (r_rough r) /\
    optional_fit (contrast_enabled_ t) (contrast_fit_ (at_contrast t r))
      (r_contrast r) /\
    optional_fit (whitebalance_enabled_ t) (whitebalance_fit_ (at_whitebalance t r))
      (r_whitebalance r) /\
    geometric_pass_ (at_final t r) (final_cap_ t srccolor) (r_final r) /\
    m_roi (self w') = roi.
Proof.
  intros H Hne Hc Hw Hpw Hh Hph pw ph ow oh roi.
  apply task_registration in H; [|exact Hne].
  destruct H as (r & sg & sc & H). cbv zeta in H.
  destruct H as (_ & Hsc & Hroi & Hp1 & _ & Hfc & Hfw & Hp2 & _ & _ & _ & Hself).
  unfold roi_for in Hroi. rewrite Hc in Hroi. injection Hroi as Hroi.
  rewrite crop_roi_padded in Hroi by assumption.
  subst pw ph ow oh roi.
  exists r, sc. cbv zeta.
  pose proof (stage_roi (self w) r) as Hst. rewrite <- Hroi in Hst.
  split; [exact Hsc|]. split; [symmetry; exact Hroi|].
  cbn [rx ry rwidth rheight].
  assert (Hhalf : forall d, 0 <= d -> 0 <= d - d / 2 - d / 2 <= 1 /\ 0 <= d / 2).
  { intros d Hd. pose proof (Z.div_mod d 2 ltac:(lia)).
    pose proof (Z.mod_pos_bound d 2 ltac:(lia)).
    split; [lia | apply Z.div_pos; lia]. }
  destruct (Hhalf (cols (load_img c) - orig_width c) ltac:(lia)) as [Hx1 Hx2].
  destruct (Hhalf (rows (load_img c) - orig_height c) ltac:(lia)) as [Hy1 Hy2].
  split; [lia|]. split; [lia|].
  split; [lia|]. split; [lia|]. split; [exact Hx2|].
  split; [exact Hy2|].
  split; [exact Hst|].
  repeat (split; [assumption|]).
  rewrite Hself. cbn [reset_dependencies set_result m_roi].
  destruct Hst as (_ & _ & _ & _ & ->). reflexivity.
Qed.

(** C10. Without crop information the ROI is the full rectangle of the
    colour source, origin (0, 0), and it is the ROI at every stage of the
    registration. *)
Theorem C10_full_roi w w' :
  task_ w = Returned tt w' ->
  shared_ptr_eqb (m_refcolor (self w)) (m_srccolor (self w)) = false ->
  m_cropinfo (self w) = None ->
  exists r srccolor,
    let t := self w in
    let roi := mkRect 0 0 (cols (img srccolor)) (rows (img srccolor)) in
    m_srccolor t = Some srccolor /\
    r_roi r = roi /\
    roi_throughout t r roi /\
    geometric_pass_ (at_rough t r) 256 (r_rough r) /\
    optional_fit (contrast_enabled_ t) (contrast_fit_ (at_contrast t r))
      (r_contrast r) /\
    optional_fit (whitebalance_enabled_ t) (whitebalance_fit_ (at_whitebalance t r))
      (r_whitebalance r) /\
    geometric_pass_ (at_final t r) (final_cap_ t srccolor) (r_final r) /\
    m_roi (self w') = roi.
Proof.
  intros H Hne Hc.
  apply task_registration in H; [|exact Hne].
  destruct H as (r & sg & sc & H). cbv zeta in H.
  destruct H as (_ & Hsc & Hroi & Hp1 & _ & Hfc & Hfw & Hp2 & _ & _ & _ & Hself).
  unfold roi_for in Hroi. rewrite Hc, Hsc in Hroi. injection Hroi as Hroi.
  exists r, sc. cbv zeta.
  pose proof (stage_roi (self w) r) as Hst. rewrite <- Hroi in Hst.
  split; [exact Hsc|]. split; [symmetry; exact Hroi|].
  split; [exact Hst|].
  repeat (split; [assumption|]).
  rewrite Hself. cbn [reset_dependencies set_result m_roi].
  destruct Hst as (_ & _ & _ & _ & ->). reflexivity.
Qed.

(** ** Exceptions leave no result behind *)

Lemma keeps_ret {A} (a : A) : keeps_result (ret a).
Proof. intros w. reflexivity. Qed.

Lemma keeps_throw {A} : keeps_result (@throw A).
Proof. intros w. reflexivity. Qed.

Lemma keeps_emit e : keeps_result (emit e).
Proof. intros w. reflexivity. Qed.

Lemma keeps_this : keeps_result this.
Proof. intros w. reflexivity. Qed.

Lemma keeps_deref {A} (p : option A) : keeps_result (deref p).
Proof. intros w. destruct p; reflexivity. Qed.

Lemma keeps_try_cv {A} (p : option A) : keeps_result (try_cv p).
Proof. intros w. destruct p; reflexivity. Qed.

Lemma keeps_modify f :
  (forall t, m_result (f t) = m_result t) -> keeps_result (modify f).
Proof. intros Hf w. cbn. apply Hf. Qed.

Lemma keeps_bind {A B} (m : M A) (k : A -> M B) :
  keeps_result m -> (forall a, keeps_result (k a)) -> keeps_result (bind m k).
Proof.
  intros Hm Hk w. unfold bind. specialize (Hm w).
  destruct (m w) as [a w1|w1]; cbn in *; [|exact Hm].
  rewrite Hk. exact Hm.
Qed.

Lemma keeps_when b m : keeps_result m -> keeps_result (when b m).
Proof. intros Hm. destruct b; [exact Hm | apply keeps_ret]. Qed.

Lemma keeps_throws_clean {A} (m : M A) : keeps_result m -> throws_clean m.
Proof. intros Hm w w' H. specialize (Hm w). rewrite H in Hm. exact Hm. Qed.

Lemma throws_clean_bind {A B} (m : M A) (k : A -> M B) :
  keeps_result m -> (forall a, throws_clean (k a)) -> throws_clean (bind m k).
Proof.
  intros Hm Hk w w' H. apply bind_Thrown in H.
  destruct H as [H|(a & w1 & H1 & H2)].
  - apply (keeps_throws_clean m Hm). exact H.
  - specialize (Hm w). rewrite H1 in Hm. cbn in Hm.
    rewrite (Hk a w1 w' H2). exact Hm.
Qed.

Ltac keeps_tac :=
  repeat lazymatch goal with
    | |- keeps_result (if ?b then _ else _) => destruct b
    | |- keeps_result (match ?o with Some _ => _ | None => _ end) => destruct o
    | |- keeps_result (match ?p with (_, _) => _ end) => destruct p
    | |- keeps_result (bind _ _) => apply keeps_bind; [|intros]
    | |- keeps_result (emit _) => apply keeps_emit
    | |- keeps_result this => apply keeps_this
    | |- keeps_result (ret _) => apply keeps_ret
    | |- keeps_result throw => apply keeps_throw
    | |- keeps_result (deref _) => apply keeps_deref
    | |- keeps_result (try_cv _) => apply keeps_try_cv
    | |- keeps_result (when _ _) => apply keeps_when
    | |- keeps_result (modify _) => apply keeps_modify; intros; reflexivity
    end.

Lemma keeps_cv_resize src spec i : keeps_result (cv_resize_ src spec i).
Proof. unfold cv_resize. keeps_tac. Qed.

Lemma keeps_apply_transform src inverse : keeps_result (apply_transform_ src inverse).
Proof. unfold apply_transform, cv_warpAffine. keeps_tac. Qed.

Lemma keeps_apply_contrast_whitebalance m :
  keeps_result (apply_contrast_whitebalance m).
Proof. unfold apply_contrast_whitebalance. keeps_tac. Qed.

Lemma keeps_match_transform cap rough : keeps_result (match_transform_ cap rough).
Proof.
  unfold match_transform, cv_findTransformECC.
  keeps_tac; try apply keeps_cv_resize; try apply keeps_apply_contrast_whitebalance.
  all: keeps_tac.
Qed.

Lemma keeps_match_contrast : keeps_result match_contrast_.
Proof.
  unfold match_contrast, cv_solve. cbv zeta.
  keeps_tac; try apply keeps_cv_resize; try apply keeps_apply_transform.
  all: keeps_tac.
Qed.

Lemma keeps_match_whitebalance : keeps_result match_whitebalance_.
Proof.
  unfold match_whitebalance, cv_solve. cbv zeta.
  keeps_tac; try apply keeps_cv_resize; try apply keeps_apply_transform;
    try apply keeps_apply_contrast_whitebalance.
  all: keeps_tac.
Qed.

Ltac keeps_steps :=
  repeat (keeps_tac;
          lazymatch goal with
          | |- keeps_result (match_transform _ _ _ _) => apply keeps_match_transform
          | |- keeps_result (match_contrast _ _ _) => apply keeps_match_contrast
          | |- keeps_result (match_whitebalance _ _ _) =>
              apply keeps_match_whitebalance
          | |- keeps_result (apply_transform _ _ _) => apply keeps_apply_transform
          end).

Lemma register_throws_clean : throws_clean register_.
Proof.
  unfold register.
  repeat (apply throws_clean_bind; [solve [keeps_steps] | intros]).
  (* once the warp is stored, nothing can throw *)
  intros w w' H. unfold bind, modify, when in H.
  destruct (_ || _); cbn in H; discriminate.
Qed.

Lemma task_throws_clean : throws_clean task_.
Proof.
  unfold task.
  apply throws_clean_bind; [apply keeps_this | intros t].
  intros w w' H. apply bind_Thrown in H.
  destruct H as [H|(a & w1 & _ & H)]; [|discriminate].
  destruct (shared_ptr_eqb _ _).
  - revert H. apply throws_clean_bind; [apply keeps_deref | intros sc].
    intros v v' H. discriminate.
  - revert H. apply register_throws_clean.
Qed.

Lemma not_failed_pass t cap rough p :
  geometric_pass_ t cap p ->
  solved findTransformECC_impl t rough p ->
  Forall (fun e => ~ ecc_failed findTransformECC_impl e) (pass_events t cap rough p).
Proof.
  intros (rg & sg & _ & _ & Hin & _) Hs. unfold pass_events.
  constructor; [exact id|]. apply Forall_app. split.
  - destruct Hin; repeat constructor; exact id.
  - repeat constructor; [exact id|]. cbn. unfold solved in Hs. congruence.
Qed.

Lemma not_failed_fit t entry corrected source f :
  Forall (fun e => ~ ecc_failed findTransformECC_impl e)
    (fit_events t entry corrected source f).
Proof.
  unfold fit_events. destruct corrected; repeat constructor; exact id.
Qed.

(** C7. A freshly constructed task holds the 2x3 identity as its
    transformation.  On distinct images the first thing the run does is
    enter the rough pass, and it enters it with the neighbour's
    transformation when an initial guess was supplied and with the identity
    otherwise; that is the matrix whose translation is scaled and handed to
    the first ECC call. *)
Theorem C7_initial_transformation
    refgray refcolor srcgray srccolor guess crop flags w' :
  let t := Task_Align_new refgray refcolor srcgray srccolor guess crop flags in
  let start := match guess with
               | Some g => nb_transformation g
               | None => identity_transformation
               end in
  task_ (mkWorld t []) = Returned tt w' ->
  addr refcolor <> addr srccolor ->
  m_transformation t = identity_transformation /\
  identity_transformation
  = FMat_of_affine (mkAffine F32.one F32.zero F32.zero F32.zero F32.one F32.zero) /\
  exists r rest,
    m_transformation (at_rough t r) = start /\
    geometric_pass_ (at_rough t r) 256 (r_rough r) /\
    pass_warp (at_rough t r) (r_rough r)
    = scale_translation start (p_ratio (r_rough r)) /\
    calls w' = pass_events (at_rough t r) 256 true (r_rough r) ++ rest.
Proof.
  intros t start H Hne.
  split; [reflexivity|]. split; [reflexivity|].
  apply task_registration in H.
  2: { cbn. apply Z.eqb_neq. exact Hne. }
  destruct H as (r & sg & sc & H). cbv zeta in H. cbn [self calls] in H.
  destruct H as (_ & _ & _ & Hp1 & _ & _ & _ & _ & _ & _ & Hcalls & _).
  exists r. eexists.
  assert (Hstart : m_transformation (at_rough t r) = start).
  { unfold at_rough. cbn [set_roi m_transformation].
    rewrite seeded_transformation. reflexivity. }
  split; [exact Hstart|]. split; [exact Hp1|]. split.
  - unfold pass_warp. rewrite Hstart. reflexivity.
  - rewrite Hcalls. unfold registration_events. cbn [app]. reflexivity.
Qed.

(** C9. On distinct images a run that returns made exactly its two ECC
    calls and the solver answered both: no call of the log was answered
    with an exception, and the transformation the run leaves is the
    solver's final answer (translation divided by the ratio), not a
    default.  A run in which any call raises ends thrown, and a thrown run
    leaves [m_result] as it found it: nothing is published. *)
Theorem C9_solver_failure_propagates w :
  shared_ptr_eqb (m_refcolor (self w)) (m_srccolor (self w)) = false ->
  Forall (fun e => ~ ecc_failed findTransformECC_impl e) (calls w) ->
  (forall w', task_ w = Returned tt w' ->
     Forall (fun e => ~ ecc_failed findTransformECC_impl e) (calls w') /\
     exists r,
       solved findTransformECC_impl (at_rough (self w) r) true (r_rough r) /\
       solved findTransformECC_impl (at_final (self w) r) false (r_final r) /\
       List.filter is_ecc_call (calls w')
       = List.filter is_ecc_call (calls w)
         ++ [ecc_event (at_rough (self w) r) true (r_rough r);
             ecc_event (at_final (self w) r) false (r_final r)] /\
       m_transformation (self w')
       = unscale_translation (FMat_of_affine (p_answer (r_final r)))
           (p_ratio (r_final r))) /\
  (forall w', task_ w = Thrown w' ->
     m_result (self w') = m_result (self w)) /\
  (forall e, ecc_failed findTransformECC_impl e ->
     In e (calls (world_of (task_ w))) ->
     is_returned (task_ w) = false).
Proof.
  intros Hne Hlog.
  assert (Hret : forall w', task_ w = Returned tt w' ->
     Forall (fun e => ~ ecc_failed findTransformECC_impl e) (calls w') /\
     exists r,
       solved findTransformECC_impl (at_rough (self w) r) true (r_rough r) /\
       solved findTransformECC_impl (at_final (self w) r) false (r_final r) /\
       List.filter is_ecc_call (calls w')
       = List.filter is_ecc_call (calls w)
         ++ [ecc_event (at_rough (self w) r) true (r_rough r);
             ecc_event (at_final (self w) r) false (r_final r)] /\
       m_transformation (self w')
       = unscale_translation (FMat_of_affine (p_answer (r_final r)))
           (p_ratio (r_final r))).
  { intros w' H. apply task_registration in H; [|exact Hne].
    destruct H as (r & sg & sc & H). cbv zeta in H.
    destruct H as (_ & _ & _ & Hp1 & Hs1 & _ & _ & Hp2 & Hs2 & _ & Hcalls & Hself).
    split.
    - rewrite Hcalls. apply Forall_app. split; [exact Hlog|].
      unfold registration_events. repeat (apply Forall_app; split).
      + apply not_failed_pass; assumption.
      + destruct (r_contrast r); [apply not_failed_fit | constructor].
      + destruct (r_whitebalance r); [apply not_failed_fit | constructor].
      + apply not_failed_pass; assumption.
      + repeat constructor; exact id.
      + destruct (photometric r); repeat constructor; exact id.
    - exists r. split; [exact Hs1|]. split; [exact Hs2|]. split.
      + rewrite Hcalls, List.filter_app.
        rewrite (filter_ecc_registration _ _ _ _ _ Hp1 Hp2). reflexivity.
      + rewrite Hself. cbn [reset_dependencies set_result m_transformation].
        destruct (stage_transformation (self w) r) as (_ & _ & _ & ->).
        reflexivity. }
  split; [exact Hret|]. split.
  - intros w' H. apply task_throws_clean. exact H.
  - intros e He Hin. destruct (task_ w) as [[] w'|w'] eqn:E; [|reflexivity].
    exfalso. destruct (Hret w' eq_refl) as [Hall _].
    rewrite Forall_forall in Hall. apply (Hall e); [|exact He].
    apply list_elem_of_In. exact Hin.
Qed.

End Properties.


(** * Further properties

    What the code shows beyond the statements above: the arithmetic of
    the scaling and of the correction, the runs that throw, what no run
    does, and the input folder of [main.cc]. *)

(** ** binary32 arithmetic: rounding, bounds and exact cases *)

Lemma digits2_pos_size p : digits2_pos p = Pos.size p.
Proof. induction p; cbn; congruence. Qed.

Lemma Zdigits2_log2 m : 0 < m -> Zdigits2 m = Z.log2 m + 1.
Proof.
  destruct m as [|p|p]; try lia. intros _. cbn [Zdigits2].
  rewrite digits2_pos_size. destruct p; cbn; lia.
Qed.

Lemma Zdigits2_nonneg m : 0 <= Zdigits2 m.
Proof. destruct m; cbn; lia. Qed.

Lemma Zdigits2_pos m : 0 < m -> 0 < Zdigits2 m.
Proof. destruct m; cbn; lia. Qed.

(** [lia] with the digit counts taken as unknowns. *)
Ltac digits_lia :=
  repeat match goal with
         | H : @eq spec_float _ _ |- _ => clear H
         | H : @eq (prod _ _) _ _ |- _ => clear H
         end;
  repeat match goal with
         | |- context [Zdigits2 ?m] =>
             let d := fresh "d" in set (d := Zdigits2 m) in *; clearbody d
         | H : context [Zdigits2 ?m] |- _ =>
             let d := fresh "d" in set (d := Zdigits2 m) in *; clearbody d
         end;
  lia.

Lemma Zdigits2_le m k : 0 <= m -> 0 <= k -> (Zdigits2 m <= k <-> m < 2 ^ k).
Proof.
  intros Hm Hk. destruct (Z.eq_dec m 0) as [->|Hne].
  - cbn. split; intros _; [apply Z.pow_pos_nonneg|]; lia.
  - rewrite Zdigits2_log2 by lia.
    rewrite (Z.log2_lt_pow2 m k) by lia. lia.
Qed.

Lemma Zdigits2_div m k :
  0 <= m -> 0 <= k -> Zdigits2 (m / 2 ^ k) = Z.max 0 (Zdigits2 m - k).
Proof.
  intros Hm Hk.
  assert (H2 : 0 < 2 ^ k) by (apply Z.pow_pos_nonneg; lia).
  destruct (Z.eq_dec (m / 2 ^ k) 0) as [E|E].
  - rewrite E. cbn [Zdigits2].
    apply Z.div_small_iff in E; [|lia].
    destruct E as [E|E]; [|lia].
    assert (Zdigits2 m <= k) by (apply Zdigits2_le; lia). lia.
  - assert (Hq : 0 < m / 2 ^ k).
    { pose proof (Z.div_pos m (2 ^ k) Hm H2). lia. }
    assert (Hm' : 0 < m) by (destruct (Z.eq_dec m 0) as [->|]; [rewrite Z.div_0_l in E; lia | lia]).
    rewrite (Zdigits2_log2 _ Hq), (Zdigits2_log2 _ Hm').
    rewrite <- Z.shiftr_div_pow2 by lia.
    rewrite Z.log2_shiftr by lia.
    assert (k <= Z.log2 m).
    { apply Z.log2_le_pow2; [lia|].
      apply Z.nlt_ge. intros Hlt. rewrite Z.div_small in E by lia. lia. }
    lia.
Qed.

Lemma Zdigits2_mono a b : 0 <= a <= b -> Zdigits2 a <= Zdigits2 b.
Proof.
  intros H. destruct (Z.eq_dec a 0) as [->|Ha]; [apply Zdigits2_nonneg|].
  rewrite !Zdigits2_log2 by lia.
  pose proof (Z.log2_le_mono a b). lia.
Qed.

Lemma Zdigits2_succ a : 0 <= a -> Zdigits2 (a + 1) <= Zdigits2 a + 1.
Proof.
  intros H. apply Zdigits2_le; [lia | pose proof (Zdigits2_nonneg a); lia |].
  assert (a < 2 ^ Zdigits2 a) by (apply Zdigits2_le; [lia | apply Zdigits2_nonneg | lia]).
  rewrite Z.pow_add_r by (pose proof (Zdigits2_nonneg a); lia).
  change (2 ^ 1) with 2. lia.
Qed.

Lemma Zdigits2_mul_pow2 m k : 0 < m -> 0 <= k -> Zdigits2 (m * 2 ^ k) = Zdigits2 m + k.
Proof.
  intros Hm Hk.
  assert (0 < 2 ^ k) by (apply Z.pow_pos_nonneg; lia).
  rewrite !Zdigits2_log2 by nia.
  rewrite <- Z.shiftl_mul_pow2 by lia.
  rewrite Z.log2_shiftl by lia. lia.
Qed.

(** Shifting a mantissa right. *)
Lemma shr_1_m mrs : 0 <= shr_m mrs -> shr_m (shr_1 mrs) = shr_m mrs / 2.
Proof.
  destruct mrs as [m r s]. cbn [shr_m]. intros H.
  destruct m as [|p|p]; [reflexivity| |lia].
  destruct p; cbn [shr_1 shr_m].
  - rewrite Pos2Z.inj_xI. symmetry. rewrite Z.mul_comm, Z.div_add_l by lia.
    rewrite Z.div_small by lia. lia.
  - rewrite Pos2Z.inj_xO. symmetry. rewrite Z.mul_comm. apply Z.div_mul. lia.
  - reflexivity.
Qed.

Lemma iter_shr_m p : forall mrs,
  0 <= shr_m mrs ->
  shr_m (SpecFloat.iter_pos shr_1 p mrs) = shr_m mrs / 2 ^ Zpos p.
Proof.
  induction p as [p IH|p IH|]; intros mrs H.
  - cbn [SpecFloat.iter_pos].
    assert (H1 : 0 <= shr_m (shr_1 mrs)).
    { rewrite shr_1_m by exact H. apply Z.div_pos; lia. }
    assert (H2 : 0 <= shr_m (SpecFloat.iter_pos shr_1 p (shr_1 mrs))).
    { rewrite IH by exact H1. apply Z.div_pos; [lia | apply Z.pow_pos_nonneg; lia]. }
    rewrite IH by exact H2. rewrite IH by exact H1. rewrite shr_1_m by exact H.
    assert (0 < 2 ^ Zpos p) by (apply Z.pow_pos_nonneg; lia).
    rewrite !Z.div_div by lia.
    f_equal. replace (Z.pos p~1) with (1 + Z.pos p + Z.pos p) by lia.
    rewrite !Z.pow_add_r by lia. change (2 ^ 1) with 2. ring.
  - cbn [SpecFloat.iter_pos].
    assert (H2 : 0 <= shr_m (SpecFloat.iter_pos shr_1 p mrs)).
    { rewrite IH by exact H. apply Z.div_pos; [lia | apply Z.pow_pos_nonneg; lia]. }
    rewrite IH by exact H2. rewrite IH by exact H.
    assert (0 < 2 ^ Zpos p) by (apply Z.pow_pos_nonneg; lia).
    rewrite !Z.div_div by lia.
    f_equal. replace (Z.pos p~0) with (Z.pos p + Z.pos p) by lia.
    rewrite Z.pow_add_r by lia. reflexivity.
  - cbn [SpecFloat.iter_pos]. rewrite shr_1_m by exact H. reflexivity.
Qed.

Lemma shr_record_of_loc_m m l : shr_m (shr_record_of_loc m l) = m.
Proof. destruct l as [|[]]; reflexivity. Qed.

Lemma fexp32 e : fexp F32.prec F32.emax e = Z.max (e - 24) (-149).
Proof. reflexivity. Qed.

Lemma shr_fexp_spec m e l :
  0 <= m ->
  exists mrs e1,
    shr_fexp F32.prec F32.emax m e l = (mrs, e1) /\
    e1 = Z.max e (Z.max (Zdigits2 m + e - 24) (-149)) /\
    shr_m mrs = m / 2 ^ (e1 - e).
Proof.
  intros Hm. unfold shr_fexp. rewrite fexp32.
  remember (Z.max (Zdigits2 m + e - 24) (-149) - e) as n eqn:En.
  unfold shr. destruct n as [|p|p].
  - eexists _, _. split; [reflexivity|]. split; [digits_lia|].
    rewrite shr_record_of_loc_m.
    replace (e - e) with 0 by lia. change (2 ^ 0) with 1. rewrite Z.div_1_r. reflexivity.
  - eexists _, _. split; [reflexivity|]. split; [digits_lia|].
    rewrite iter_shr_m by (rewrite shr_record_of_loc_m; exact Hm).
    rewrite shr_record_of_loc_m. f_equal. f_equal. digits_lia.
  - eexists _, _. split; [reflexivity|]. split; [digits_lia|].
    rewrite shr_record_of_loc_m.
    replace (e - e) with 0 by lia. change (2 ^ 0) with 1. rewrite Z.div_1_r. reflexivity.
Qed.

Lemma round_nearest_even_range m l :
  m <= round_nearest_even m l <= m + 1.
Proof.
  destruct l as [|[]]; cbn [round_nearest_even]; try lia.
  destruct (Z.even m); lia.
Qed.

(** The shape of a rounded result: its exponent is never below the one
    given nor below [emin], its magnitude grows by at most one binade, and
    it does not vanish unless the input is below the normal range. *)
Lemma round_aux_shape s mx ex lx :
  0 <= mx ->
  exists m3 e3,
    binary_round_aux F32.prec F32.emax s mx ex lx
    = match m3 with
      | Z0 => S754_zero s
      | Zpos m => if e3 <=? 104 then S754_finite s m e3 else S754_infinity s
      | Zneg _ => S754_nan
      end /\
    0 <= m3 /\ ex <= e3 /\ -149 <= e3 /\
    e3 <= Z.max ex (Z.max (Zdigits2 mx + ex - 23) (-149)) /\
    (0 < m3 -> Zdigits2 m3 + e3 <= Z.max (Zdigits2 mx + ex + 1) (-148)) /\
    (0 < mx -> -125 <= Zdigits2 mx + ex -> 0 < m3).
Proof.
  intros Hm. unfold binary_round_aux.
  destruct (shr_fexp_spec mx ex lx Hm) as (mrs1 & e1 & E1 & He1 & Hm1).
  rewrite E1.
  set (m2 := round_nearest_even (shr_m mrs1) (loc_of_shr_record mrs1)).
  assert (H1 : 0 <= shr_m mrs1).
  { rewrite Hm1. apply Z.div_pos; [lia | apply Z.pow_pos_nonneg; lia]. }
  assert (R : shr_m mrs1 <= m2 <= shr_m mrs1 + 1) by apply round_nearest_even_range.
  assert (H2 : 0 <= m2) by digits_lia.
  destruct (shr_fexp_spec m2 e1 loc_Exact H2) as (mrs3 & e3 & E3 & He3 & Hm3).
  rewrite E3.
  assert (H3 : 0 <= shr_m mrs3).
  { rewrite Hm3. apply Z.div_pos; [lia | apply Z.pow_pos_nonneg; lia]. }
  pose proof (Zdigits2_nonneg mx) as Dx.
  assert (D1 : Zdigits2 (shr_m mrs1) = Z.max 0 (Zdigits2 mx - (e1 - ex))).
  { rewrite Hm1. apply Zdigits2_div; lia. }
  assert (D2a : Zdigits2 (shr_m mrs1) <= Zdigits2 m2) by (apply Zdigits2_mono; lia).
  assert (D2b : Zdigits2 m2 <= Zdigits2 (shr_m mrs1) + 1).
  { etransitivity; [apply (Zdigits2_mono m2 (shr_m mrs1 + 1)); lia|].
    apply Zdigits2_succ. lia. }
  assert (D3 : Zdigits2 (shr_m mrs3) = Z.max 0 (Zdigits2 m2 - (e3 - e1))).
  { rewrite Hm3. apply Zdigits2_div; lia. }
  exists (shr_m mrs3), e3.
  split.
  { destruct (shr_m mrs3); reflexivity. }
  split; [exact H3|]. split; [digits_lia|]. split; [digits_lia|]. split; [digits_lia|]. split.
  - intros Hpos. pose proof (Zdigits2_pos _ Hpos). digits_lia.
  - intros Hpos Hn.
    pose proof (Zdigits2_pos _ Hpos) as Dp.
    assert (0 < Zdigits2 (shr_m mrs3)) by digits_lia.
    destruct (shr_m mrs3); cbn in *; lia.
Qed.

Lemma finite_upto_is_finite K L f : finite_upto K L f -> is_finite f = true.
Proof. destruct f; cbn; intuition. Qed.

Lemma finite_upto_weaken K L K' L' f :
  K <= K' -> L' <= L -> finite_upto K L f -> finite_upto K' L' f.
Proof. destruct f; cbn; intuition lia. Qed.

(** A canonical mantissa with an exact location is returned as it is. *)
Lemma round_aux_canonical s m e :
  bounded F32.prec F32.emax m e = true ->
  binary_round_aux F32.prec F32.emax s (Zpos m) e loc_Exact = S754_finite s m e.
Proof.
  unfold bounded, canonical_mantissa. intros H.
  apply andb_prop in H. destruct H as [Hc Hb]. apply Z.eqb_eq in Hc.
  unfold binary_round_aux, shr_fexp. cbn [Zdigits2]. rewrite Hc, Z.sub_diag.
  cbn [shr shr_record_of_loc shr_m loc_of_shr_record round_nearest_even Zdigits2].
  rewrite Hc, Z.sub_diag. cbn [shr shr_m]. rewrite Hb. reflexivity.
Qed.

Lemma iter_xO_value d : forall m, Zpos (Pos.iter xO m d) = Zpos m * 2 ^ Zpos d.
Proof.
  induction d as [|d IH] using Pos.peano_ind; intros m.
  - cbn. lia.
  - rewrite Pos.iter_succ, Pos2Z.inj_xO, IH, Pos2Z.inj_succ.
    rewrite Z.pow_succ_r by lia. ring.
Qed.

Lemma shl_align_spec mx ex ex' :
  exists m e, shl_align mx ex ex' = (m, e) /\ e = Z.min ex ex' /\
              Zpos m = Zpos mx * 2 ^ (ex - e).
Proof.
  unfold shl_align. destruct (ex' - ex) as [|d|d] eqn:E.
  - exists mx, ex. split; [reflexivity|]. split; [lia|].
    rewrite Z.sub_diag. lia.
  - exists mx, ex. split; [reflexivity|]. split; [lia|].
    rewrite Z.sub_diag. lia.
  - eexists _, _. split; [reflexivity|]. split; [lia|].
    rewrite iter_xO_value. f_equal. f_equal. lia.
Qed.

(** Rounding an integer mantissa: the shape of the result. *)
Lemma binary_round_shape s mx ex :
  exists m3 e3,
    binary_round F32.prec F32.emax s mx ex
    = match m3 with
      | Z0 => S754_zero s
      | Zpos m => if e3 <=? 104 then S754_finite s m e3 else S754_infinity s
      | Zneg _ => S754_nan
      end /\
    0 <= m3 /\ Z.min ex (Z.max (Zdigits2 (Zpos mx) + ex - 24) (-149)) <= e3 /\
    e3 <= Z.max ex (Z.max (Zdigits2 (Zpos mx) + ex - 23) (-149)) /\
    (0 < m3 -> Zdigits2 m3 + e3 <= Z.max (Zdigits2 (Zpos mx) + ex + 1) (-148)) /\
    (-125 <= Zdigits2 (Zpos mx) + ex -> 0 < m3).
Proof.
  unfold binary_round.
  destruct (shl_align_spec mx ex
              (fexp F32.prec F32.emax (Zpos (digits2_pos mx) + ex)))
    as (mz & ez & E & Hez & Hmz).
  rewrite E. rewrite fexp32 in Hez.
  assert (Hd : Zdigits2 (Zpos mz) + ez = Zdigits2 (Zpos mx) + ex).
  { rewrite Hmz, Zdigits2_mul_pow2 by lia. lia. }
  destruct (round_aux_shape s (Zpos mz) ez loc_Exact ltac:(lia))
    as (m3 & e3 & R & H0 & H1 & H2 & H3 & H4 & H5).
  exists m3, e3. split; [exact R|]. split; [exact H0|].
  rewrite Hd in *. change (Zdigits2 (Zpos mx)) with (Zpos (digits2_pos mx)) in *.
  repeat split; first [lia | intros Hn; apply H5; lia].
Qed.

(** [(float)z] for a non-zero [int]: finite, of exponent at least -23. *)
Lemma of_int_shape z :
  z <> 0 -> - 2 ^ 31 <= z < 2 ^ 31 ->
  exists m e, F32.of_int z = S754_finite (z <? 0) m e /\
              -23 <= e /\ Zpos (digits2_pos m) + e <= 33.
Proof.
  intros Hz Hr. unfold F32.of_int, binary_normalize.
  assert (Hd : forall p, Zpos p <= 2 ^ 31 -> 1 <= Zdigits2 (Zpos p) <= 32).
  { intros p Hp. split; [cbn; lia|].
    apply Zdigits2_le; [lia | lia |]. change (2 ^ 32) with (2 * 2 ^ 31). lia. }
  destruct z as [|p|p]; [congruence| |]; clear Hz.
  - destruct (binary_round_shape false p 0) as (m3 & e3 & R & H0 & H1 & H2 & H3 & H4).
    specialize (Hd p ltac:(lia)).
    assert (0 < m3) by (apply H4; digits_lia).
    destruct m3 as [|m|m]; try lia.
    assert (e3 <= 104) by digits_lia.
    rewrite R. rewrite (proj2 (Z.leb_le _ _)) by assumption.
    exists m, e3. split; [reflexivity|].
    specialize (H3 ltac:(lia)). change (Zdigits2 (Z.pos m)) with (Z.pos (digits2_pos m)) in H3. digits_lia.
  - destruct (binary_round_shape true p 0) as (m3 & e3 & R & H0 & H1 & H2 & H3 & H4).
    specialize (Hd p ltac:(lia)).
    assert (0 < m3) by (apply H4; digits_lia).
    destruct m3 as [|m|m]; try lia.
    assert (e3 <= 104) by digits_lia.
    rewrite R. rewrite (proj2 (Z.leb_le _ _)) by assumption.
    exists m, e3. split; [reflexivity|].
    specialize (H3 ltac:(lia)). change (Zdigits2 (Z.pos m)) with (Z.pos (digits2_pos m)) in H3. digits_lia.
Qed.

Lemma of_int_finite z :
  - 2 ^ 31 <= z < 2 ^ 31 -> finite_upto 33 (-23) (F32.of_int z).
Proof.
  intros Hr. destruct (Z.eq_dec z 0) as [->|Hz]; [exact I|].
  destruct (of_int_shape z Hz Hr) as (m & e & -> & H). exact H.
Qed.

Lemma div_core_spec m1 e1 m2 e2 :
  exists q e' l,
    SFdiv_core_binary F32.prec F32.emax (Zpos m1) e1 (Zpos m2) e2 = (q, e', l) /\
    0 <= q /\ e' <= e1 - e2 /\
    Zdigits2 q + e' <= Zdigits2 (Zpos m1) + e1 - e2.
Proof.
  unfold SFdiv_core_binary.
  set (e' := Z.min (fexp F32.prec F32.emax
                      (Zdigits2 (Zpos m1) + e1 - (Zdigits2 (Zpos m2) + e2)))
                   (e1 - e2)).
  set (s := e1 - e2 - e').
  set (m' := match s with
             | Z0 => Zpos m1
             | Zpos _ => Z.shiftl (Zpos m1) s
             | Zneg _ => 0
             end).
  assert (He' : e' <= e1 - e2) by (unfold e'; lia).
  assert (Hm' : 0 <= m' /\ Zdigits2 m' <= Zdigits2 (Zpos m1) + s).
  { unfold m'. destruct s as [|p|p] eqn:Es.
    - split; [lia|]. lia.
    - rewrite Z.shiftl_mul_pow2 by lia. split; [nia|].
      rewrite Zdigits2_mul_pow2 by lia. lia.
    - lia. }
  destruct Hm' as [Hm0 Hmd].
  destruct (Z.div_eucl m' (Zpos m2)) as [q r] eqn:Ed.
  assert (Hq : q = m' / Zpos m2) by (unfold Z.div; rewrite Ed; reflexivity).
  exists q, e', (new_location (Zpos m2) r).
  split; [reflexivity|].
  assert (Hq0 : 0 <= q) by (rewrite Hq; apply Z.div_pos; lia).
  assert (Hqm : q <= m').
  { rewrite Hq. apply Z.div_le_upper_bound; [lia | nia]. }
  pose proof (Zdigits2_mono q m' ltac:(lia)).
  repeat split; [exact Hq0 | exact He' | unfold s in *; digits_lia].
Qed.

(** Dividing a bounded value by a finite one of exponent at least -23. *)
Lemma div_finite K x s m e :
  finite_upto K (-149) x -> -23 <= e -> -172 <= K <= 81 ->
  finite_upto (K + 24) (-149) (x / S754_finite s m e)%f32.
Proof.
  intros Hx He HK. destruct x as [sx| | |sx mx ex]; cbn in Hx; try contradiction.
  - exact I.
  - destruct Hx as [Hl Hu]. unfold F32.div, SFdiv.
    destruct (div_core_spec mx ex m e) as (q & e' & l & E & Hq & He' & Hd).
    rewrite E.
    destruct (round_aux_shape (xorb sx s) q e' l Hq)
      as (m3 & e3 & R & H0 & H1 & H2 & H3 & H4 & _).
    rewrite R. change (Zdigits2 (Zpos mx)) with (Zpos (digits2_pos mx)) in Hd.
    destruct m3 as [|p|p]; [exact I| |lia].
    specialize (H4 ltac:(lia)).
    change (Zdigits2 (Zpos p)) with (Zpos (digits2_pos p)) in H4.
    assert (e3 <= 104) by digits_lia.
    rewrite (proj2 (Z.leb_le _ _)) by assumption.
    cbn. digits_lia.
Qed.

Lemma shl_align_fst_value mx ex ez :
  ez <= ex -> Zpos (fst (shl_align mx ex ez)) = Zpos mx * 2 ^ (ex - ez).
Proof.
  intros H. destruct (shl_align_spec mx ex ez) as (m & e & E & He & Hm).
  rewrite E. cbn [fst]. rewrite Hm. f_equal. f_equal. lia.
Qed.

Lemma binary_normalize_finite K z ez :
  Z.abs z < 2 ^ (K - ez) -> -149 <= ez <= K -> K <= 103 ->
  finite_upto (K + 1) (-149) (binary_normalize F32.prec F32.emax z ez false).
Proof.
  intros Hz He HK.
  assert (Hd : forall p, Zpos p < 2 ^ (K - ez) -> Zdigits2 (Zpos p) + ez <= K).
  { intros p Hp. assert (Zdigits2 (Zpos p) <= K - ez) by (apply Zdigits2_le; lia). lia. }
  unfold binary_normalize. destruct z as [|p|p]; [exact I| |].
  - specialize (Hd p ltac:(lia)).
    destruct (binary_round_shape false p ez) as (m3 & e3 & R & H0 & H1 & H2 & H3 & _).
    rewrite R. destruct m3 as [|m|m]; [exact I| |lia].
    specialize (H3 ltac:(lia)).
    change (Zdigits2 (Zpos m)) with (Zpos (digits2_pos m)) in H3.
    assert (e3 <= 104) by digits_lia.
    rewrite (proj2 (Z.leb_le _ _)) by assumption. cbn. digits_lia.
  - specialize (Hd p ltac:(lia)).
    destruct (binary_round_shape true p ez) as (m3 & e3 & R & H0 & H1 & H2 & H3 & _).
    rewrite R. destruct m3 as [|m|m]; [exact I| |lia].
    specialize (H3 ltac:(lia)).
    change (Zdigits2 (Zpos m)) with (Zpos (digits2_pos m)) in H3.
    assert (e3 <= 104) by digits_lia.
    rewrite (proj2 (Z.leb_le _ _)) by assumption. cbn. digits_lia.
Qed.

Lemma aligned_bound K m e ez :
  Zpos (digits2_pos m) + e <= K -> ez <= e ->
  Zpos m * 2 ^ (e - ez) < 2 ^ (K - ez).
Proof.
  intros Hd He.
  assert (Hm : Zpos m < 2 ^ (K - e)).
  { apply Zdigits2_le; [lia | lia | cbn [Zdigits2]; lia]. }
  replace (K - ez) with ((K - e) + (e - ez)) by lia.
  rewrite Z.pow_add_r by lia.
  assert (0 < 2 ^ (e - ez)) by (apply Z.pow_pos_nonneg; lia).
  nia.
Qed.

(** The difference of two bounded values. *)
Lemma sub_finite K x y :
  finite_upto K (-149) x -> finite_upto K (-149) y -> -149 <= K <= 101 ->
  finite_upto (K + 2) (-149) (x - y)%f32.
Proof.
  intros Hx Hy HK.
  destruct x as [sx| | |sx mx ex], y as [sy| | |sy my ey];
    cbn in Hx, Hy; try contradiction.
  - destruct sx, sy; exact I.
  - cbn. lia.
  - cbn. lia.
  - destruct Hx as [Hxl Hxu], Hy as [Hyl Hyu].
    unfold F32.sub, SFsub.
    set (ez := Z.min ex ey).
    rewrite !shl_align_fst_value by (unfold ez; lia).
    pose proof (aligned_bound K mx ex ez Hxu ltac:(unfold ez; lia)) as Bx.
    pose proof (aligned_bound K my ey ez Hyu ltac:(unfold ez; lia)) as By.
    assert (0 < 2 ^ (ex - ez)) by (apply Z.pow_pos_nonneg; unfold ez; lia).
    assert (0 < 2 ^ (ey - ez)) by (apply Z.pow_pos_nonneg; unfold ez; lia).
    eapply finite_upto_weaken; [| |apply (binary_normalize_finite (K + 1))].
    + lia.
    + lia.
    + replace (K + 1 - ez) with (1 + (K - ez)) by lia.
      rewrite Z.pow_add_r by (unfold ez; lia). change (2 ^ 1) with 2.
      destruct sx, sy; cbn [cond_Zopp]; lia.
    + unfold ez. lia.
    + lia.
Qed.

(** Normalised coordinates are finite for every index of every axis. *)
Lemma coord_finite i n :
  0 <= i < 2 ^ 31 -> 0 < n < 2 ^ 31 -> is_finite (coord i n) = true.
Proof.
  intros Hi Hn. unfold coord.
  destruct (of_int_shape n ltac:(lia) ltac:(lia)) as (m & e & En & He & Hd).
  pose proof (of_int_finite i ltac:(lia)) as Fi.
  assert (Fn : finite_upto 33 (-149) (F32.of_int n)).
  { rewrite En. cbn. lia. }
  change F32.two with (S754_finite false 8388608 (-22)).
  pose proof (div_finite 33 _ false 8388608 (-22) Fn ltac:(lia) ltac:(lia)) as Fh.
  cbn [Z.add] in Fh.
  assert (Fd : finite_upto 59 (-149)
                 (F32.of_int i - F32.of_int n / S754_finite false 8388608 (-22))%f32).
  { apply (sub_finite 57); [|exact Fh | lia].
    eapply finite_upto_weaken; [| |exact Fi]; lia. }
  revert Fd.
  generalize (F32.of_int i - F32.of_int n / S754_finite false 8388608 (-22))%f32.
  intros d Fd. rewrite En.
  apply (finite_upto_is_finite (59 + 24) (-149)).
  apply div_finite; [exact Fd | exact He | lia].
Qed.

(** ** The neutral models *)

Lemma contrast_factor_neutral xd yd :
  is_finite xd = true -> is_finite yd = true ->
  contrast_factor neutral_contrast xd yd = F32.one.
Proof.
  intros Hx Hy. unfold contrast_factor.
  change (fat1 neutral_contrast 0) with (S754_finite false 8388608 (-23)).
  change (fat1 neutral_contrast 1) with (S754_zero false).
  change (fat1 neutral_contrast 2) with (S754_zero false).
  change (fat1 neutral_contrast 3) with (S754_zero false).
  change (fat1 neutral_contrast 4) with (S754_zero false).
  destruct xd as [sx| | |sx mx ex], yd as [sy| | |sy my ey]; try discriminate;
    destruct sx, sy; reflexivity.
Qed.

Lemma byte_neutral_table :
  Forall (fun n =>
            dither (F32.of_int (Z.of_nat n) * F32.one)%f32 F32.zero
            = (Z.of_nat n, F32.zero) /\
            dither (F32.of_int (Z.of_nat n) * F32.one * F32.one + F32.zero)%f32 F32.zero
            = (Z.of_nat n, F32.zero))
         (seq 0 256).
Proof.
  cbn [seq]. repeat (constructor; [split; vm_compute; reflexivity|]). constructor.
Qed.

Lemma byte_neutral v :
  0 <= v <= 255 ->
  dither (F32.of_int v * F32.one)%f32 F32.zero = (v, F32.zero) /\
  dither (F32.of_int v * F32.one * F32.one + F32.zero)%f32 F32.zero = (v, F32.zero).
Proof.
  intros H. pose proof byte_neutral_table as T.
  rewrite Forall_forall in T.
  specialize (T (Z.to_nat v)). rewrite Z2Nat.id in T by lia.
  apply T. apply list_elem_of_In, in_seq. lia.
Qed.

Lemma scan_position nr nc k :
  0 < nc < 2 ^ 31 -> 0 < nr < 2 ^ 31 -> 0 <= k < nr * nc ->
  is_finite (coord (k mod nc) nc) = true /\ is_finite (coord (k / nc) nr) = true.
Proof.
  intros Hc Hr Hk.
  assert (0 <= k mod nc < nc) by (apply Z.mod_pos_bound; lia).
  assert (0 <= k / nc < nr).
  { split; [apply Z.div_pos; lia|]. apply Z.div_lt_upper_bound; lia. }
  split; apply coord_finite; lia.
Qed.

Lemma gray_scan_neutral nr nc px :
  0 < nc < 2 ^ 31 -> 0 < nr < 2 ^ 31 ->
  (length px <= Z.to_nat (nr * nc))%nat ->
  Forall (fun v => 0 <= v <= 255) px ->
  gray_scan neutral_contrast nr nc px = (px, F32.zero).
Proof.
  intros Hc Hr. induction px as [|v px IH] using rev_ind; intros Hlen Hpx.
  - reflexivity.
  - rewrite length_app in Hlen. cbn [length] in Hlen.
    apply Forall_app in Hpx. destruct Hpx as [Hpx Hv].
    rewrite gray_scan_snoc, IH by (try lia; exact Hpx).
    unfold gray_scan_step.
    destruct (scan_position nr nc (Z.of_nat (length px)) Hc Hr ltac:(lia)) as [Fx Fy].
    rewrite (contrast_factor_neutral _ _ Fx Fy).
    apply Forall_cons_1 in Hv. destruct Hv as [Hv _].
    rewrite (proj1 (byte_neutral v Hv)). reflexivity.
Qed.

Lemma color_scan_neutral nr nc px :
  0 < nc < 2 ^ 31 -> 0 < nr < 2 ^ 31 ->
  (length px <= Z.to_nat (nr * nc))%nat ->
  Forall channels_in_range px ->
  color_scan neutral_contrast neutral_whitebalance nr nc px
  = (px, (F32.zero, F32.zero, F32.zero)).
Proof.
  intros Hc Hr. induction px as [|v px IH] using rev_ind; intros Hlen Hpx.
  - reflexivity.
  - rewrite length_app in Hlen. cbn [length] in Hlen.
    apply Forall_app in Hpx. destruct Hpx as [Hpx Hv].
    rewrite color_scan_snoc, IH by (try lia; exact Hpx).
    unfold color_scan_step.
    destruct (scan_position nr nc (Z.of_nat (length px)) Hc Hr ltac:(lia)) as [Fx Fy].
    rewrite (contrast_factor_neutral _ _ Fx Fy).
    apply Forall_cons_1 in Hv. destruct Hv as [Hv _].
    destruct v as [[b g] r]. destruct Hv as (Hb & Hg & Hr').
    change (fat1 neutral_whitebalance 0) with F32.zero.
    change (fat1 neutral_whitebalance 1) with F32.one.
    change (fat1 neutral_whitebalance 2) with F32.zero.
    change (fat1 neutral_whitebalance 3) with F32.one.
    change (fat1 neutral_whitebalance 4) with F32.zero.
    change (fat1 neutral_whitebalance 5) with F32.one.
    rewrite (proj2 (byte_neutral b Hb)), (proj2 (byte_neutral g Hg)),
      (proj2 (byte_neutral r Hr')).
    reflexivity.
Qed.

Lemma neutral_correction_keeps img :
  raster img -> byte_samples img ->
  rows img < 2 ^ 31 -> cols img < 2 ^ 31 ->
  correct_pixels neutral_contrast neutral_whitebalance img = img.
Proof.
  intros (Hr & Hc & Hlen) Hb Hr' Hc'.
  destruct img as [nr nc [px|px]]; cbn [rows cols samples] in *;
    unfold byte_samples in Hb; cbn [samples] in Hb.
  - rewrite correct_pixels_gray by assumption.
    destruct px as [|v px'] eqn:Epx; [reflexivity|]. rewrite <- Epx in *.
    assert (0 < nr * nc) by (rewrite Epx in Hlen; cbn [length] in Hlen; lia).
    rewrite gray_scan_neutral by (try exact Hb; nia). reflexivity.
  - rewrite correct_pixels_color by assumption.
    destruct px as [|v px'] eqn:Epx; [reflexivity|]. rewrite <- Epx in *.
    assert (0 < nr * nc) by (rewrite Epx in Hlen; cbn [length] in Hlen; lia).
    rewrite color_scan_neutral by (try exact Hb; nia). reflexivity.
Qed.

(** ** Scaling by one *)

Lemma shr_exact p : forall m,
  0 <= m ->
  SpecFloat.iter_pos shr_1 p
    {| shr_m := m * 2 ^ Zpos p; shr_r := false; shr_s := false |}
  = {| shr_m := m; shr_r := false; shr_s := false |}.
Proof.
  assert (step : forall x, 0 <= x ->
            shr_1 {| shr_m := 2 * x; shr_r := false; shr_s := false |}
            = {| shr_m := x; shr_r := false; shr_s := false |}).
  { intros [|q|q] Hx; [reflexivity | reflexivity | lia]. }
  induction p as [p IH|p IH|]; intros m Hm; cbn [SpecFloat.iter_pos].
  - replace (m * 2 ^ Zpos p~1) with (2 * (m * 2 ^ Zpos p * 2 ^ Zpos p)).
    + assert (0 < 2 ^ Zpos p) by (apply Z.pow_pos_nonneg; lia).
      rewrite step by nia. rewrite IH by nia. apply IH. exact Hm.
    + replace (Zpos p~1) with (1 + Zpos p + Zpos p) by lia.
      rewrite !Z.pow_add_r by lia. change (2 ^ 1) with 2. ring.
  - replace (m * 2 ^ Zpos p~0) with (m * 2 ^ Zpos p * 2 ^ Zpos p).
    + assert (0 < 2 ^ Zpos p) by (apply Z.pow_pos_nonneg; lia).
      rewrite IH by nia. apply IH. exact Hm.
    + replace (Zpos p~0) with (Zpos p + Zpos p) by lia.
      rewrite Z.pow_add_r by lia. ring.
  - change (2 ^ 1) with 2. rewrite Z.mul_comm. apply step. exact Hm.
Qed.

(** Rounding [m * 2^k] at exponent [e - k], for a canonical [(m, e)]. *)
Lemma round_aux_shifted s m e k :
  bounded F32.prec F32.emax m e = true -> 0 <= k ->
  binary_round_aux F32.prec F32.emax s (Zpos m * 2 ^ k) (e - k) loc_Exact
  = S754_finite s m e.
Proof.
  intros Hb Hk. destruct (Z.eq_dec k 0) as [->|Hk0].
  { rewrite Z.sub_0_r. change (2 ^ 0) with 1. rewrite Z.mul_1_r.
    apply round_aux_canonical. exact Hb. }
  pose proof Hb as Hb'. unfold bounded, canonical_mantissa in Hb'.
  apply andb_prop in Hb'. destruct Hb' as [Hc Hle]. apply Z.eqb_eq in Hc.
  unfold binary_round_aux, shr_fexp.
  rewrite Zdigits2_mul_pow2 by lia. cbn [Zdigits2].
  replace (Zpos (digits2_pos m) + k + (e - k)) with (Zpos (digits2_pos m) + e) by lia.
  rewrite Hc. replace (e - (e - k)) with k by lia.
  destruct k as [|p|p]; [congruence| |lia].
  cbn [shr shr_record_of_loc]. rewrite shr_exact by lia.
  cbn [shr_m loc_of_shr_record round_nearest_even Zdigits2].
  replace (e - Zpos p + Zpos p) with e by lia.
  rewrite Hc, Z.sub_diag. cbn [shr shr_m]. rewrite Hle. reflexivity.
Qed.

Lemma mul_one x : is_binary32 x = true -> (x * F32.one)%f32 = x.
Proof.
  intros H. change F32.one with (S754_finite false 8388608 (-23)).
  destruct x as [[]|[]| |s m e]; try reflexivity.
  unfold F32.mul, SFmul. rewrite xorb_false_r.
  rewrite Pos2Z.inj_mul. change (Zpos 8388608) with (2 ^ 23).
  change (e + -23) with (e - 23).
  apply round_aux_shifted; [exact H | lia].
Qed.

Lemma div_one x : is_binary32 x = true -> (x / F32.one)%f32 = x.
Proof.
  intros H. change F32.one with (S754_finite false 8388608 (-23)).
  destruct x as [[]|[]| |s m e]; try reflexivity.
  unfold F32.div, SFdiv, SFdiv_core_binary. rewrite xorb_false_r.
  pose proof H as Hb. unfold is_binary32, valid_binary, bounded, canonical_mantissa in Hb.
  apply andb_prop in Hb. destruct Hb as [Hc Hle]. apply Z.eqb_eq in Hc.
  rewrite fexp32 in Hc.
  cbn [Zdigits2]. change (Zpos (digits2_pos 8388608)) with 24.
  rewrite fexp32.
  set (e' := Z.min (Z.max (Zpos (digits2_pos m) + e - (24 + -23) - 24) (-149)) (e - -23)).
  assert (He' : e' = e - 1 \/ e' = e) by (unfold e'; lia).
  assert (Hdiv : forall k, 0 <= k ->
            Z.div_eucl (Zpos m * 2 ^ k * 2 ^ 23) 8388608 = (Zpos m * 2 ^ k, 0)).
  { intros k Hk.
    pose proof (Z.div_mul (Zpos m * 2 ^ k) (2 ^ 23) ltac:(lia)) as Hq.
    pose proof (Z.mod_mul (Zpos m * 2 ^ k) (2 ^ 23) ltac:(lia)) as Hr.
    unfold Z.div, Z.modulo in Hq, Hr. change (2 ^ 23) with 8388608 in Hq, Hr.
    change (2 ^ 23) with 8388608.
    destruct (Z.div_eucl (Zpos m * 2 ^ k * 8388608) 8388608) as [q r].
    congruence. }
  destruct He' as [E|E]; rewrite E.
  - replace (e - -23 - (e - 1)) with 24 by lia.
    rewrite Z.shiftl_mul_pow2 by lia.
    change (2 ^ 24) with (2 ^ 1 * 2 ^ 23). rewrite Z.mul_assoc.
    rewrite Hdiv by lia. change (new_location 8388608 0) with loc_Exact.
    apply round_aux_shifted; [exact H | lia].
  - replace (e - -23 - e) with 23 by lia.
    rewrite Z.shiftl_mul_pow2 by lia.
    replace (Zpos m * 2 ^ 23) with (Zpos m * 2 ^ 0 * 2 ^ 23) by (change (2 ^ 0) with 1; lia).
    rewrite Hdiv by lia. change (new_location 8388608 0) with loc_Exact.
    replace e with (e - 0) at 1 by lia.
    apply round_aux_shifted; [exact H | lia].
Qed.

(** [(float)z] is exact for an integer of at most 24 bits. *)
Lemma of_int_exact z :
  - 2 ^ 24 < z < 2 ^ 24 ->
  is_binary32 (F32.of_int z) = true /\ F32.to_int (F32.of_int z) = z.
Proof.
  intros Hz.
  assert (Hp : forall s p, Zpos p < 2 ^ 24 ->
            is_binary32 (binary_round F32.prec F32.emax s p 0) = true /\
            F32.trunc (binary_round F32.prec F32.emax s p 0)
            = Some (if s then Zneg p else Zpos p)).
  { intros s p Hlt. unfold binary_round.
    assert (Hd : 1 <= Zpos (digits2_pos p) <= 24).
    { split; [lia|]. apply (Zdigits2_le (Zpos p) 24); lia. }
    destruct (shl_align_spec p 0 (fexp F32.prec F32.emax (Zpos (digits2_pos p) + 0)))
      as (mz & ez & E & Hez & Hmz).
    rewrite E. rewrite fexp32 in Hez.
    assert (Ez : ez = Zpos (digits2_pos p) - 24) by lia.
    assert (Hb : bounded F32.prec F32.emax mz ez = true).
    { unfold bounded, canonical_mantissa. apply andb_true_intro. split.
      - apply Z.eqb_eq. rewrite fexp32.
        change (Zpos (digits2_pos mz)) with (Zdigits2 (Zpos mz)).
        rewrite Hmz, Zdigits2_mul_pow2 by lia. cbn [Zdigits2]. lia.
      - apply Z.leb_le. change (F32.emax - F32.prec) with 104. lia. }
    rewrite round_aux_canonical by exact Hb.
    split; [exact Hb|].
    unfold F32.trunc.
    assert (Hv : match ez with
                 | Zneg q => Z.shiftr (Zpos mz) (Zpos q)
                 | _ => Z.shiftl (Zpos mz) ez
                 end = Zpos p).
    { destruct ez as [|q|q] eqn:Eq.
      - rewrite Z.shiftl_0_r, Hmz. change (2 ^ (0 - 0)) with 1. lia.
      - lia.
      - rewrite Z.shiftr_div_pow2 by lia. rewrite Hmz.
        replace (0 - Zneg q) with (Zpos q) by lia.
        apply Z.div_mul. apply Z.pow_nonzero; lia. }
    rewrite Hv. destruct s; reflexivity. }
  unfold F32.of_int, binary_normalize, F32.to_int.
  destruct z as [|p|p].
  - split; reflexivity.
  - destruct (Hp false p ltac:(lia)) as [V T]. rewrite T. split; [exact V|].
    assert (Hin : (F32.INT_MIN <=? Zpos p) && (Zpos p <=? F32.INT_MAX) = true).
    { unfold F32.INT_MIN, F32.INT_MAX.
      change (2 ^ 31) with 2147483648. change (2 ^ 24) with 16777216 in Hz.
      clear Hp V T. try change (Zneg p) with (- Zpos p) in *. lia. }
    rewrite Hin. reflexivity.
  - destruct (Hp true p ltac:(lia)) as [V T]. rewrite T. split; [exact V|].
    assert (Hin : (F32.INT_MIN <=? Zneg p) && (Zneg p <=? F32.INT_MAX) = true).
    { unfold F32.INT_MIN, F32.INT_MAX.
      change (2 ^ 31) with 2147483648. change (2 ^ 24) with 16777216 in Hz.
      clear Hp V T. try change (Zneg p) with (- Zpos p) in *. lia. }
    rewrite Hin. reflexivity.
Qed.

Lemma scale_int_one z :
  - 2 ^ 24 < z < 2 ^ 24 -> F32.to_int (F32.of_int z * F32.one)%f32 = z.
Proof.
  intros H. destruct (of_int_exact z H) as [V T]. rewrite mul_one by exact V. exact T.
Qed.

Lemma orderly_refl w : orderly w w.
Proof.
  split; [repeat split|]. split; [repeat split|].
  exists []. rewrite app_nil_r. split; [reflexivity | constructor].
Qed.

Lemma orderly_trans w1 w2 w3 : orderly w1 w2 -> orderly w2 w3 -> orderly w1 w3.
Proof.
  intros (D1 & I1 & ev1 & C1 & F1) (D2 & I2 & ev2 & C2 & F2).
  split. { unfold dependencies_held in *. intuition congruence. }
  split. { unfold identity_kept in *. intuition congruence. }
  exists (ev1 ++ ev2). split.
  - rewrite C2, C1, <- app_assoc. reflexivity.
  - apply Forall_app; auto.
Qed.

Lemma always_ret {A} (a : A) : always orderly (ret a).
Proof. intros w. apply orderly_refl. Qed.

Lemma always_throw {A} : always orderly (@throw A).
Proof. intros w. apply orderly_refl. Qed.

Lemma always_this : always orderly this.
Proof. intros w. apply orderly_refl. Qed.

Lemma always_deref {A} (p : option A) : always orderly (deref p).
Proof. intros w. destruct p; apply orderly_refl. Qed.

Lemma always_try_cv {A} (p : option A) : always orderly (try_cv p).
Proof. intros w. destruct p; apply orderly_refl. Qed.

Lemma always_emit e : conventional e -> always orderly (emit e).
Proof.
  intros He w. split; [repeat split|]. split; [repeat split|].
  exists [e]. split; [reflexivity | repeat constructor; exact He].
Qed.

Lemma always_modify f :
  (forall t, dependencies_held t (f t) /\ identity_kept t (f t)) ->
  always orderly (modify f).
Proof.
  intros Hf w. destruct (Hf (self w)) as [D I].
  split; [exact D|]. split; [exact I|].
  exists []. cbn. rewrite app_nil_r. split; [reflexivity | constructor].
Qed.

Lemma always_bind {A B} (m : M A) (k : A -> M B) :
  always orderly m -> (forall a, always orderly (k a)) -> always orderly (bind m k).
Proof.
  intros Hm Hk w. unfold bind. specialize (Hm w).
  destruct (m w) as [a w1|w1]; cbn in *; [|exact Hm].
  eapply orderly_trans; [exact Hm | apply Hk].
Qed.

Lemma always_when b m : always orderly m -> always orderly (when b m).
Proof. intros Hm. destruct b; [exact Hm | apply always_ret]. Qed.

Ltac always_tac :=
  repeat lazymatch goal with
    | |- always orderly (if ?b then _ else _) => destruct b
    | |- always orderly (match ?o with Some _ => _ | None => _ end) => destruct o
    | |- always orderly (match ?p with (_, _) => _ end) => destruct p
    | |- always orderly (bind _ _) => apply always_bind; [|intros]
    | |- always orderly (emit _) =>
        apply always_emit; cbn; repeat split; auto
    | |- always orderly this => apply always_this
    | |- always orderly (ret _) => apply always_ret
    | |- always orderly throw => apply always_throw
    | |- always orderly (deref _) => apply always_deref
    | |- always orderly (try_cv _) => apply always_try_cv
    | |- always orderly (when _ _) => apply always_when
    | |- always orderly (modify _) =>
        apply always_modify; intros; split; repeat split
    end.

(** X6. The ROI computed from the loader's crop information lies inside
    the padded image exactly when the original size does not exceed the
    padded size in either axis; otherwise the rectangle sticks out, and
    OpenCV refuses to cut it from an image of the padded size. *)
Theorem X6_crop_roi_inside c :
  0 <= orig_width c < 2 ^ 31 -> 0 <= orig_height c < 2 ^ 31 ->
  0 <= cols (load_img c) < 2 ^ 31 -> 0 <= rows (load_img c) < 2 ^ 31 ->
  (rect_inside (crop_roi c) (load_img c) = true <->
   orig_width c <= cols (load_img c) /\ orig_height c <= rows (load_img c)) /\
  (rect_inside (crop_roi c) (load_img c) = false ->
   Mat_roi (load_img c) (crop_roi c) = None).
Proof.
  intros Hw Hh Hc Hr. split.
  - unfold crop_roi.
    rewrite !(wrap_int_id (cols (load_img c) - orig_width c)) by lia.
    rewrite !(wrap_int_id (rows (load_img c) - orig_height c)) by lia.
    rewrite !wrap_int_id by lia.
    unfold rect_inside. cbn [rx ry rwidth rheight].
    set (ex := cols (load_img c) - orig_width c).
    set (ey := rows (load_img c) - orig_height c).
    assert (Qx : (0 <= ex -> 0 <= Z.quot ex 2 <= ex) /\ (ex < 0 -> ex < Z.quot ex 2)).
    { split; intros H.
      - rewrite Z.quot_div_nonneg by lia. split; [apply Z.div_pos; lia|].
        apply Z.div_le_upper_bound; lia.
      - replace ex with (- (- ex)) at 2 by lia.
        rewrite Z.quot_opp_l by lia. rewrite Z.quot_div_nonneg by lia.
        assert ((- ex) / 2 < - ex) by (apply Z.div_lt_upper_bound; lia). lia. }
    assert (Qy : (0 <= ey -> 0 <= Z.quot ey 2 <= ey) /\ (ey < 0 -> ey < Z.quot ey 2)).
    { split; intros H.
      - rewrite Z.quot_div_nonneg by lia. split; [apply Z.div_pos; lia|].
        apply Z.div_le_upper_bound; lia.
      - replace ey with (- (- ey)) at 2 by lia.
        rewrite Z.quot_opp_l by lia. rewrite Z.quot_div_nonneg by lia.
        assert ((- ey) / 2 < - ey) by (apply Z.div_lt_upper_bound; lia). lia. }
    destruct Qx as [Qx1 Qx2], Qy as [Qy1 Qy2].
    unfold ex, ey in *. clear ex ey.
    rewrite !andb_true_iff, !Z.leb_le.
    split.
    + intros H. split.
      * destruct (Z_lt_le_dec (cols (load_img c) - orig_width c) 0) as [N|N]; [|lia].
        specialize (Qx2 N). lia.
      * destruct (Z_lt_le_dec (rows (load_img c) - orig_height c) 0) as [N|N]; [|lia].
        specialize (Qy2 N). lia.
    + intros [Hx Hy]. specialize (Qx1 ltac:(lia)). specialize (Qy1 ltac:(lia)). lia.
  - intros H. unfold Mat_roi. rewrite H. reflexivity.
Qed.

(** X8. The right-hand side of the contrast system is the ratio of the
    reference sample to the source sample, with no guard on the divisor:
    a source sample of zero puts an infinity there (a NaN when the
    reference sample is zero as well); a non-zero source sample gives a
    finite ratio. *)
Theorem X8_contrast_target_unguarded ref src y x :
  0 <= y < 64 -> 0 <= x < 64 ->
  0 <= at_u8 ref y x <= 255 -> 0 <= at_u8 src y x <= 255 ->
  let rhs := fst (contrast_system 64 64 ref src) in
  fat1 rhs (y * 64 + x)
  = (F32.of_int (at_u8 ref y x) / F32.of_int (at_u8 src y x))%f32 /\
  (at_u8 src y x = 0 ->
   fat1 rhs (y * 64 + x)
   = if at_u8 ref y x =? 0 then S754_nan else S754_infinity false) /\
  (at_u8 src y x <> 0 -> is_finite (fat1 rhs (y * 64 + x)) = true).
Proof.
  intros Hy Hx Hr Hs rhs.
  pose proof (contrast_sample_rows ref src) as H.
  destruct (contrast_system 64 64 ref src) as [contrast positions] eqn:E.
  destruct H as (_ & _ & H). specialize (H y x Hy Hx).
  destruct H as (Hc & _).
  unfold rhs. cbn [fst]. rewrite Hc.
  split; [reflexivity|]. split.
  - intros ->. change (F32.of_int 0) with (S754_zero false).
    destruct (Z.eqb_spec (at_u8 ref y x) 0) as [->|Hne]; [reflexivity|].
    destruct (of_int_shape (at_u8 ref y x) Hne) as (m & e & -> & _).
    { change (2 ^ 31) with 2147483648. lia. }
    assert ((at_u8 ref y x <? 0) = false) as -> by lia. reflexivity.
  - intros Hne.
    destruct (of_int_shape (at_u8 src y x) Hne) as (m & e & -> & He & _).
    { change (2 ^ 31) with 2147483648. lia. }
    apply (finite_upto_is_finite (33 + 24) (-149)).
    apply div_finite; [|exact He | lia].
    eapply finite_upto_weaken; [| |apply of_int_finite].
    + lia.
    + lia.
    + change (2 ^ 31) with 2147483648. lia.
Qed.

(** ** A pass at full size *)

Lemma scale_rect_one r : small_rect r -> scale_rect r F32.one = r.
Proof.
  intros (Hx & Hy & Hw & Hh). unfold scale_rect.
  rewrite !scale_int_one by assumption. destruct r; reflexivity.
Qed.

Lemma scale_translation_one T :
  is_2x3 T = true -> binary32_translation T -> scale_translation T F32.one = T.
Proof.
  intros H [V1 V2]. destruct (is_2x3_inv T H) as [a ->].
  rewrite scale_translation_affine.
  change (fat (FMat_of_affine a) 0 2) with (a02 a) in V1.
  change (fat (FMat_of_affine a) 1 2) with (a12 a) in V2.
  rewrite !mul_one by assumption. destruct a; reflexivity.
Qed.

Lemma unscale_translation_one a :
  is_binary32 (a02 a) = true -> is_binary32 (a12 a) = true ->
  unscale_translation (FMat_of_affine a) F32.one = FMat_of_affine a.
Proof.
  intros V1 V2. rewrite unscale_translation_affine.
  rewrite !div_one by assumption. destruct a; reflexivity.
Qed.

Lemma mask_of_rect_outside nr nc r m :
  rows m = nr -> cols m = nc -> rect_inside r m = false -> mask_of_rect nr nc r = None.
Proof.
  intros <- <- H. unfold mask_of_rect.
  change (rect_inside r (mkMat (rows m) (cols m) _)) with (rect_inside r m).
  rewrite H. reflexivity.
Qed.

(** X1. The models the constructor installs correct nothing: on a task
    as constructed, [apply_contrast_whitebalance] returns every 8-bit
    image, gray or colour and of any size, exactly as it got it. *)
Theorem X1_constructed_models_correct_nothing
    refgray refcolor srcgray srccolor guess crop flags log img :
  let t := Task_Align_new refgray refcolor srcgray srccolor guess crop flags in
  image img ->
  apply_contrast_whitebalance img (mkWorld t log)
  = Returned img (mkWorld t (log ++ [Enter M_apply_contrast_whitebalance])).
Proof.
  intros t (Hr & Hb & Hrows & Hcols).
  unfold apply_contrast_whitebalance, bind, emit, this, ret. cbn [self calls].
  change (m_contrast t) with neutral_contrast.
  change (m_whitebalance t) with neutral_whitebalance.
  rewrite neutral_correction_keeps by assumption. reflexivity.
Qed.

(** ** The size of the corrected image *)

Lemma for_loop_preserves {St : Type} (Q : St -> Prop) (body : Z -> St -> St) :
  (forall j t, Q t -> Q (body j t)) ->
  forall n i s, Q s -> Q (for_loop n i body s).
Proof.
  intros Hstep. induction n as [|n IH]; intros i s Hs; cbn [for_loop].
  - exact Hs.
  - apply IH. apply Hstep. exact Hs.
Qed.

Lemma for_range_preserves {St : Type} (Q : St -> Prop) (body : Z -> St -> St) hi s :
  (forall j t, Q t -> Q (body j t)) -> Q s -> Q (for_range hi body s).
Proof. intros Hstep Hs. unfold for_range. apply for_loop_preserves; assumption. Qed.

Lemma gray_pixel_size C y x st :
  rows (snd (gray_pixel C y x st)) = rows (snd st) /\
  cols (snd (gray_pixel C y x st)) = cols (snd st).
Proof.
  destruct st as [delta img]. unfold gray_pixel.
  destruct (dither _ delta) as [v' d']. cbn [snd].
  unfold set_u8. destruct (samples img); split; reflexivity.
Qed.

Lemma color_pixel_size C W y x st :
  rows (snd (color_pixel C W y x st)) = rows (snd st) /\
  cols (snd (color_pixel C W y x st)) = cols (snd st).
Proof.
  destruct st as [[[d0 d1] d2] img]. unfold color_pixel.
  destruct (at_vec3b img y x) as [[v0 v1] v2].
  destruct (dither _ d0) as [v0' d0'], (dither _ d1) as [v1' d1'],
    (dither _ d2) as [v2' d2']. cbn [snd].
  unfold set_vec3b. destruct (samples img); split; reflexivity.
Qed.

(** The correction keeps the size of the image, whatever the models. *)
Lemma correct_pixels_size C W img :
  rows (correct_pixels C W img) = rows img /\
  cols (correct_pixels C W img) = cols img.
Proof.
  unfold correct_pixels. destruct (channels img =? 1).
  - apply (for_range_preserves
             (fun st : F32.t * Mat =>
                rows (snd st) = rows img /\ cols (snd st) = cols img));
      [|split; reflexivity].
    intros y st Hst. apply for_range_preserves; [|exact Hst].
    intros x st' [Hr Hc]. destruct (gray_pixel_size C y x st') as [-> ->].
    split; assumption.
  - apply (for_range_preserves
             (fun st : (F32.t * F32.t * F32.t) * Mat =>
                rows (snd st) = rows img /\ cols (snd st) = cols img));
      [|split; reflexivity].
    intros y st Hst. apply for_range_preserves; [|exact Hst].
    intros x st' [Hr Hc]. destruct (color_pixel_size C W y x st') as [-> ->].
    split; assumption.
Qed.

(** ** The ROI of a whole image *)

Lemma chunks_take {A} (c : nat) (px : list A) : forall n k,
  flat_map (fun y => take c (drop (y * c) px)) (seq k n)
  = take (n * c) (drop (k * c) px).
Proof.
  induction n as [|n IH]; intros k; cbn [seq flat_map].
  - reflexivity.
  - rewrite IH. change (S n * c)%nat with (c + n * c)%nat.
    rewrite <- take_take_drop, drop_drop.
    replace (S k * c)%nat with (k * c + c)%nat by lia. reflexivity.
Qed.

Lemma crop_rows_full {A} nr nc (px : list A) :
  0 <= nr -> 0 <= nc -> length px = Z.to_nat (nr * nc) ->
  crop_rows (mkRect 0 0 nc nr) nc px = px.
Proof.
  intros Hr Hc Hlen. unfold crop_rows. cbn [rx ry rwidth rheight].
  rewrite (flat_map_ext _ (fun y => take (Z.to_nat nc) (drop (y * Z.to_nat nc) px))).
  - rewrite chunks_take. cbn [Nat.mul]. rewrite drop_0.
    apply take_ge. rewrite Hlen. rewrite Z2Nat.inj_mul by lia. lia.
  - intros y. f_equal. f_equal.
    rewrite Z.add_0_l, Z.add_0_r, Z2Nat.inj_mul, Nat2Z.id by lia. reflexivity.
Qed.

Lemma Mat_roi_full m :
  raster m -> Mat_roi m (mkRect 0 0 (cols m) (rows m)) = Some m.
Proof.
  intros (Hr & Hc & Hlen). unfold Mat_roi, rect_inside. cbn [rx ry rwidth rheight].
  replace ((0 <=? 0) && (0 <=? cols m) && (0 + cols m <=? cols m) && (0 <=? 0)
           && (0 <=? rows m) && (0 + rows m <=? rows m)) with true by lia.
  destruct m as [nr nc [px|px]]; cbn [rows cols samples] in *;
    rewrite crop_rows_full by assumption; reflexivity.
Qed.

Section Coverage.

Variables ALIGN_FULL_RESOLUTION ALIGN_NO_WHITEBALANCE ALIGN_NO_CONTRAST : Z.
Variable resize_impl : Mat -> ResizeSpec -> Z -> option Mat.
Variable warpAffine_impl : Mat -> FMat -> Z * Z -> Z -> Z -> option Mat.
Variable findTransformECC_impl :
  Mat -> Mat -> FMat -> Z -> TermCriteria -> Mat -> option Affine.
Variable solve_impl : FMat -> FMat -> Z -> option FMat.

Local Abbreviation match_transform_ := (match_transform resize_impl findTransformECC_impl).
Local Abbreviation cv_resize_ := (cv_resize resize_impl).
Local Abbreviation apply_transform_ := (apply_transform warpAffine_impl).
Local Abbreviation match_contrast_ :=
  (match_contrast resize_impl warpAffine_impl solve_impl).
Local Abbreviation match_whitebalance_ :=
  (match_whitebalance resize_impl warpAffine_impl solve_impl).
Local Abbreviation register_ :=
  (register ALIGN_FULL_RESOLUTION ALIGN_NO_WHITEBALANCE ALIGN_NO_CONTRAST
     resize_impl warpAffine_impl findTransformECC_impl solve_impl).
Local Abbreviation task_ :=
  (task ALIGN_FULL_RESOLUTION ALIGN_NO_WHITEBALANCE ALIGN_NO_CONTRAST
     resize_impl warpAffine_impl findTransformECC_impl solve_impl).

Lemma always_apply_transform src : always orderly (apply_transform_ src false).
Proof. unfold apply_transform, cv_warpAffine. always_tac. Qed.

Lemma always_apply_contrast_whitebalance m :
  always orderly (apply_contrast_whitebalance m).
Proof. unfold apply_contrast_whitebalance. always_tac. Qed.

Lemma always_match_transform cap rough : always orderly (match_transform_ cap rough).
Proof.
  unfold match_transform, cv_findTransformECC, cv_resize.
  destruct rough.
  all: always_tac; try apply always_apply_contrast_whitebalance.
  all: always_tac.
Qed.

Lemma always_match_contrast : always orderly match_contrast_.
Proof.
  unfold match_contrast, cv_solve, cv_resize. cbv zeta.
  always_tac; try apply always_apply_transform.
  all: always_tac.
Qed.

Lemma always_match_whitebalance : always orderly match_whitebalance_.
Proof.
  unfold match_whitebalance, cv_solve, cv_resize. cbv zeta.
  always_tac; try apply always_apply_transform;
    try apply always_apply_contrast_whitebalance.
  all: always_tac.
Qed.

Ltac always_steps :=
  repeat (always_tac;
          lazymatch goal with
          | |- always orderly (match_transform _ _ _ _) => apply always_match_transform
          | |- always orderly (match_contrast _ _ _) => apply always_match_contrast
          | |- always orderly (match_whitebalance _ _ _) =>
              apply always_match_whitebalance
          | |- always orderly (apply_transform _ _ _) => apply always_apply_transform
          | |- always orderly (apply_contrast_whitebalance _) =>
              apply always_apply_contrast_whitebalance
          end).

Lemma always_register : always orderly register_.
Proof. unfold register. always_steps. Qed.

(** X10. A run that throws releases nothing: the six dependency pointers
    are as the run found them (the [reset()] calls are not reached), and
    so are the file name, the name, the flags and the dependency list. *)
Theorem X10_thrown_run_holds_dependencies w w' :
  task_ w = Thrown w' ->
  dependencies_held (self w) (self w') /\ identity_kept (self w) (self w').
Proof.
  intros H. unfold task in H.
  apply bind_Thrown in H. destruct H as [H|(t & w0 & H0 & H)]; [discriminate|].
  unfold this in H0. injection H0 as <- <-.
  apply bind_Thrown in H. destruct H as [H|(a & w1 & _ & H)]; [|discriminate].
  destruct (shared_ptr_eqb _ _).
  - apply bind_Thrown in H. destruct H as [H|(a & w1 & _ & H)]; [|discriminate].
    destruct (m_srccolor (self w)); [discriminate|].
    unfold deref, throw in H. injection H as <-. split; repeat split.
  - pose proof (always_register w) as (D & I & _). rewrite H in D, I.
    split; assumption.
Qed.

(** X11. Whatever a run does and however it ends, every call it adds to
    the log is of the conventional kind, and the file name, the name, the
    flags and the dependency list of the task are untouched. *)
Theorem X11_calls_conventional w :
  identity_kept (self w) (self (world_of (task_ w))) /\
  exists ev, calls (world_of (task_ w)) = calls w ++ ev /\ Forall conventional ev.
Proof.
  set (body := if shared_ptr_eqb (m_refcolor (self w)) (m_srccolor (self w))
               then let* srccolor := deref (m_srccolor (self w)) in
                    modify (fun t => set_result t (img srccolor))
               else register_).
  assert (Hbody : orderly w (world_of (body w))).
  { unfold body. destruct (shared_ptr_eqb _ _).
    - apply always_bind; [apply always_deref | intros sc].
      apply always_modify. intros t. split; repeat split.
    - apply always_register. }
  change (task_ w) with (bind body (fun _ => modify reset_dependencies) w).
  unfold bind. destruct (body w) as [a w1|w1]; cbn [world_of] in *.
  - destruct Hbody as (_ & I & L). cbn. split; [exact I | exact L].
  - destruct Hbody as (_ & I & L). split; [exact I | exact L].
Qed.

(** The grayscale branch does not read the white balance. *)
Lemma correct_pixels_gray_only C W W' img :
  channels img = 1 -> correct_pixels C W img = correct_pixels C W' img.
Proof. intros H. unfold correct_pixels. rewrite H. reflexivity. Qed.

Lemma pass_inputs_fun R S cap ratio ref src evs ratio' ref' src' evs' :
  pass_inputs resize_impl R S cap ratio ref src evs ->
  pass_inputs resize_impl R S cap ratio' ref' src' evs' ->
  ratio = ratio' /\ ref = ref' /\ src = src' /\ evs = evs'.
Proof.
  intros [H|r1 a1 b1 H -> Ha Hb] [H'|r2 a2 b2 H' -> Ha' Hb']; try lia.
  - repeat split.
  - rewrite Ha in Ha'. rewrite Hb in Hb'.
    injection Ha' as <-. injection Hb' as <-. repeat split.
Qed.

Lemma pass_inputs_full R S cap ratio ref src evs :
  pass_inputs resize_impl R S cap ratio ref src evs ->
  Z.max (cols R) (rows R) <= cap ->
  ratio = F32.one /\ ref = R /\ src = S /\ evs = [].
Proof. intros [H|r a b H -> Ha Hb] Hcap; [repeat split | lia]. Qed.

Lemma pass_inputs_reduced R S cap ratio ref src evs :
  pass_inputs resize_impl R S cap ratio ref src evs ->
  cap < Z.max (cols R) (rows R) ->
  ratio = (F32.of_int cap / F32.of_int (Z.max (cols R) (rows R)))%f32 /\
  resize_impl R (ByFactor ratio ratio) cv.INTER_AREA = Some ref /\
  resize_impl S (ByFactor ratio ratio) cv.INTER_AREA = Some src.
Proof. intros [H|r a b H -> Ha Hb] Hcap; [lia | repeat split; assumption]. Qed.

Lemma pass_inputs_channels R S cap ratio ref src evs :
  (forall src spec i out,
     resize_impl src spec i = Some out -> channels out = channels src) ->
  pass_inputs resize_impl R S cap ratio ref src evs ->
  channels src = channels S.
Proof.
  intros Hres [H|r a b H -> Ha Hb]; [reflexivity|].
  apply (Hres _ _ _ _ Hb).
Qed.

(** Two geometric passes from states that agree on what the search reads
    ask ECC the same question and leave the same transformation. *)
Lemma match_transform_agree cap rough wa wb wa' wb' :
  (forall src spec i out,
     resize_impl src spec i = Some out -> channels out = channels src) ->
  (forall g, m_srcgray (self wa) = Some g -> channels (img g) = 1) ->
  geometry (self wa) = geometry (self wb) ->
  ecc_calls wa = ecc_calls wb ->
  match_transform_ cap rough wa = Returned tt wa' ->
  match_transform_ cap rough wb = Returned tt wb' ->
  geometry (self wa') = geometry (self wb') /\
  ecc_calls wa' = ecc_calls wb' /\
  m_srcgray (self wa') = m_srcgray (self wa).
Proof.
  intros Hres Hgray Hg Hlog Ha Hb.
  apply match_transform_Returned in Ha, Hb.
  destruct Ha as (rg & sg & ratio & ref & src & evs & mask & a
                  & Hrg & Hsg & Hin & Hmask & _ & Hecc & Hcalls & Hself).
  destruct Hb as (rg' & sg' & ratio' & ref' & src' & evs' & mask' & a'
                  & Hrg' & Hsg' & Hin' & Hmask' & _ & Hecc' & Hcalls' & Hself').
  unfold geometry in Hg. injection Hg as G1 G2 G3 G4 G5.
  rewrite <- G1, Hrg in Hrg'. injection Hrg' as <-.
  rewrite <- G2, Hsg in Hsg'. injection Hsg' as <-.
  destruct (pass_inputs_fun _ _ _ _ _ _ _ _ _ _ _ Hin Hin') as (<- & <- & <- & <-).
  rewrite <- G3, Hmask in Hmask'. injection Hmask' as <-.
  assert (Hch : channels src = 1).
  { rewrite (pass_inputs_channels _ _ _ _ _ _ _ Hres Hin). apply Hgray. exact Hsg. }
  rewrite <- G4, <- G5 in Hecc'.
  rewrite (correct_pixels_gray_only _ _ (m_whitebalance (self wa)) _ Hch) in Hecc'.
  rewrite Hecc in Hecc'. injection Hecc' as <-.
  rewrite Hself, Hself'. unfold geometry. cbn [set_transformation m_refgray m_srcgray
    m_roi m_transformation m_contrast m_whitebalance].
  split; [congruence|]. split; [|reflexivity].
  unfold ecc_calls. rewrite Hcalls, Hcalls'.
  rewrite !List.filter_app. cbn [List.filter is_ecc_call].
  rewrite !List.filter_app. cbn [List.filter is_ecc_call].
  fold (ecc_calls wa). fold (ecc_calls wb). rewrite Hlog.
  rewrite <- G4, <- G5.
  rewrite (correct_pixels_gray_only _ (m_whitebalance (self wb))
             (m_whitebalance (self wa)) _ Hch).
  reflexivity.
Qed.

Lemma match_contrast_agree wa wb wa' wb' :
  geometry (self wa) = geometry (self wb) ->
  ecc_calls wa = ecc_calls wb ->
  match_contrast_ wa = Returned tt wa' ->
  match_contrast_ wb = Returned tt wb' ->
  geometry (self wa') = geometry (self wb') /\
  ecc_calls wa' = ecc_calls wb' /\
  m_srcgray (self wa') = m_srcgray (self wa).
Proof.
  intros Hg Hlog Ha Hb.
  apply match_contrast_Returned in Ha, Hb.
  destruct Ha as (rg & sg & rw & rr & rawr & sr & raws & sol & Ha). cbv zeta in Ha.
  destruct Ha as (Hrg & Hsg & Hw & Hrr & Hrawr & Hsr & Hraws & Hsol & Hcalls & Hself).
  destruct Hb as (rg' & sg' & rw' & rr' & rawr' & sr' & raws' & sol' & Hb). cbv zeta in Hb.
  destruct Hb as (Hrg' & Hsg' & Hw' & Hrr' & Hrawr' & Hsr' & Hraws' & Hsol' & Hcalls' & Hself').
  unfold geometry in Hg. injection Hg as G1 G2 G3 G4 G5.
  rewrite <- G1, Hrg in Hrg'. injection Hrg' as <-.
  rewrite <- G2, Hsg in Hsg'. injection Hsg' as <-.
  rewrite <- G4, Hw in Hw'. injection Hw' as <-.
  rewrite <- G3, Hrr in Hrr'. injection Hrr' as <-.
  rewrite Hrawr in Hrawr'. injection Hrawr' as <-.
  rewrite <- G3, Hsr in Hsr'. injection Hsr' as <-.
  rewrite Hraws in Hraws'. injection Hraws' as <-.
  rewrite Hsol in Hsol'. injection Hsol' as <-.
  rewrite Hself, Hself'. unfold geometry.
  cbn [set_contrast m_refgray m_srcgray m_roi m_transformation m_contrast].
  split; [congruence|]. split; [|reflexivity].
  unfold ecc_calls. rewrite Hcalls, Hcalls', !List.filter_app.
  cbn [List.filter is_ecc_call]. fold (ecc_calls wa). fold (ecc_calls wb).
  rewrite Hlog. reflexivity.
Qed.

Lemma match_whitebalance_aside w w' :
  match_whitebalance_ w = Returned tt w' ->
  geometry (self w') = geometry (self w) /\ ecc_calls w' = ecc_calls w.
Proof.
  intros H. apply match_whitebalance_Returned in H.
  destruct H as (rc & sc & rw & rr & rawr & sr & raws & sol & H). cbv zeta in H.
  destruct H as (_ & _ & _ & _ & _ & _ & _ & _ & Hcalls & Hself).
  rewrite Hself. split; [reflexivity|].
  unfold ecc_calls. rewrite Hcalls, List.filter_app. cbn [List.filter is_ecc_call].
  apply app_nil_r.
Qed.

Lemma when_whitebalance_aside (b : bool) w w' :
  when b match_whitebalance_ w = Returned tt w' ->
  geometry (self w') = geometry (self w) /\ ecc_calls w' = ecc_calls w.
Proof.
  intros H. apply when_Returned in H. destruct H as [[_ H]|[_ ->]].
  - apply match_whitebalance_aside. exact H.
  - split; reflexivity.
Qed.

(** X9. Colour never moves the image.  The geometric search reads the
    gray images, the ROI and the contrast model, and nothing of the colour
    images but the size of the source: two tasks on the same gray images
    whose colour images differ in content, and whose flags differ at most
    in [ALIGN_NO_WHITEBALANCE], ask ECC the same two questions and end
    with the same transformation and the same contrast model.  The
    grayscale branch of the correction does not read the white balance. *)
Theorem X9_colour_never_moves
    refgray srcgray guess crop
    refcolor srccolor flags refcolor' srccolor' flags' w1 w2 :
  let t := Task_Align_new refgray refcolor srcgray srccolor guess crop flags in
  let t' := Task_Align_new refgray refcolor' srcgray srccolor' guess crop flags' in
  (forall src spec i out,
     resize_impl src spec i = Some out -> channels out = channels src) ->
  channels (img srcgray) = 1 ->
  addr refcolor <> addr srccolor ->
  addr refcolor' <> addr srccolor' ->
  rows (img srccolor') = rows (img srccolor) ->
  cols (img srccolor') = cols (img srccolor) ->
  flag_set flags ALIGN_NO_CONTRAST = flag_set flags' ALIGN_NO_CONTRAST ->
  flag_set flags ALIGN_FULL_RESOLUTION = flag_set flags' ALIGN_FULL_RESOLUTION ->
  task_ (mkWorld t []) = Returned tt w1 ->
  task_ (mkWorld t' []) = Returned tt w2 ->
  ecc_calls w1 = ecc_calls w2 /\
  m_transformation (self w1) = m_transformation (self w2) /\
  m_contrast (self w1) = m_contrast (self w2).
Proof.
  intros t t' Hres Hgray Hne Hne' Hrows Hcols Hc Hf H1 H2.
  apply task_Returned in H1, H2. cbn [self calls] in H1, H2.
  destruct H1 as [(E1 & _)|(_ & v1 & R1 & ->)].
  { cbn in E1. apply Z.eqb_eq in E1. contradiction. }
  destruct H2 as [(E2 & _)|(_ & v2 & R2 & ->)].
  { cbn in E2. apply Z.eqb_eq in E2. contradiction. }
  apply register_Returned in R1, R2.
  destruct R1 as (roi & sc & a1 & a2 & a3 & a4 & raw & R1). cbv zeta in R1.
  destruct R1 as (Hroi & Hsc & A1 & A2 & A3 & A4 & _ & Aself & Acalls).
  destruct R2 as (roi' & sc' & b1 & b2 & b3 & b4 & raw' & R2). cbv zeta in R2.
  destruct R2 as (Hroi' & Hsc' & B1 & B2 & B3 & B4 & _ & Bself & Bcalls).
  cbn [self calls] in *.
  cbn in Hsc, Hsc'. injection Hsc as <-. injection Hsc' as <-.
  assert (roi' = roi) as ->.
  { unfold roi_for in Hroi, Hroi'. cbn in Hroi, Hroi'.
    destruct crop; [congruence|].
    rewrite Hrows, Hcols in Hroi'. congruence. }
  (* the rough pass *)
  pose proof (fun Hgr Hge Hlo =>
                match_transform_agree 256 true _ _ _ _ Hres Hgr Hge Hlo A1 B1) as P1.
  destruct P1 as (G1 & L1 & S1).
  { cbn. unfold seeded. cbn. destruct guess; cbn; intros g [= <-]; exact Hgray. }
  { unfold geometry, seeded. cbn. destruct guess; reflexivity. }
  { reflexivity. }
  assert (S1' : m_srcgray (self a1) = Some srcgray).
  { rewrite S1. unfold seeded. cbn. destruct guess; reflexivity. }
  (* the contrast fit *)
  assert (G2 : geometry (self a2) = geometry (self b2) /\ ecc_calls a2 = ecc_calls b2 /\
               m_srcgray (self a2) = Some srcgray).
  { unfold contrast_enabled in A2, B2. cbn [m_flags t t' Task_Align_new] in A2, B2.
    rewrite <- Hc in B2.
    apply when_Returned in A2, B2.
    destruct A2 as [[Ea A2]|[Ea ->]], B2 as [[Eb B2]|[Eb ->]]; try congruence.
    - destruct (match_contrast_agree _ _ _ _ G1 L1 A2 B2) as (G & L & S).
      repeat split; try assumption. congruence.
    - repeat split; assumption. }
  destruct G2 as (G2 & L2 & S2).
  (* the white-balance fit, on either side *)
  apply when_whitebalance_aside in A3, B3.
  destruct A3 as (GA3 & LA3), B3 as (GB3 & LB3).
  assert (S3 : m_srcgray (self a3) = Some srcgray).
  { unfold geometry in GA3. injection GA3 as _ X _ _ _. congruence. }
  (* the final pass *)
  unfold final_cap in A4, B4. cbn [m_flags t t' Task_Align_new] in A4, B4.
  rewrite <- Hf, Hrows, Hcols in B4.
  pose proof (fun Hgr Hge Hlo =>
                match_transform_agree _ false _ _ _ _ Hres Hgr Hge Hlo A4 B4) as P4.
  destruct P4 as (G4 & L4 & _).
  { intros g Hg. rewrite S3 in Hg. injection Hg as <-. exact Hgray. }
  { congruence. }
  { congruence. }
  unfold geometry in G4. injection G4 as _ _ _ GT GC.
  rewrite Aself, Bself. cbn [self calls reset_dependencies set_result
    m_transformation m_contrast].
  split; [|split; assumption].
  unfold ecc_calls in *. cbn [calls]. rewrite Acalls, Bcalls, !List.filter_app.
  cbn [List.filter is_ecc_call]. rewrite L4.
  f_equal. f_equal.
  destruct (_ || _), (_ || _); reflexivity.
Qed.

(** X4. A pass that needs no reduction is exact.  When the longer side of
    the gray reference is within the cap, the pass works on the images
    themselves with a ratio of one, and nothing is lost to the scaling:
    the mask is 255 on the ROI itself, ECC is handed the transformation as
    the task holds it, and the transformation the pass leaves is ECC's
    answer as it is. *)
Theorem X4_unreduced_pass_exact cap rough w w' refgray srcgray :
  m_refgray (self w) = Some refgray ->
  m_srcgray (self w) = Some srcgray ->
  Z.max (cols (img refgray)) (rows (img refgray)) <= cap ->
  small_rect (m_roi (self w)) ->
  binary32_translation (m_transformation (self w)) ->
  match_transform_ cap rough w = Returned tt w' ->
  exists mask a,
    let src := correct_pixels (m_contrast (self w)) (m_whitebalance (self w))
                 (img srcgray) in
    mask_of_rect (rows (img refgray)) (cols (img refgray)) (m_roi (self w))
      = Some mask /\
    (forall y x, 0 <= y < rows (img refgray) -> 0 <= x < cols (img refgray) ->
       at_u8 mask y x = if in_rect (m_roi (self w)) y x then 255 else 0) /\
    findTransformECC_impl (img refgray) src (m_transformation (self w))
      cv.MOTION_AFFINE (pass_criteria rough) mask = Some a /\
    calls w' = calls w
      ++ [Enter (M_match_transform cap rough);
          Enter M_apply_contrast_whitebalance;
          CvFindTransformECC (img refgray) src (m_transformation (self w))
            cv.MOTION_AFFINE (pass_criteria rough) mask] /\
    (is_binary32 (a02 a) = true -> is_binary32 (a12 a) = true ->
     m_transformation (self w') = FMat_of_affine a).
Proof.
  intros Hrg Hsg Hcap Hroi HT H.
  apply match_transform_Returned in H.
  destruct H as (rg & sg & ratio & ref & src & evs & mask & a
                 & Hrg' & Hsg' & Hin & Hmask & H2x3 & Hecc & Hcalls & Hself).
  rewrite Hrg in Hrg'. injection Hrg' as <-.
  rewrite Hsg in Hsg'. injection Hsg' as <-.
  destruct Hin as [_|r0 a0 b0 Hlt _ _ _]; [|lia].
  rewrite scale_translation_is_2x3 in H2x3.
  rewrite scale_rect_one in Hmask by exact Hroi.
  rewrite scale_translation_one in Hecc, Hcalls by assumption.
  exists mask, a. cbv zeta.
  split; [exact Hmask|]. split.
  { apply mask_of_rect_spec in Hmask. destruct Hmask as (_ & _ & _ & Hpx). exact Hpx. }
  split; [exact Hecc|]. split; [exact Hcalls|].
  intros V1 V2. rewrite Hself. cbn [set_transformation m_transformation].
  apply unscale_translation_one; assumption.
Qed.

Lemma match_transform_roi_outside cap rough w refgray srcgray :
  m_refgray (self w) = Some refgray ->
  m_srcgray (self w) = Some srcgray ->
  Z.max (cols (img refgray)) (rows (img refgray)) <= cap ->
  small_rect (m_roi (self w)) ->
  rect_inside (m_roi (self w)) (img refgray) = false ->
  match_transform_ cap rough w
  = Thrown (mkWorld (self w) (calls w ++ [Enter (M_match_transform cap rough)])).
Proof.
  intros Hrg Hsg Hcap Hroi Hout.
  unfold match_transform, bind, emit, this. cbn [self calls].
  rewrite Hrg, Hsg. cbn [deref ret].
  rewrite (proj2 (Z.leb_le _ _) Hcap). cbn [ret].
  rewrite scale_rect_one by exact Hroi.
  rewrite (mask_of_rect_outside _ _ _ (img refgray)) by (reflexivity || exact Hout).
  reflexivity.
Qed.

(** X5. A ROI that does not fit the gray reference stops the run at once.
    When the reference needs no reduction for the rough pass and the ROI
    (from the crop information, or the size of the colour source) sticks
    out of it, the run throws on building the mask: ECC is never called,
    nothing is published, and the log shows the rough pass entered and
    nothing more. *)
Theorem X5_roi_outside_reference w refgray srcgray roi :
  shared_ptr_eqb (m_refcolor (self w)) (m_srccolor (self w)) = false ->
  m_refgray (self w) = Some refgray ->
  m_srcgray (self w) = Some srcgray ->
  roi_for (self w) = Some roi ->
  Z.max (cols (img refgray)) (rows (img refgray)) <= 256 ->
  small_rect roi ->
  rect_inside roi (img refgray) = false ->
  exists w',
    task_ w = Thrown w' /\
    calls w' = calls w ++ [Enter (M_match_transform 256 true)] /\
    m_result (self w') = m_result (self w) /\
    m_roi (self w') = roi.
Proof.
  intros Hne Hrg Hsg Hroi Hcap Hsmall Hout.
  destruct w as [t log]. cbn [self calls] in *.
  set (w0 := mkWorld (set_roi (seeded t) roi) log).
  assert (Hpass : match_transform_ 256 true w0
                  = Thrown (mkWorld (self w0) (calls w0 ++ [Enter (M_match_transform 256 true)]))).
  { apply (match_transform_roi_outside 256 true w0 refgray srcgray).
    - unfold w0, seeded. cbn. destruct (m_initial_guess t); exact Hrg.
    - unfold w0, seeded. cbn. destruct (m_initial_guess t); exact Hsg.
    - exact Hcap.
    - exact Hsmall.
    - exact Hout. }
  exists (mkWorld (self w0) (calls w0 ++ [Enter (M_match_transform 256 true)])).
  split.
  - unfold task. apply bind_Thrown. right. exists t, (mkWorld t log).
    split; [reflexivity|]. rewrite Hne.
    apply bind_Thrown. left.
    unfold register. apply bind_Thrown. right. exists t, (mkWorld t log).
    split; [reflexivity|].
    apply bind_Thrown. right. exists tt, (mkWorld (seeded t) log).
    split. { unfold seeded. destruct (m_initial_guess t); reflexivity. }
    apply bind_Thrown. right. exists tt, w0.
    split.
    { unfold roi_for in Hroi. unfold w0.
      destruct (m_cropinfo t) as [c|].
      - injection Hroi as <-. reflexivity.
      - destruct (m_srccolor t) as [sc|]; [|discriminate].
        injection Hroi as <-. reflexivity. }
    apply bind_Thrown. left. exact Hpass.
  - unfold w0, seeded. cbn. destruct (m_initial_guess t); repeat split.
Qed.

Lemma pass_inputs_image R S cap ratio ref src evs :
  (forall src fx fy i out,
     image src -> resize_impl src (ByFactor fx fy) i = Some out -> image out) ->
  image S ->
  pass_inputs resize_impl R S cap ratio ref src evs ->
  image src.
Proof.
  intros Hres HS [H|r a b H -> Ha Hb]; [exact HS|].
  apply (Hres _ _ _ _ _ HS Hb).
Qed.

Lemma neutral_pass_input t p :
  m_contrast t = neutral_contrast ->
  m_whitebalance t = neutral_whitebalance ->
  image (p_src p) ->
  pass_input t p = p_src p.
Proof.
  intros Hc Hw (Hr & Hb & Hrows & Hcols). unfold pass_input.
  rewrite Hc, Hw. apply neutral_correction_keeps; assumption.
Qed.

(** X2. The rough pass of a task as constructed works on the gray source
    as it is.  [match_transform] runs the correction over the source
    before it calls ECC, but at that point the models are still the
    constructor's, so the image handed to the first ECC call is the gray
    source itself (or its area reduction), sample for sample. *)
Theorem X2_rough_pass_sees_source
    refgray refcolor srcgray srccolor guess crop flags w' :
  let t := Task_Align_new refgray refcolor srcgray srccolor guess crop flags in
  image (img srcgray) ->
  (forall src fx fy i out,
     image src -> resize_impl src (ByFactor fx fy) i = Some out -> image out) ->
  addr refcolor <> addr srccolor ->
  task_ (mkWorld t []) = Returned tt w' ->
  exists r rest,
    pass_inputs resize_impl (img refgray) (img srcgray) 256
      (p_ratio (r_rough r)) (p_ref (r_rough r)) (p_src (r_rough r))
      (p_resizes (r_rough r)) /\
    pass_input (at_rough t r) (r_rough r) = p_src (r_rough r) /\
    calls w' = pass_events (at_rough t r) 256 true (r_rough r) ++ rest.
Proof.
  intros t Himg Hres Hne H.
  apply task_registration in H.
  2: { cbn. apply Z.eqb_neq. exact Hne. }
  destruct H as (r & sg & sc & H). cbv zeta in H. cbn [self calls] in H.
  destruct H as (_ & _ & _ & Hp1 & _ & _ & _ & _ & _ & _ & Hcalls & _).
  destruct Hp1 as (rg' & sg' & Hrg & Hsg & Hin & _).
  destruct (stage_inputs t r) as ((A1 & A2 & _) & _).
  rewrite A1 in Hrg. rewrite A2 in Hsg. cbn in Hrg, Hsg.
  injection Hrg as <-. injection Hsg as <-.
  exists r. eexists. split; [exact Hin|]. split.
  - destruct (stage_contrast t r) as (C1 & _).
    destruct (stage_whitebalance t r) as (W1 & _).
    apply neutral_pass_input; [rewrite C1 | rewrite W1 |]; try reflexivity.
    apply (pass_inputs_image _ _ _ _ _ _ _ Hres Himg Hin).
  - rewrite Hcalls. unfold registration_events. cbn [app]. reflexivity.
Qed.

(** X3. With both photometric options off the run is purely geometric.
    A task constructed with [ALIGN_NO_CONTRAST] and
    [ALIGN_NO_WHITEBALANCE] makes no fit: its log is the two passes and
    the final warp, both ECC calls get the gray source of the task (or its
    area reduction) uncorrected, the result is the warped colour source
    untouched, and the two models end as the constructor set them. *)
Theorem X3_geometry_only
    refgray refcolor srcgray srccolor guess crop flags w' :
  let t := Task_Align_new refgray refcolor srcgray srccolor guess crop flags in
  flag_set flags ALIGN_NO_CONTRAST = true ->
  flag_set flags ALIGN_NO_WHITEBALANCE = true ->
  image (img srcgray) ->
  (forall src fx fy i out,
     image src -> resize_impl src (ByFactor fx fy) i = Some out -> image out) ->
  addr refcolor <> addr srccolor ->
  task_ (mkWorld t []) = Returned tt w' ->
  exists r,
    let cap := final_cap ALIGN_FULL_RESOLUTION t srccolor in
    (* the registration of this run *)
    roi_for t = Some (r_roi r) /\
    r_contrast r = None /\
    r_whitebalance r = None /\
    pass_inputs resize_impl (img refgray) (img srcgray) 256
      (p_ratio (r_rough r)) (p_ref (r_rough r)) (p_src (r_rough r))
      (p_resizes (r_rough r)) /\
    pass_inputs resize_impl (img refgray) (img srcgray) cap
      (p_ratio (r_final r)) (p_ref (r_final r)) (p_src (r_final r))
      (p_resizes (r_final r)) /\
    geometric_pass resize_impl (at_rough t r) 256 (r_rough r) /\
    geometric_pass resize_impl (at_final t r) cap (r_final r) /\
    solved findTransformECC_impl (at_rough t r) true (r_rough r) /\
    solved findTransformECC_impl (at_final t r) false (r_final r) /\
    (* what ECC is handed *)
    pass_input (at_rough t r) (r_rough r) = p_src (r_rough r) /\
    pass_input (at_final t r) (r_final r) = p_src (r_final r) /\
    calls w' = pass_events (at_rough t r) 256 true (r_rough r)
      ++ pass_events (at_final t r) cap false (r_final r)
      ++ [Enter (M_apply_transform false);
          CvWarpAffine (img srccolor) (pass_result (r_final r))
            (cols (img srccolor), rows (img srccolor))
            (warp_flags false) cv.BORDER_REFLECT] /\
    List.filter is_ecc_call (calls w')
    = [CvFindTransformECC (p_ref (r_rough r)) (p_src (r_rough r))
         (pass_warp (at_rough t r) (r_rough r)) cv.MOTION_AFFINE
         (pass_criteria true) (p_mask (r_rough r));
       CvFindTransformECC (p_ref (r_final r)) (p_src (r_final r))
         (pass_warp (at_final t r) (r_final r)) cv.MOTION_AFFINE
         (pass_criteria false) (p_mask (r_final r))] /\
    (* what the run leaves *)
    moved warpAffine_impl (at_output t r) (img srccolor) (r_warped r) /\
    m_transformation (at_output t r) = pass_result (r_final r) /\
    m_transformation (self w') = pass_result (r_final r) /\
    m_result (self w') = r_warped r /\
    m_contrast (self w') = neutral_contrast /\
    m_whitebalance (self w') = neutral_whitebalance.
Proof.
  intros t Hc Hw Himg Hres Hne H.
  apply task_registration in H.
  2: { cbn. apply Z.eqb_neq. exact Hne. }
  destruct H as (r & sg & sc & H). cbv zeta in H. cbn [self calls] in H.
  destruct H as (Hsg & Hsc & Hroi & Hp1 & Hs1 & Hfc & Hfw & Hp2 & Hs2 & Hmv & Hcalls & Hself).
  cbn in Hsg, Hsc. injection Hsg as <-. injection Hsc as <-.
  unfold contrast_enabled, whitebalance_enabled in Hfc, Hfw.
  cbn [m_flags t Task_Align_new] in Hfc, Hfw. rewrite Hc in Hfc. rewrite Hw in Hfw.
  destruct (r_contrast r) as [f|] eqn:Ec; [destruct Hfc; discriminate|].
  destruct (r_whitebalance r) as [f|] eqn:Ew; [destruct Hfw; discriminate|].
  destruct (stage_inputs t r) as ((A1 & A2 & _) & _ & _ & (B1 & B2 & _) & _).
  destruct (stage_contrast t r) as (C1 & _ & C3 & C4 & C5).
  destruct (stage_whitebalance t r) as (W1 & _ & _ & W4 & W5).
  rewrite Ec in C3. rewrite Ew in W4.
  destruct (stage_transformation t r) as (_ & _ & _ & T4).
  destruct (registration_state _ _ _ Hself) as (_ & QT & _ & _).
  pose proof Hp1 as (rg1 & sg1 & Hrg1 & Hsg1 & Hin1 & _).
  pose proof Hp2 as (rg2 & sg2 & Hrg2 & Hsg2 & Hin2 & _).
  rewrite A1 in Hrg1. rewrite B1 in Hrg2. cbn in Hrg1, Hrg2.
  injection Hrg1 as <-. injection Hrg2 as <-.
  rewrite A2 in Hsg1. rewrite B2 in Hsg2. cbn in Hsg1, Hsg2.
  injection Hsg1 as <-. injection Hsg2 as <-.
  assert (I1 : pass_input (at_rough t r) (r_rough r) = p_src (r_rough r)).
  { apply neutral_pass_input; [rewrite C1 | rewrite W1 |]; try reflexivity.
    apply (pass_inputs_image _ _ _ _ _ _ _ Hres Himg Hin1). }
  assert (I2 : pass_input (at_final t r) (r_final r) = p_src (r_final r)).
  { apply neutral_pass_input; [rewrite C4, C3 | rewrite W4 |]; try reflexivity.
    apply (pass_inputs_image _ _ _ _ _ _ _ Hres Himg Hin2). }
  exists r. cbv zeta.
  split; [exact Hroi|]. split; [exact Ec|]. split; [exact Ew|].
  split; [exact Hin1|]. split; [exact Hin2|].
  split; [exact Hp1|]. split; [exact Hp2|].
  split; [exact Hs1|]. split; [exact Hs2|].
  split; [exact I1|]. split; [exact I2|].
  split.
  { rewrite Hcalls. unfold registration_events, photometric.
    rewrite Ec, Ew, T4. cbn [optional_events app]. rewrite ?app_nil_r. reflexivity. }
  split.
  { rewrite Hcalls. cbn [app].
    rewrite (filter_ecc_registration _ _ _ _ _ _ Hp1 Hp2).
    unfold ecc_event. rewrite I1, I2. reflexivity. }
  split; [exact Hmv|]. split; [exact T4|]. split; [exact QT|].
  rewrite Hself. cbn [reset_dependencies set_result m_result m_contrast m_whitebalance].
  unfold output, photometric. rewrite Ec, Ew.
  split; [reflexivity|].
  rewrite C5, C3, W5, W4. split; reflexivity.
Qed.

(** X12. Up to the cap, the transformation a run leaves is ECC's own.
    When the longer side of the gray reference is within the cap of the
    final pass (2048, or the longer side of the colour source under
    [ALIGN_FULL_RESOLUTION]), that pass runs on the reference itself with a
    ratio of one and no resize, its ECC call is the last ECC call of the
    log, and the transformation the task ends with is the answer to that
    call, entry for entry: the scaling of the translation by the ratio and
    back loses nothing. *)
Theorem X12_final_answer_kept w w' refgray srccolor :
  task_ w = Returned tt w' ->
  shared_ptr_eqb (m_refcolor (self w)) (m_srccolor (self w)) = false ->
  m_refgray (self w) = Some refgray ->
  m_srccolor (self w) = Some srccolor ->
  Z.max (cols (img refgray)) (rows (img refgray))
    <= final_cap ALIGN_FULL_RESOLUTION (self w) srccolor ->
  exists r srcgray,
    let t := self w in
    let cap := final_cap ALIGN_FULL_RESOLUTION t srccolor in
    (* the registration of this run *)
    m_srcgray t = Some srcgray /\
    roi_for t = Some (r_roi r) /\
    calls w' = calls w
      ++ registration_events t (img srcgray) (img srccolor) cap r /\
    List.filter is_ecc_call (calls w')
    = List.filter is_ecc_call (calls w)
      ++ [ecc_event (at_rough t r) true (r_rough r);
          CvFindTransformECC (img refgray) (pass_input (at_final t r) (r_final r))
            (pass_warp (at_final t r) (r_final r)) cv.MOTION_AFFINE
            (pass_criteria false) (p_mask (r_final r))] /\
    geometric_pass resize_impl (at_final t r) cap (r_final r) /\
    solved findTransformECC_impl (at_final t r) false (r_final r) /\
    (* the final pass is not reduced *)
    p_ratio (r_final r) = F32.one /\
    p_ref (r_final r) = img refgray /\
    p_src (r_final r) = img srcgray /\
    p_resizes (r_final r) = [] /\
    (binary32_translation (m_transformation (at_final t r)) ->
     pass_warp (at_final t r) (r_final r) = m_transformation (at_final t r)) /\
    (* and its answer is what the task keeps *)
    (is_binary32 (a02 (p_answer (r_final r))) = true ->
     is_binary32 (a12 (p_answer (r_final r))) = true ->
     m_transformation (self w') = FMat_of_affine (p_answer (r_final r))).
Proof.
  intros H Hne Hrg Hsc Hcap.
  apply task_registration in H; [|exact Hne].
  destruct H as (r & sg & sc & H). cbv zeta in H.
  destruct H as (Hsg & Hsc' & Hroi & Hp1 & _ & _ & _ & Hp2 & Hs2 & _ & Hcalls & Hself).
  rewrite Hsc in Hsc'. injection Hsc' as <-.
  pose proof Hp2 as (rg & sg' & Hrg' & Hsg' & Hin & _ & _ & _ & H2x3 & _).
  destruct (stage_inputs (self w) r) as (_ & _ & _ & (B1 & B2 & _) & _).
  rewrite B1, Hrg in Hrg'. injection Hrg' as <-.
  rewrite B2, Hsg in Hsg'. injection Hsg' as <-.
  destruct (pass_inputs_full _ _ _ _ _ _ _ Hin Hcap) as (Hratio & Href & Hsrc & Hevs).
  exists r, sg. cbv zeta.
  split; [exact Hsg|]. split; [exact Hroi|]. split; [exact Hcalls|].
  split.
  { rewrite Hcalls, List.filter_app.
    rewrite (filter_ecc_registration _ _ _ _ _ _ Hp1 Hp2).
    unfold ecc_event at 2. rewrite Href. reflexivity. }
  split; [exact Hp2|]. split; [exact Hs2|].
  split; [exact Hratio|]. split; [exact Href|]. split; [exact Hsrc|].
  split; [exact Hevs|].
  split.
  { intros V. unfold pass_warp. rewrite Hratio.
    apply scale_translation_one; assumption. }
  intros V1 V2. rewrite Hself.
  cbn [reset_dependencies set_result m_transformation].
  destruct (stage_transformation (self w) r) as (_ & _ & _ & ->).
  unfold pass_result. rewrite Hratio. apply unscale_translation_one; assumption.
Qed.

(** X13. The published result always has the size of the colour source:
    on the short cut it is that image, and otherwise it is the warp of
    it, which [apply_transform] asks at the size of its source, corrected
    in place or not. *)
Theorem X13_result_has_source_size w w' :
  task_ w = Returned tt w' ->
  exists srccolor,
    m_srccolor (self w) = Some srccolor /\
    rows (m_result (self w')) = rows (img srccolor) /\
    cols (m_result (self w')) = cols (img srccolor).
Proof.
  intros H. apply task_Returned in H.
  destruct H as [(_ & sc & Hsc & ->)|(_ & w1 & H & ->)].
  - exists sc. repeat split. exact Hsc.
  - apply register_Returned in H.
    destruct H as (roi & sc & a1 & a2 & a3 & a4 & raw & H). cbv zeta in H.
    destruct H as (_ & Hsc & _ & _ & _ & _ & _ & Hself & _).
    exists sc. split; [exact Hsc|].
    cbn [self]. rewrite Hself. cbn [reset_dependencies set_result m_result].
    destruct (_ || _); [|split; reflexivity].
    destruct (correct_pixels_size (m_contrast (self a4)) (m_whitebalance (self a4))
                (mkMat (rows (img sc)) (cols (img sc)) (samples raw))) as [-> ->].
    split; reflexivity.
Qed.

(** X7. Without crop information the contrast fit samples whole frames.
    The ROI is then the rectangle of the colour source; when the gray
    images have that size, cutting the ROI out of the reference and out of
    the moved source (the gray source warped by the transformation of the
    rough pass) takes nothing away, and the two 64x64 resamplings are
    asked of the entire images. *)
Theorem X7_whole_frame_sampled w w' refgray srcgray srccolor :
  task_ w = Returned tt w' ->
  shared_ptr_eqb (m_refcolor (self w)) (m_srccolor (self w)) = false ->
  m_cropinfo (self w) = None ->
  flag_set (m_flags (self w)) ALIGN_NO_CONTRAST = false ->
  m_refgray (self w) = Some refgray ->
  m_srcgray (self w) = Some srcgray ->
  m_srccolor (self w) = Some srccolor ->
  raster (img refgray) ->
  rows (img refgray) = rows (img srccolor) /\ cols (img refgray) = cols (img srccolor) ->
  rows (img srcgray) = rows (img srccolor) /\ cols (img srcgray) = cols (img srccolor) ->
  (forall T fl b out,
     warpAffine_impl (img srcgray) T (cols (img srcgray), rows (img srcgray)) fl b
     = Some out ->
     raster (mkMat (rows (img srcgray)) (cols (img srcgray)) (samples out))) ->
  exists r f raw,
    let t := self w in
    (* the registration of this run *)
    roi_for t = Some (r_roi r) /\
    m_roi (self w') = r_roi r /\
    geometric_pass resize_impl (at_rough t r) 256 (r_rough r) /\
    solved findTransformECC_impl (at_rough t r) true (r_rough r) /\
    calls w' = calls w
      ++ registration_events t (img srcgray) (img srccolor)
           (final_cap ALIGN_FULL_RESOLUTION t srccolor) r /\
    (* its contrast fit, and the image it moved *)
    r_contrast r = Some f /\
    contrast_fit resize_impl warpAffine_impl solve_impl (at_contrast t r) f /\
    warpAffine_impl (img srcgray) (pass_result (r_rough r))
      (cols (img srcgray), rows (img srcgray))
      (Z.lor cv.INTER_CUBIC cv.WARP_INVERSE_MAP) cv.BORDER_REFLECT = Some raw /\
    f_moved f = mkMat (rows (img srcgray)) (cols (img srcgray)) (samples raw) /\
    In (CvWarpAffine (img srcgray) (pass_result (r_rough r))
          (cols (img srcgray), rows (img srcgray))
          (Z.lor cv.INTER_CUBIC cv.WARP_INVERSE_MAP) cv.BORDER_REFLECT) (calls w') /\
    (* whole frames *)
    r_roi r = mkRect 0 0 (cols (img srccolor)) (rows (img srccolor)) /\
    f_ref_roi f = img refgray /\
    f_src_roi f = f_moved f /\
    In (CvResize (img refgray) (ToSize 64 64) cv.INTER_AREA) (calls w') /\
    In (CvResize (f_moved f) (ToSize 64 64) cv.INTER_AREA) (calls w').
Proof.
  intros H Hne Hcrop Hflag Hrg Hsg Hsc Hraster [Hr1 Hc1] [Hr2 Hc2] Hwarp.
  apply task_registration in H; [|exact Hne].
  destruct H as (r & sg & sc & H). cbv zeta in H.
  destruct H as (Hsg' & Hsc' & Hroi0 & Hp1 & Hs1 & Hfc & _ & _ & _ & _ & Hcalls & Hself).
  rewrite Hsg in Hsg'. injection Hsg' as <-.
  rewrite Hsc in Hsc'. injection Hsc' as <-.
  pose proof Hroi0 as Hroi.
  unfold roi_for in Hroi. rewrite Hcrop, Hsc in Hroi. injection Hroi as Hroi.
  unfold contrast_enabled in Hfc. rewrite Hflag in Hfc. cbn [negb] in Hfc.
  destruct (r_contrast r) as [f|] eqn:Ec; [|discriminate].
  destruct Hfc as [_ Hfit].
  pose proof Hfit as (rg' & sg' & Hrg' & Hsg'' & Hmv & Hres & _).
  destruct (stage_inputs (self w) r) as (_ & (A1 & A2 & _) & _).
  rewrite A1, Hrg in Hrg'. injection Hrg' as <-.
  rewrite A2, Hsg in Hsg''. injection Hsg'' as <-.
  destruct (stage_roi (self w) r) as (_ & R2 & _).
  destruct (stage_transformation (self w) r) as (T1 & _).
  destruct (registration_state _ _ _ Hself) as (Qroi & _).
  destruct Hres as (Hcut1 & Hcut2 & _).
  rewrite R2, <- Hroi in Hcut1, Hcut2.
  rewrite <- Hr1, <- Hc1 in Hcut1. rewrite Mat_roi_full in Hcut1 by exact Hraster.
  injection Hcut1 as Hcut1.
  destruct Hmv as (raw & Hraw & Hmoved).
  assert (Hrm : raster (f_moved f)) by (rewrite Hmoved; apply (Hwarp _ _ _ _ Hraw)).
  assert (Hdims : rows (f_moved f) = rows (img srccolor) /\
                  cols (f_moved f) = cols (img srccolor)).
  { rewrite Hmoved. cbn [rows cols]. split; assumption. }
  destruct Hdims as [Hr3 Hc3].
  rewrite <- Hr3, <- Hc3 in Hcut2. rewrite Mat_roi_full in Hcut2 by exact Hrm.
  injection Hcut2 as Hcut2.
  rewrite T1 in Hraw.
  exists r, f, raw. cbv zeta.
  split; [exact Hroi0|]. split; [exact Qroi|].
  split; [exact Hp1|]. split; [exact Hs1|]. split; [exact Hcalls|].
  split; [exact Ec|]. split; [exact Hfit|].
  split; [exact Hraw|]. split; [exact Hmoved|].
  assert (Hev : forall e,
            In e (fit_events (at_contrast (self w) r) M_match_contrast false
                    (img srcgray) f) ->
            In e (calls w')).
  { intros e He. rewrite Hcalls. unfold registration_events. rewrite Ec.
    cbn [optional_events].
    apply in_or_app; right; apply in_or_app; right; apply in_or_app; left.
    exact He. }
  split.
  { apply Hev. unfold fit_events. rewrite T1. cbn. auto 10. }
  split; [symmetry; exact Hroi|].
  split; [symmetry; exact Hcut1|]. split; [symmetry; exact Hcut2|].
  split; apply Hev; unfold fit_events; rewrite <- ?Hcut1, <- ?Hcut2; cbn; auto 10.
Qed.

Lemma unreduced_mask_full t cap p refgray :
  geometric_pass resize_impl t cap p ->
  m_refgray t = Some refgray ->
  Z.max (cols (img refgray)) (rows (img refgray)) <= cap ->
  m_roi t = mkRect 0 0 (cols (img refgray)) (rows (img refgray)) ->
  0 <= rows (img refgray) < 2 ^ 24 -> 0 <= cols (img refgray) < 2 ^ 24 ->
  p_ref p = img refgray /\
  forall y x, 0 <= y < rows (img refgray) -> 0 <= x < cols (img refgray) ->
    at_u8 (p_mask p) y x = 255.
Proof.
  intros (rg & sg & Hrg & _ & Hin & _ & _ & Hmask & _) Hrg' Hcap Hroi Hr Hc.
  rewrite Hrg' in Hrg. injection Hrg as <-.
  destruct (pass_inputs_full _ _ _ _ _ _ _ Hin Hcap) as (Hratio & Href & _).
  split; [exact Href|].
  intros y x Hy Hx. rewrite Hmask by (rewrite Href; assumption).
  rewrite Hratio, Hroi, scale_rect_one.
  - unfold in_rect. cbn [rx ry rwidth rheight].
    replace ((0 <=? x) && (x <? 0 + cols (img refgray)) && (0 <=? y)
             && (y <? 0 + rows (img refgray))) with true by lia.
    reflexivity.
  - unfold small_rect. cbn [rx ry rwidth rheight].
    change (2 ^ 24) with 16777216 in *. lia.
Qed.

(** X15. Without crop information ECC weighs every pixel.  When the gray
    reference has the size of the colour source and needs no reduction,
    the mask handed to ECC, the last argument of the ECC call in the log,
    is 255 at every pixel of the reference; this holds for the rough pass
    under its cap of 256 and for the final pass under its own. *)
Theorem X15_whole_image_mask w w' refgray srccolor :
  task_ w = Returned tt w' ->
  shared_ptr_eqb (m_refcolor (self w)) (m_srccolor (self w)) = false ->
  m_cropinfo (self w) = None ->
  m_refgray (self w) = Some refgray ->
  m_srccolor (self w) = Some srccolor ->
  rows (img refgray) = rows (img srccolor) /\ cols (img refgray) = cols (img srccolor) ->
  0 <= rows (img refgray) < 2 ^ 24 -> 0 <= cols (img refgray) < 2 ^ 24 ->
  exists r srcgray,
    let t := self w in
    let cap := final_cap ALIGN_FULL_RESOLUTION t srccolor in
    (* the registration of this run and its two ECC calls *)
    m_srcgray t = Some srcgray /\
    roi_for t = Some (r_roi r) /\
    m_roi (self w') = r_roi r /\
    r_roi r = mkRect 0 0 (cols (img refgray)) (rows (img refgray)) /\
    calls w' = calls w
      ++ registration_events t (img srcgray) (img srccolor) cap r /\
    List.filter is_ecc_call (calls w')
    = List.filter is_ecc_call (calls w)
      ++ [CvFindTransformECC (p_ref (r_rough r))
            (pass_input (at_rough t r) (r_rough r))
            (pass_warp (at_rough t r) (r_rough r)) cv.MOTION_AFFINE
            (pass_criteria true) (p_mask (r_rough r));
          CvFindTransformECC (p_ref (r_final r))
            (pass_input (at_final t r) (r_final r))
            (pass_warp (at_final t r) (r_final r)) cv.MOTION_AFFINE
            (pass_criteria false) (p_mask (r_final r))] /\
    geometric_pass resize_impl (at_rough t r) 256 (r_rough r) /\
    geometric_pass resize_impl (at_final t r) cap (r_final r) /\
    solved findTransformECC_impl (at_rough t r) true (r_rough r) /\
    solved findTransformECC_impl (at_final t r) false (r_final r) /\
    (* their masks *)
    (Z.max (cols (img refgray)) (rows (img refgray)) <= 256 ->
     p_ref (r_rough r) = img refgray /\
     rows (p_mask (r_rough r)) = rows (img refgray) /\
     cols (p_mask (r_rough r)) = cols (img refgray) /\
     forall y x, 0 <= y < rows (img refgray) -> 0 <= x < cols (img refgray) ->
       at_u8 (p_mask (r_rough r)) y x = 255) /\
    (Z.max (cols (img refgray)) (rows (img refgray)) <= cap ->
     p_ref (r_final r) = img refgray /\
     rows (p_mask (r_final r)) = rows (img refgray) /\
     cols (p_mask (r_final r)) = cols (img refgray) /\
     forall y x, 0 <= y < rows (img refgray) -> 0 <= x < cols (img refgray) ->
       at_u8 (p_mask (r_final r)) y x = 255).
Proof.
  intros H Hne Hcrop Hrg Hsc [Hr1 Hc1] Hr Hc.
  apply task_registration in H; [|exact Hne].
  destruct H as (r & sg & sc & H). cbv zeta in H.
  destruct H as (Hsg & Hsc' & Hroi0 & Hp1 & Hs1 & _ & _ & Hp2 & Hs2 & _ & Hcalls & Hself).
  rewrite Hsc in Hsc'. injection Hsc' as <-.
  pose proof Hroi0 as Hroi.
  unfold roi_for in Hroi. rewrite Hcrop, Hsc in Hroi. injection Hroi as Hroi.
  rewrite <- Hr1, <- Hc1 in Hroi.
  destruct (stage_inputs (self w) r) as ((A1 & _) & _ & _ & (B1 & _) & _).
  destruct (stage_roi (self w) r) as (R1 & _ & _ & R4 & _).
  destruct (registration_state _ _ _ Hself) as (Qroi & _).
  pose proof Hp1 as (? & ? & _ & _ & _ & Hmr1 & Hmc1 & _).
  pose proof Hp2 as (? & ? & _ & _ & _ & Hmr2 & Hmc2 & _).
  exists r, sg. cbv zeta.
  split; [exact Hsg|]. split; [exact Hroi0|]. split; [exact Qroi|].
  split; [symmetry; exact Hroi|]. split; [exact Hcalls|].
  split.
  { rewrite Hcalls, List.filter_app.
    rewrite (filter_ecc_registration _ _ _ _ _ _ Hp1 Hp2). reflexivity. }
  split; [exact Hp1|]. split; [exact Hp2|].
  split; [exact Hs1|]. split; [exact Hs2|].
  split.
  - intros Hcap.
    destruct (unreduced_mask_full _ _ _ refgray Hp1) as (E & Hpx); try assumption.
    + rewrite A1. exact Hrg.
    + rewrite R1. symmetry. exact Hroi.
    + rewrite E in Hmr1, Hmc1. auto.
  - intros Hcap.
    destruct (unreduced_mask_full _ _ _ refgray Hp2) as (E & Hpx); try assumption.
    + rewrite B1. exact Hrg.
    + rewrite R4. symmetry. exact Hroi.
    + rewrite E in Hmr2, Hmc2. auto.
Qed.

Lemma count_app f l1 l2 : count f (l1 ++ l2) = (count f l1 + count f l2)%nat.
Proof. unfold count. rewrite List.filter_app, length_app. reflexivity. Qed.

Lemma count_pass f t cap rough p :
  geometric_pass resize_impl t cap p ->
  (forall a b c, f (CvResize a b c) = false) ->
  (forall m, f (Enter m) = false) ->
  (forall a b c d e g, f (CvFindTransformECC a b c d e g) = false) ->
  count f (pass_events t cap rough p) = O.
Proof.
  intros (rg & sg & _ & _ & Hin & _) H1 H2 H3. unfold pass_events, ecc_event, count.
  cbn [List.filter]. rewrite H2, List.filter_app. cbn [List.filter].
  rewrite H2, H3, app_nil_r.
  destruct Hin; cbn [List.filter]; rewrite ?H1; reflexivity.
Qed.

(** X16. A returning run on distinct images warps at full size once for
    the result and once more for each photometric fit that is enabled,
    and it solves one linear system per enabled fit: at most three warps
    and two solves, one warp and no solve when both fits are off. *)
Theorem X16_warps_and_solves w w' :
  task_ w = Returned tt w' ->
  shared_ptr_eqb (m_refcolor (self w)) (m_srccolor (self w)) = false ->
  let fits :=
    (Nat.b2n (contrast_enabled ALIGN_NO_CONTRAST (self w))
     + Nat.b2n (whitebalance_enabled ALIGN_NO_WHITEBALANCE (self w)))%nat in
  count is_warp_call (calls w') = (count is_warp_call (calls w) + 1 + fits)%nat /\
  count is_solve_call (calls w') = (count is_solve_call (calls w) + fits)%nat.
Proof.
  intros H Hne fits.
  apply task_registration in H; [|exact Hne].
  destruct H as (r & sg & sc & H). cbv zeta in H.
  destruct H as (_ & _ & _ & Hp1 & _ & Hfc & Hfw & Hp2 & _ & _ & Hcalls & _).
  assert (Ec : Nat.b2n (contrast_enabled ALIGN_NO_CONTRAST (self w))
               = match r_contrast r with Some _ => 1%nat | None => O end).
  { destruct (r_contrast r); cbn in Hfc; [destruct Hfc as [-> _] | rewrite Hfc];
      reflexivity. }
  assert (Ew : Nat.b2n (whitebalance_enabled ALIGN_NO_WHITEBALANCE (self w))
               = match r_whitebalance r with Some _ => 1%nat | None => O end).
  { destruct (r_whitebalance r); cbn in Hfw; [destruct Hfw as [-> _] | rewrite Hfw];
      reflexivity. }
  unfold fits. rewrite Ec, Ew, Hcalls. unfold registration_events.
  rewrite !count_app.
  rewrite !(count_pass is_warp_call), !(count_pass is_solve_call)
    by (try eassumption; reflexivity).
  unfold photometric, optional_events, fit_events.
  destruct (r_contrast r), (r_whitebalance r); cbn; lia.
Qed.

End Coverage.

(** ** The input folder *)

Lemma last_suffix_split c r t :
  last_suffix c r = Some t -> exists s, r = String.append s t.
Proof.
  revert t. induction r as [|a r IH]; intros t H; cbn in H; [discriminate|].
  destruct (last_suffix c r) as [u|] eqn:E.
  - injection H as <-. destruct (IH u eq_refl) as [s ->].
    exists (String a s). reflexivity.
  - destruct (Ascii.eqb a c); [|discriminate]. injection H as <-.
    exists EmptyString. reflexivity.
Qed.

Lemma last_suffix_append c s t :
  last_suffix c t = None ->
  last_suffix c (String.append s (String c t)) = Some (String c t).
Proof.
  intros Ht. induction s as [|a s IH]; cbn.
  - rewrite Ht, Ascii.eqb_refl. reflexivity.
  - rewrite IH. reflexivity.
Qed.

Lemma append_length s t :
  String.length (String.append s t) = (String.length s + String.length t)%nat.
Proof. induction s as [|a s IH]; cbn; [reflexivity | rewrite IH; reflexivity]. Qed.

(** The extension of a path is [String "." t], for a [t] without period,
    exactly when its file name is a non-empty stem followed by it. *)
Lemma path_extension_is t p :
  last_suffix "." t = None ->
  (3 <= String.length t)%nat ->
  path_extension p = String "." t <-> named_with (String "." t) p.
Proof.
  intros Ht Hlen. unfold path_extension, named_with.
  set (f := path_filename p). clearbody f. split.
  - intros H.
    destruct (String.eqb f "." || String.eqb f ".."); [discriminate|].
    destruct f as [|a r]; [discriminate|].
    destruct (last_suffix "." r) as [u|] eqn:E; [|discriminate].
    subst u. destruct (last_suffix_split _ _ _ E) as [s ->].
    exists (String a s). split; [discriminate | reflexivity].
  - intros (stem & Hne & ->).
    destruct stem as [|a s]; [congruence|]. cbn [String.append].
    assert (Hl : (4 <= String.length (String.append s (String "." t)))%nat).
    { rewrite append_length. cbn. lia. }
    assert (E1 : String.eqb (String a (String.append s (String "." t))) "." = false).
    { apply String.eqb_neq. intros [= _ E]. rewrite E in Hl. cbn in Hl. lia. }
    assert (E2 : String.eqb (String a (String.append s (String "." t))) ".." = false).
    { apply String.eqb_neq. intros [= _ E]. rewrite E in Hl. cbn in Hl. lia. }
    rewrite E1, E2. cbn [orb].
    rewrite last_suffix_append by exact Ht. reflexivity.
Qed.

Lemma find_files_loop entries : forall acc,
  fold_left
    (fun filepaths path =>
       let ext := path_extension path in
       if String.eqb ext ".jpg" || String.eqb ext ".png"
       then filepaths ++ [path]
       else filepaths)
    entries acc
  = acc ++ List.filter
             (fun path => String.eqb (path_extension path) ".jpg"
                          || String.eqb (path_extension path) ".png")
             entries.
Proof.
  induction entries as [|p entries IH]; intros acc; cbn [fold_left List.filter].
  - rewrite app_nil_r. reflexivity.
  - cbv zeta. destruct (_ || _).
    + rewrite IH, <- app_assoc. reflexivity.
    + apply IH.
Qed.

Lemma find_files_filter entries :
  find_files (Some entries)
  = Some (List.filter
            (fun path => String.eqb (path_extension path) ".jpg"
                         || String.eqb (path_extension path) ".png")
            entries).
Proof. unfold find_files. rewrite find_files_loop. reflexivity. Qed.

(** X14. [find_files] keeps, in the order of the directory listing, the
    entries whose file name is a non-empty stem followed by [.jpg] or
    [.png], and no others: the comparison is exact, so an upper-case
    [.JPG] is passed over, as is a name that is only the suffix.  When the
    folder cannot be listed the exception is not caught. *)
Theorem X14_find_files_by_suffix entries :
  find_files None = None /\
  exists files,
    find_files (Some entries) = Some files /\
    files = List.filter
              (fun path => String.eqb (path_extension path) ".jpg"
                           || String.eqb (path_extension path) ".png")
              entries /\
    forall path,
      In path files <->
      In path entries /\ (named_with ".jpg" path \/ named_with ".png" path).
Proof.
  split; [reflexivity|].
  eexists. split; [apply find_files_filter|]. split; [reflexivity|].
  intros path. rewrite List.filter_In.
  rewrite orb_true_iff, !String.eqb_eq.
  rewrite (path_extension_is "jpg" path eq_refl ltac:(cbn; lia)).
  rewrite (path_extension_is "png" path eq_refl ltac:(cbn; lia)).
  reflexivity.
Qed.


(** * The model at work *)

(** A run whose outcome evaluates to a return did return, in the world it
    ends in. *)
Lemma returned_by_evaluation (o : Outcome unit) :
  is_returned o = true -> o = Returned tt (world_of o).
Proof. destruct o as [[] w|w]; [reflexivity | discriminate]. Qed.


(** ** The models on small inputs *)

(** Dithering at work: 1.5 is stored as 1, 2, 1, 2. *)
Example dither_alternates :
  correct_pixels gain_3_2 neutral_whitebalance (mkMat 1 4 (Gray8 [1; 1; 1; 1]))
  = mkMat 1 4 (Gray8 [1; 2; 1; 2]).
Proof. vm_compute. reflexivity. Qed.

(** The same in colour, the three channels carrying their own residuals. *)
Example dither_color :
  correct_pixels gain_3_2 neutral_whitebalance
    (mkMat 1 3 (Bgr8 [(1, 2, 3); (1, 2, 3); (1, 2, 3)]))
  = mkMat 1 3 (Bgr8 [(1, 3, 4); (2, 3, 5); (1, 3, 4)]).
Proof. vm_compute. reflexivity. Qed.

(** The neutral models leave a raster as it is. *)
Example neutral_models_keep :
  correct_pixels (fset1 (FMat_zeros 5 1) 0 F32.one) neutral_whitebalance Demo.color_a
  = Demo.color_a.
Proof. vm_compute. reflexivity. Qed.

(** A 6000x4000 image under the cap 2048: the full-image ROI scales to
    2048x1365. *)
Example scaled_roi_6000 :
  scale_rect (mkRect 0 0 6000 4000) (F32.of_int 2048 / F32.of_int 6000)%f32
  = mkRect 0 0 2048 1365.
Proof. vm_compute. reflexivity. Qed.

(** The mask of a 2x3 reference for the ROI (1, 0, 1, 2). *)
Example mask_column :
  mask_of_rect 2 3 (mkRect 1 0 1 2)
  = Some (mkMat 2 3 (Gray8 [0; 255; 0; 0; 255; 0])).
Proof. vm_compute. reflexivity. Qed.

(** The crop ROI of an image padded from width 1 to width 3. *)
Example crop_roi_demo : crop_roi Demo.cropinfo = mkRect 1 0 1 2.
Proof. vm_compute. reflexivity. Qed.


Lemma C1_two_ecc_passes_witness :
  demo_task demo_wide = Returned tt (after demo_wide) /\
  shared_ptr_eqb (m_refcolor (self demo_wide)) (m_srccolor (self demo_wide)) = false /\
  exists r,
    r_roi r = mkRect 10 1 280 2 /\
    m_roi (self (after demo_wide)) = r_roi r /\
    p_ratio (r_rough r) = (F32.of_int 256 / F32.of_int 300)%f32 /\
    p_ratio (r_final r) = F32.one /\
    (forall y x,
       0 <= y < rows (p_ref (r_rough r)) -> 0 <= x < cols (p_ref (r_rough r)) ->
       at_u8 (p_mask (r_rough r)) y x
       = if (8 <=? x) && (x <? 8 + 238) && (0 <=? y) && (y <? 0 + 1)
         then 255 else 0) /\
    (forall y x,
       0 <= y < rows (p_ref (r_final r)) -> 0 <= x < cols (p_ref (r_final r)) ->
       at_u8 (p_mask (r_final r)) y x
       = if (10 <=? x) && (x <? 10 + 280) && (1 <=? y) && (y <? 1 + 2)
         then 255 else 0) /\
    List.filter is_ecc_call (calls (after demo_wide))
    = [ecc_event (at_rough (self demo_wide) r) true (r_rough r);
       ecc_event (at_final (self demo_wide) r) false (r_final r)] /\
    solved Demo.findTransformECC (at_rough (self demo_wide) r) true (r_rough r) /\
    solved Demo.findTransformECC (at_final (self demo_wide) r) false (r_final r).
Proof.
  assert (H : demo_task demo_wide = Returned tt (after demo_wide))
    by (vm_compute; reflexivity).
  assert (E : shared_ptr_eqb (m_refcolor (self demo_wide))
                (m_srccolor (self demo_wide)) = false) by reflexivity.
  split; [exact H|]. split; [exact E|].
  pose proof (C1_two_ecc_passes Demo.ALIGN_FULL_RESOLUTION Demo.ALIGN_NO_WHITEBALANCE
      Demo.ALIGN_NO_CONTRAST Demo.resize Demo.warpAffine Demo.findTransformECC Demo.solve
              demo_wide (after demo_wide) H E) as W.
  cbv beta zeta in W.
  destruct W as (r & rg & sg & sc & Hrg & Hsg & Hsc & Hroi & Qroi & _ & _ & _ & Hecc
                 & _ & _ & _ & _ & Hin1 & Hin2 & Hm1 & Hm2 & Hs1 & Hs2 & _).
  change (m_refgray (self demo_wide))
    with (Some (mkImgTask 11 "wide_gray_a" (wide_gray 0))) in Hrg.
  injection Hrg as <-.
  change (m_srccolor (self demo_wide))
    with (Some (mkImgTask 14 "wide_b" (wide_color 1))) in Hsc.
  injection Hsc as <-.
  assert (Eroi : roi_for (self demo_wide) = Some (mkRect 10 1 280 2))
    by (vm_compute; reflexivity).
  rewrite Eroi in Hroi. injection Hroi as Hroi.
  apply pass_inputs_reduced in Hin1; [|change (256 < Z.max 300 4); lia].
  destruct Hin1 as (Hratio1 & _).
  change (Z.max (cols (img (mkImgTask 11 "wide_gray_a" (wide_gray 0))))
            (rows (img (mkImgTask 11 "wide_gray_a" (wide_gray 0)))))
    with 300 in Hratio1.
  apply pass_inputs_full in Hin2; [|change (Z.max 300 4 <= 2048); lia].
  destruct Hin2 as (Hratio2 & _).
  destruct Hm1 as (_ & _ & Hm1). destruct Hm2 as (_ & _ & Hm2).
  rewrite <- Hroi, Hratio1 in Hm1. rewrite <- Hroi, Hratio2 in Hm2.
  cbn [rx ry rwidth rheight] in Hm1, Hm2.
  assert (X1 : F32.to_int (F32.of_int 10 * (F32.of_int 256 / F32.of_int 300))%f32 = 8)
    by (vm_compute; reflexivity).
  assert (X2 : F32.to_int (F32.of_int 1 * (F32.of_int 256 / F32.of_int 300))%f32 = 0)
    by (vm_compute; reflexivity).
  assert (X3 : F32.to_int (F32.of_int 280 * (F32.of_int 256 / F32.of_int 300))%f32 = 238)
    by (vm_compute; reflexivity).
  assert (X4 : F32.to_int (F32.of_int 2 * (F32.of_int 256 / F32.of_int 300))%f32 = 1)
    by (vm_compute; reflexivity).
  assert (Y1 : F32.to_int (F32.of_int 10 * F32.one)%f32 = 10) by (vm_compute; reflexivity).
  assert (Y2 : F32.to_int (F32.of_int 1 * F32.one)%f32 = 1) by (vm_compute; reflexivity).
  assert (Y3 : F32.to_int (F32.of_int 280 * F32.one)%f32 = 280)
    by (vm_compute; reflexivity).
  assert (Y4 : F32.to_int (F32.of_int 2 * F32.one)%f32 = 2) by (vm_compute; reflexivity).
  rewrite X1, X2, X3, X4 in Hm1. rewrite Y1, Y2, Y3, Y4 in Hm2.
  exists r.
  split; [symmetry; exact Hroi|]. split; [exact Qroi|].
  split; [exact Hratio1|]. split; [exact Hratio2|].
  split; [exact Hm1|]. split; [exact Hm2|].
  split; [exact Hecc|]. split; [exact Hs1 | exact Hs2].
Defined.

Lemma C2_identity_short_circuit_witness :
  shared_ptr_eqb (m_refcolor (self (Demo.fresh_same 0)))
                 (m_srccolor (self (Demo.fresh_same 0))) = true /\
  m_srccolor (self (Demo.fresh_same 0)) = Some Demo.srccolor /\
  exists w',
    demo_task (Demo.fresh_same 0) = Returned tt w' /\
    m_result (self w') = Demo.color_b /\
    calls w' = [].
Proof.
  assert (E : shared_ptr_eqb (m_refcolor (self (Demo.fresh_same 0)))
                (m_srccolor (self (Demo.fresh_same 0))) = true) by reflexivity.
  assert (S : m_srccolor (self (Demo.fresh_same 0)) = Some Demo.srccolor)
    by reflexivity.
  split; [exact E|]. split; [exact S|].
  destruct (C2_identity_short_circuit Demo.ALIGN_FULL_RESOLUTION Demo.ALIGN_NO_WHITEBALANCE
      Demo.ALIGN_NO_CONTRAST Demo.resize Demo.warpAffine Demo.findTransformECC Demo.solve
              (Demo.fresh_same 0) Demo.srccolor E S)
    as (w' & H & Hres & Hcalls & _).
  exists w'. split; [exact H|]. split; [exact Hres | exact Hcalls].
Defined.


Lemma C4_contrast_fit_witness :
  demo_task demo_contrast = Returned tt (after demo_contrast) /\
  shared_ptr_eqb (m_refcolor (self demo_contrast))
                 (m_srccolor (self demo_contrast)) = false /\
  contrast_enabled Demo.ALIGN_NO_CONTRAST (self demo_contrast) = true /\
  exists r f,
    r_roi r = mkRect 0 0 3 2 /\
    solved Demo.findTransformECC (at_rough (self demo_contrast) r) true (r_rough r) /\
    moved Demo.warpAffine (at_contrast (self demo_contrast) r) Demo.gray_b (f_moved f) /\
    m_transformation (at_contrast (self demo_contrast) r) = pass_result (r_rough r) /\
    Mat_roi Demo.gray_a (r_roi r) = Some (f_ref_roi f) /\
    Mat_roi (f_moved f) (r_roi r) = Some (f_src_roi f) /\
    In (CvSolve (f_matrix f) (f_rhs f) cv.DECOMP_SVD) (calls (after demo_contrast)) /\
    m_contrast (self (after demo_contrast)) = f_solution f.
Proof.
  assert (H : demo_task demo_contrast = Returned tt (after demo_contrast))
    by (apply returned_by_evaluation; reflexivity).
  assert (E : shared_ptr_eqb (m_refcolor (self demo_contrast))
                (m_srccolor (self demo_contrast)) = false) by reflexivity.
  assert (C : contrast_enabled Demo.ALIGN_NO_CONTRAST (self demo_contrast) = true)
    by reflexivity.
  split; [exact H|]. split; [exact E|]. split; [exact C|].
  destruct (C4_contrast_fit Demo.ALIGN_FULL_RESOLUTION Demo.ALIGN_NO_WHITEBALANCE
      Demo.ALIGN_NO_CONTRAST Demo.resize Demo.warpAffine Demo.findTransformECC Demo.solve
              demo_contrast (after demo_contrast) H E C)
    as (r & f & rg & sg & sc & Hrg & Hsg & _ & Hroi & _ & _ & Hs1 & _ & _ & _ & _
        & Hmv & Hcut1 & Hcut2 & HT & _ & _ & _ & _ & _ & Hsolve & Hmodel).
  change (m_refgray (self demo_contrast)) with (Some Demo.refgray) in Hrg.
  injection Hrg as <-.
  change (m_srcgray (self demo_contrast)) with (Some Demo.srcgray) in Hsg.
  injection Hsg as <-.
  change (roi_for (self demo_contrast)) with (Some (mkRect 0 0 3 2)) in Hroi.
  injection Hroi as Hroi.
  exists r, f. split; [symmetry; exact Hroi|].
  repeat (split; [assumption|]). exact Hmodel.
Defined.


Lemma C6_crop_roi_witness :
  demo_task demo_cropped = Returned tt (after demo_cropped) /\
  shared_ptr_eqb (m_refcolor (self demo_cropped))
                 (m_srccolor (self demo_cropped)) = false /\
  m_cropinfo (self demo_cropped) = Some Demo.cropinfo /\
  (0 <= orig_width Demo.cropinfo <= cols (load_img Demo.cropinfo)) /\
  cols (load_img Demo.cropinfo) < 2 ^ 31 /\
  (0 <= orig_height Demo.cropinfo <= rows (load_img Demo.cropinfo)) /\
  rows (load_img Demo.cropinfo) < 2 ^ 31 /\
  m_roi (self (after demo_cropped)) = mkRect 1 0 1 2.
Proof.
  assert (H : demo_task demo_cropped = Returned tt (after demo_cropped))
    by (vm_compute; reflexivity).
  assert (E : shared_ptr_eqb (m_refcolor (self demo_cropped))
                (m_srccolor (self demo_cropped)) = false) by reflexivity.
  assert (C : m_cropinfo (self demo_cropped) = Some Demo.cropinfo) by reflexivity.
  assert (W : 0 <= orig_width Demo.cropinfo <= cols (load_img Demo.cropinfo))
    by (cbn; lia).
  assert (PW : cols (load_img Demo.cropinfo) < 2 ^ 31) by (cbn; lia).
  assert (Hh : 0 <= orig_height Demo.cropinfo <= rows (load_img Demo.cropinfo))
    by (cbn; lia).
  assert (PH : rows (load_img Demo.cropinfo) < 2 ^ 31) by (cbn; lia).
  repeat (split; [assumption|]).
  destruct (C6_crop_roi Demo.ALIGN_FULL_RESOLUTION Demo.ALIGN_NO_WHITEBALANCE
      Demo.ALIGN_NO_CONTRAST Demo.resize Demo.warpAffine Demo.findTransformECC Demo.solve
              demo_cropped (after demo_cropped) Demo.cropinfo H E C W PW Hh PH)
    as (r & sc & _ & _ & _ & _ & _ & _ & _ & _ & _ & _ & _ & _ & _ & Hroi).
  exact Hroi.
Defined.

Lemma C7_initial_transformation_witness :
  demo_task demo_seeded = Returned tt (after demo_seeded) /\
  addr Demo.refcolor <> addr Demo.srccolor /\
  exists r rest,
    m_transformation (at_rough (self demo_seeded) r)
    = nb_transformation Demo.neighbour /\
    calls (after demo_seeded)
    = pass_events (at_rough (self demo_seeded) r) 256 true (r_rough r) ++ rest.
Proof.
  assert (H : demo_task demo_seeded = Returned tt (after demo_seeded))
    by (vm_compute; reflexivity).
  assert (N : addr Demo.refcolor <> addr Demo.srccolor) by (cbn; lia).
  split; [exact H|]. split; [exact N|].
  destruct (C7_initial_transformation Demo.ALIGN_FULL_RESOLUTION Demo.ALIGN_NO_WHITEBALANCE
      Demo.ALIGN_NO_CONTRAST Demo.resize Demo.warpAffine Demo.findTransformECC Demo.solve
              Demo.refgray Demo.refcolor Demo.srcgray Demo.srccolor
              (Some Demo.neighbour) None Demo.geometric_only (after demo_seeded) H N)
    as (_ & _ & r & rest & Hstart & _ & _ & Hcalls).
  exists r, rest. split; [exact Hstart | exact Hcalls].
Defined.

Lemma C8_dependencies_released_witness :
  demo_task demo_geometric = Returned tt (after demo_geometric) /\
  m_refgray (self (after demo_geometric)) = None /\
  m_refcolor (self (after demo_geometric)) = None /\
  m_srcgray (self (after demo_geometric)) = None /\
  m_srccolor (self (after demo_geometric)) = None /\
  m_initial_guess (self (after demo_geometric)) = None /\
  m_cropinfo (self (after demo_geometric)) = None.
Proof.
  assert (H : demo_task demo_geometric = Returned tt (after demo_geometric))
    by (vm_compute; reflexivity).
  split; [exact H|].
  exact (proj1 (C8_dependencies_released Demo.ALIGN_FULL_RESOLUTION Demo.ALIGN_NO_WHITEBALANCE
      Demo.ALIGN_NO_CONTRAST Demo.resize Demo.warpAffine Demo.findTransformECC Demo.solve
                  demo_geometric (after demo_geometric) H)).
Defined.

Lemma C9_solver_failure_propagates_witness :
  shared_ptr_eqb (m_refcolor (self demo_geometric))
                 (m_srccolor (self demo_geometric)) = false /\
  Forall (fun e => ~ ecc_failed Demo.failing_ECC e) (calls demo_geometric) /\
  demo_task_failing demo_geometric = Thrown (world_of (demo_task_failing demo_geometric)) /\
  m_result (self (world_of (demo_task_failing demo_geometric)))
  = m_result (self demo_geometric).
Proof.
  assert (E : shared_ptr_eqb (m_refcolor (self demo_geometric))
                (m_srccolor (self demo_geometric)) = false) by reflexivity.
  assert (L : Forall (fun e => ~ ecc_failed Demo.failing_ECC e) (calls demo_geometric))
    by (cbn; constructor).
  assert (T : demo_task_failing demo_geometric
              = Thrown (world_of (demo_task_failing demo_geometric)))
    by (vm_compute; reflexivity).
  split; [exact E|]. split; [exact L|]. split; [exact T|].
  destruct (C9_solver_failure_propagates Demo.ALIGN_FULL_RESOLUTION Demo.ALIGN_NO_WHITEBALANCE
      Demo.ALIGN_NO_CONTRAST Demo.resize Demo.warpAffine Demo.failing_ECC Demo.solve
              demo_geometric E L) as (_ & Hthrown & _).
  exact (Hthrown _ T).
Defined.

Lemma C10_full_roi_witness :
  demo_task demo_geometric = Returned tt (after demo_geometric) /\
  shared_ptr_eqb (m_refcolor (self demo_geometric))
                 (m_srccolor (self demo_geometric)) = false /\
  m_cropinfo (self demo_geometric) = None /\
  exists srccolor,
    m_srccolor (self demo_geometric) = Some srccolor /\
    m_roi (self (after demo_geometric))
    = mkRect 0 0 (cols (img srccolor)) (rows (img srccolor)).
Proof.
  assert (H : demo_task demo_geometric = Returned tt (after demo_geometric))
    by (vm_compute; reflexivity).
  assert (E : shared_ptr_eqb (m_refcolor (self demo_geometric))
                (m_srccolor (self demo_geometric)) = false) by reflexivity.
  assert (C : m_cropinfo (self demo_geometric) = None) by reflexivity.
  split; [exact H|]. split; [exact E|]. split; [exact C|].
  destruct (C10_full_roi Demo.ALIGN_FULL_RESOLUTION Demo.ALIGN_NO_WHITEBALANCE
      Demo.ALIGN_NO_CONTRAST Demo.resize Demo.warpAffine Demo.findTransformECC Demo.solve
              demo_geometric (after demo_geometric) H E C)
    as (r & sc & Hsc & _ & _ & _ & _ & _ & _ & Hroi).
  exists sc. split; [exact Hsc | exact Hroi].
Defined.

(** ** The further properties on the instance *)

Example find_files_demo :
  find_files (Some ["in/a.jpg"; "in/B.JPG"; "in/c.png"; "in/.jpg"; "in/d.jpeg";
                    "in/e.tar.png"; "in/notes"]%string)
  = Some ["in/a.jpg"; "in/c.png"; "in/e.tar.png"]%string.
Proof. vm_compute. reflexivity. Qed.

(** ** The stand-ins keep images images *)

Lemma to_int_range f : - 2 ^ 31 <= F32.to_int f < 2 ^ 31.
Proof.
  unfold F32.to_int, F32.INT_MIN, F32.INT_MAX.
  destruct (F32.trunc f) as [z|]; [|lia].
  destruct ((- 2 ^ 31 <=? z) && (z <=? 2 ^ 31 - 1)) eqn:E; lia.
Qed.

Lemma nearest_length {A} (d : A) nr nc px h w :
  0 <= h -> 0 <= w ->
  length (Demo.nearest d nr nc px h w) = Z.to_nat (h * w).
Proof.
  intros Hh Hw. unfold Demo.nearest.
  rewrite (flat_map_constant_length (c := Z.to_nat w)).
  - rewrite length_seq, Z2Nat.inj_mul by lia. reflexivity.
  - intros y _. rewrite length_map, length_seq. reflexivity.
Qed.

Lemma nearest_Forall {A} (P : A -> Prop) (d : A) nr nc px h w :
  P d -> Forall P px -> Forall P (Demo.nearest d nr nc px h w).
Proof.
  intros Hd Hpx. unfold Demo.nearest.
  apply Forall_flat_map, Forall_forall. intros y _.
  apply List.Forall_map, Forall_forall. intros x _.
  destruct (nth_in_or_default
              (Z.to_nat (Z.of_nat y * nr / h * nc + Z.of_nat x * nc / w)) px d)
    as [Hin| ->]; [|exact Hd].
  rewrite Forall_forall in Hpx. apply Hpx. apply list_elem_of_In. exact Hin.
Qed.

Lemma demo_resize_image src fx fy i out :
  image src -> Demo.resize src (ByFactor fx fy) i = Some out -> image out.
Proof.
  intros (_ & Hb & _ & _) [= <-].
  pose proof (to_int_range (F32.of_int (cols src) * fx)%f32) as Hw.
  pose proof (to_int_range (F32.of_int (rows src) * fy)%f32) as Hh.
  set (w := Z.max 1 (F32.to_int (F32.of_int (cols src) * fx)%f32)) in *.
  set (h := Z.max 1 (F32.to_int (F32.of_int (rows src) * fy)%f32)) in *.
  unfold image, raster, byte_samples, Demo.resize_to in *. cbn [rows cols samples].
  destruct (samples src) as [px|px].
  - rewrite nearest_length by lia.
    repeat split; try lia.
    apply nearest_Forall; [lia | exact Hb].
  - rewrite nearest_length by lia.
    repeat split; try lia.
    apply nearest_Forall; [cbn; lia | exact Hb].
Qed.

Lemma demo_resize_channels src spec i out :
  Demo.resize src spec i = Some out -> channels out = channels src.
Proof.
  unfold Demo.resize. destruct spec; intros [= <-];
    unfold Demo.resize_to, channels; cbn [samples]; destruct (samples src); reflexivity.
Qed.

Lemma demo_images :
  image Demo.gray_a /\ image Demo.gray_b /\ image Demo.color_a /\ image Demo.color_b.
Proof.
  unfold image, raster, byte_samples, channels_in_range.
  repeat split; cbn; try lia; repeat constructor; lia.
Qed.

(** ** The runs of the instance return *)

Lemma demo_geometric_returns :
  demo_task demo_geometric = Returned tt (after demo_geometric).
Proof. vm_compute. reflexivity. Qed.

Lemma demo_seeded_returns :
  demo_task demo_seeded = Returned tt (after demo_seeded).
Proof. vm_compute. reflexivity. Qed.

Lemma demo_contrast_returns :
  demo_task demo_contrast = Returned tt (after demo_contrast).
Proof. apply returned_by_evaluation. reflexivity. Qed.

Lemma demo_recoloured_returns :
  demo_task demo_recoloured = Returned tt (after demo_recoloured).
Proof. vm_compute. reflexivity. Qed.

Lemma demo_whitebalance_returns :
  demo_task demo_whitebalance = Returned tt (after demo_whitebalance).
Proof. apply returned_by_evaluation. reflexivity. Qed.

Lemma X1_constructed_models_correct_nothing_witness :
  image Demo.color_b /\
  apply_contrast_whitebalance Demo.color_b demo_full
  = Returned Demo.color_b
      (mkWorld (self demo_full) [Enter M_apply_contrast_whitebalance]).
Proof.
  split; [apply demo_images|].
  apply (X1_constructed_models_correct_nothing Demo.refgray Demo.refcolor
           Demo.srcgray Demo.srccolor None None 0 [] Demo.color_b).
  apply demo_images.
Defined.

Lemma X2_rough_pass_sees_source_witness :
  demo_task demo_seeded = Returned tt (after demo_seeded) /\
  exists r rest,
    pass_input (at_rough (self demo_seeded) r) (r_rough r) = p_src (r_rough r) /\
    calls (after demo_seeded)
    = pass_events (at_rough (self demo_seeded) r) 256 true (r_rough r) ++ rest.
Proof.
  pose proof demo_seeded_returns as H.
  split; [exact H|].
  destruct (X2_rough_pass_sees_source Demo.ALIGN_FULL_RESOLUTION
              Demo.ALIGN_NO_WHITEBALANCE Demo.ALIGN_NO_CONTRAST
              Demo.resize Demo.warpAffine Demo.findTransformECC Demo.solve
              Demo.refgray Demo.refcolor Demo.srcgray Demo.srccolor
              (Some Demo.neighbour) None
              Demo.geometric_only (after demo_seeded))
    as (r & rest & _ & Hin & Hcalls).
  - apply demo_images.
  - apply demo_resize_image.
  - discriminate.
  - exact H.
  - exists r, rest. split; assumption.
Defined.

Lemma X3_geometry_only_witness :
  demo_task demo_geometric = Returned tt (after demo_geometric) /\
  exists r,
    p_src (r_rough r) = Demo.gray_b /\
    p_src (r_final r) = Demo.gray_b /\
    List.filter is_ecc_call (calls (after demo_geometric))
    = [CvFindTransformECC (p_ref (r_rough r)) Demo.gray_b
         (pass_warp (at_rough (self demo_geometric) r) (r_rough r)) cv.MOTION_AFFINE
         (pass_criteria true) (p_mask (r_rough r));
       CvFindTransformECC (p_ref (r_final r)) Demo.gray_b
         (pass_warp (at_final (self demo_geometric) r) (r_final r)) cv.MOTION_AFFINE
         (pass_criteria false) (p_mask (r_final r))] /\
    calls (after demo_geometric)
    = pass_events (at_rough (self demo_geometric) r) 256 true (r_rough r)
      ++ pass_events (at_final (self demo_geometric) r) 2048 false (r_final r)
      ++ [Enter (M_apply_transform false);
          CvWarpAffine Demo.color_b (pass_result (r_final r)) (3, 2)
            (warp_flags false) cv.BORDER_REFLECT] /\
    m_result (self (after demo_geometric)) = r_warped r /\
    m_contrast (self (after demo_geometric)) = neutral_contrast /\
    m_whitebalance (self (after demo_geometric)) = neutral_whitebalance.
Proof.
  pose proof demo_geometric_returns as H.
  split; [exact H|].
  destruct (X3_geometry_only Demo.ALIGN_FULL_RESOLUTION
              Demo.ALIGN_NO_WHITEBALANCE Demo.ALIGN_NO_CONTRAST
              Demo.resize Demo.warpAffine Demo.findTransformECC Demo.solve
              Demo.refgray Demo.refcolor Demo.srcgray Demo.srccolor None None
              Demo.geometric_only (after demo_geometric))
    as (r & _ & _ & _ & Hin1 & Hin2 & _ & _ & _ & _ & _ & _ & Hcalls & Hecc & _ & _ & _
        & Hres & Hc & Hw).
  - reflexivity.
  - reflexivity.
  - apply demo_images.
  - apply demo_resize_image.
  - discriminate.
  - exact H.
  - apply pass_inputs_full in Hin1; [|change (Z.max 3 2 <= 256); lia].
    apply pass_inputs_full in Hin2; [|change (Z.max 3 2 <= 2048); lia].
    destruct Hin1 as (_ & _ & Hsrc1 & _). destruct Hin2 as (_ & _ & Hsrc2 & _).
    rewrite Hsrc1, Hsrc2 in Hecc.
    exists r. repeat split; assumption.
Defined.

Lemma X4_unreduced_pass_exact_witness :
  small_rect (m_roi (self demo_on_entry)) /\
  binary32_translation (m_transformation (self demo_on_entry)) /\
  exists w' a,
    match_transform Demo.resize Demo.findTransformECC 256 true demo_on_entry
    = Returned tt w' /\
    m_roi (self demo_on_entry) = mkRect 1 0 1 2 /\
    Demo.findTransformECC Demo.gray_a Demo.gray_b (nb_transformation Demo.neighbour)
      cv.MOTION_AFFINE (pass_criteria true) (mkMat 2 3 (Gray8 [0; 255; 0; 0; 255; 0]))
    = Some a /\
    calls w'
    = [Enter (M_match_transform 256 true);
       Enter M_apply_contrast_whitebalance;
       CvFindTransformECC Demo.gray_a Demo.gray_b (nb_transformation Demo.neighbour)
         cv.MOTION_AFFINE (pass_criteria true)
         (mkMat 2 3 (Gray8 [0; 255; 0; 0; 255; 0]))] /\
    a02 a = F32.of_int 2 /\
    a12 a = F32.of_int (-1) /\
    m_transformation (self w') = FMat_of_affine a.
Proof.
  assert (S : small_rect (m_roi (self demo_on_entry)))
    by (unfold small_rect; cbn; lia).
  assert (B : binary32_translation (m_transformation (self demo_on_entry)))
    by (split; reflexivity).
  split; [exact S|]. split; [exact B|].
  set (w' := world_of (match_transform Demo.resize Demo.findTransformECC 256 true
                         demo_on_entry)).
  assert (H : match_transform Demo.resize Demo.findTransformECC 256 true demo_on_entry
              = Returned tt w') by (vm_compute; reflexivity).
  destruct (X4_unreduced_pass_exact Demo.resize Demo.findTransformECC 256 true
              demo_on_entry w' Demo.refgray Demo.srcgray)
    as (mask & a & Hmask & _ & Hecc & Hcalls & HT).
  - reflexivity.
  - reflexivity.
  - change (Z.max 3 2 <= 256). lia.
  - exact S.
  - exact B.
  - exact H.
  - assert (Hm : mask_of_rect (rows (img Demo.refgray)) (cols (img Demo.refgray))
                   (m_roi (self demo_on_entry))
                 = Some (mkMat 2 3 (Gray8 [0; 255; 0; 0; 255; 0])))
      by (vm_compute; reflexivity).
    rewrite Hm in Hmask. injection Hmask as <-.
    assert (Hsrc : correct_pixels (m_contrast (self demo_on_entry))
                     (m_whitebalance (self demo_on_entry)) (img Demo.srcgray)
                   = Demo.gray_b) by (vm_compute; reflexivity).
    rewrite Hsrc in Hecc, Hcalls.
    change (m_transformation (self demo_on_entry))
      with (nb_transformation Demo.neighbour) in Hecc, Hcalls.
    change (img Demo.refgray) with Demo.gray_a in Hecc, Hcalls.
    assert (Ha : a = mkAffine F32.one F32.zero (F32.of_int 2)
                       F32.zero F32.one (F32.of_int (-1))).
    { unfold Demo.findTransformECC in Hecc. injection Hecc as <-. reflexivity. }
    exists w', a. split; [exact H|]. split; [reflexivity|].
    split; [exact Hecc|]. split; [exact Hcalls|].
    split; [rewrite Ha; reflexivity|]. split; [rewrite Ha; reflexivity|].
    apply HT; rewrite Ha; reflexivity.
Defined.

Lemma X5_roi_outside_reference_witness :
  rect_inside (mkRect 0 0 5 4) Demo.gray_a = false /\
  exists w',
    demo_task demo_oversized = Thrown w' /\
    calls w' = [Enter (M_match_transform 256 true)] /\
    m_result (self w') = Mat_empty.
Proof.
  split; [reflexivity|].
  destruct (X5_roi_outside_reference Demo.ALIGN_FULL_RESOLUTION
              Demo.ALIGN_NO_WHITEBALANCE Demo.ALIGN_NO_CONTRAST
              Demo.resize Demo.warpAffine Demo.findTransformECC Demo.solve
              demo_oversized Demo.refgray Demo.srcgray (mkRect 0 0 5 4))
    as (w' & H & Hcalls & Hres & _).
  - reflexivity.
  - reflexivity.
  - reflexivity.
  - reflexivity.
  - cbn. lia.
  - unfold small_rect. cbn. lia.
  - reflexivity.
  - exists w'. repeat split; assumption.
Defined.

Lemma X6_crop_roi_inside_witness :
  rect_inside (crop_roi Demo.cropinfo) (load_img Demo.cropinfo) = true <->
  orig_width Demo.cropinfo <= cols (load_img Demo.cropinfo) /\
  orig_height Demo.cropinfo <= rows (load_img Demo.cropinfo).
Proof.
  apply (X6_crop_roi_inside Demo.cropinfo); cbn; lia.
Defined.

Lemma X7_whole_frame_sampled_witness :
  demo_task demo_contrast = Returned tt (after demo_contrast) /\
  exists r f raw,
    r_roi r = mkRect 0 0 3 2 /\
    r_contrast r = Some f /\
    solved Demo.findTransformECC (at_rough (self demo_contrast) r) true (r_rough r) /\
    Demo.warpAffine Demo.gray_b (pass_result (r_rough r)) (3, 2)
      (Z.lor cv.INTER_CUBIC cv.WARP_INVERSE_MAP) cv.BORDER_REFLECT = Some raw /\
    f_moved f = mkMat 2 3 (samples raw) /\
    f_ref_roi f = Demo.gray_a /\
    f_src_roi f = f_moved f /\
    In (CvResize (f_moved f) (ToSize 64 64) cv.INTER_AREA)
       (calls (after demo_contrast)).
Proof.
  pose proof demo_contrast_returns as H.
  split; [exact H|].
  destruct (X7_whole_frame_sampled Demo.ALIGN_FULL_RESOLUTION
              Demo.ALIGN_NO_WHITEBALANCE Demo.ALIGN_NO_CONTRAST
              Demo.resize Demo.warpAffine Demo.findTransformECC Demo.solve
              demo_contrast (after demo_contrast)
              Demo.refgray Demo.srcgray Demo.srccolor)
    as (r & f & raw & _ & _ & _ & Hs1 & _ & Hc & _ & Hraw & Hmoved & _ & Hroi & Href
        & Hsrc & _ & Hin).
  - exact H.
  - reflexivity.
  - reflexivity.
  - reflexivity.
  - reflexivity.
  - reflexivity.
  - reflexivity.
  - apply demo_images.
  - split; reflexivity.
  - split; reflexivity.
  - intros T fl b out [= <-]. apply demo_images.
  - exists r, f, raw.
    split; [exact Hroi|]. split; [exact Hc|]. split; [exact Hs1|].
    split; [exact Hraw|]. split; [exact Hmoved|]. split; [exact Href|].
    split; [exact Hsrc | exact Hin].
Defined.

Lemma X8_contrast_target_unguarded_witness :
  fat1 (fst (contrast_system 64 64 Demo.gray_a (mkMat 2 3 (Gray8 [0; 5])))) 0
  = S754_infinity false /\
  is_finite (fat1 (fst (contrast_system 64 64 Demo.gray_a (mkMat 2 3 (Gray8 [0; 5])))) 1)
  = true.
Proof.
  assert (R0 : at_u8 Demo.gray_a 0 0 = 10) by reflexivity.
  assert (R1 : at_u8 Demo.gray_a 0 1 = 20) by reflexivity.
  assert (S0 : at_u8 (mkMat 2 3 (Gray8 [0; 5])) 0 0 = 0) by reflexivity.
  assert (S1 : at_u8 (mkMat 2 3 (Gray8 [0; 5])) 0 1 = 5) by reflexivity.
  split.
  - destruct (X8_contrast_target_unguarded Demo.gray_a (mkMat 2 3 (Gray8 [0; 5])) 0 0)
      as (_ & H & _); [lia | lia | rewrite R0; lia | rewrite S0; lia |].
    rewrite R0 in H. apply (H S0).
  - destruct (X8_contrast_target_unguarded Demo.gray_a (mkMat 2 3 (Gray8 [0; 5])) 0 1)
      as (_ & _ & H); [lia | lia | rewrite R1; lia | rewrite S1; lia |].
    apply H. rewrite S1. lia.
Defined.

Lemma X9_colour_never_moves_witness :
  demo_task demo_whitebalance = Returned tt (after demo_whitebalance) /\
  demo_task demo_recoloured = Returned tt (after demo_recoloured) /\
  ecc_calls (after demo_whitebalance) = ecc_calls (after demo_recoloured) /\
  m_transformation (self (after demo_whitebalance))
  = m_transformation (self (after demo_recoloured)).
Proof.
  pose proof demo_whitebalance_returns as H1.
  pose proof demo_recoloured_returns as H2.
  split; [exact H1|]. split; [exact H2|].
  destruct (X9_colour_never_moves Demo.ALIGN_FULL_RESOLUTION
              Demo.ALIGN_NO_WHITEBALANCE Demo.ALIGN_NO_CONTRAST
              Demo.resize Demo.warpAffine Demo.findTransformECC Demo.solve
              Demo.refgray Demo.srcgray None None
              Demo.refcolor Demo.srccolor Demo.ALIGN_NO_CONTRAST
              Demo.srccolor Demo.refcolor Demo.geometric_only
              (after demo_whitebalance) (after demo_recoloured))
    as (Hecc & HT & _).
  - apply demo_resize_channels.
  - reflexivity.
  - discriminate.
  - discriminate.
  - reflexivity.
  - reflexivity.
  - reflexivity.
  - reflexivity.
  - exact H1.
  - exact H2.
  - split; assumption.
Defined.

Lemma X10_thrown_run_holds_dependencies_witness :
  exists w',
    demo_task_failing demo_geometric = Thrown w' /\
    dependencies_held (self demo_geometric) (self w') /\
    identity_kept (self demo_geometric) (self w').
Proof.
  set (w' := world_of (demo_task_failing demo_geometric)).
  assert (H : demo_task_failing demo_geometric = Thrown w') by (vm_compute; reflexivity).
  exists w'. split; [exact H|].
  apply (X10_thrown_run_holds_dependencies Demo.ALIGN_FULL_RESOLUTION
           Demo.ALIGN_NO_WHITEBALANCE Demo.ALIGN_NO_CONTRAST
           Demo.resize Demo.warpAffine Demo.failing_ECC Demo.solve
           demo_geometric w' H).
Defined.

Lemma X12_final_answer_kept_witness :
  demo_task demo_seeded = Returned tt (after demo_seeded) /\
  exists r,
    p_ratio (r_final r) = F32.one /\
    p_ref (r_final r) = Demo.gray_a /\
    solved Demo.findTransformECC (at_final (self demo_seeded) r) false (r_final r) /\
    List.filter is_ecc_call (calls (after demo_seeded))
    = [ecc_event (at_rough (self demo_seeded) r) true (r_rough r);
       ecc_event (at_final (self demo_seeded) r) false (r_final r)] /\
    a02 (p_answer (r_final r)) = F32.of_int 2 /\
    a12 (p_answer (r_final r)) = F32.of_int (-1) /\
    m_transformation (self (after demo_seeded)) = FMat_of_affine (p_answer (r_final r)).
Proof.
  pose proof demo_seeded_returns as H.
  split; [exact H|].
  destruct (X12_final_answer_kept Demo.ALIGN_FULL_RESOLUTION
              Demo.ALIGN_NO_WHITEBALANCE Demo.ALIGN_NO_CONTRAST
              Demo.resize Demo.warpAffine Demo.findTransformECC Demo.solve
              demo_seeded (after demo_seeded) Demo.refgray Demo.srccolor)
    as (r & sg & _ & _ & _ & Hecc & _ & Hs2 & Hratio & Href & _ & _ & _ & HT).
  - exact H.
  - reflexivity.
  - reflexivity.
  - reflexivity.
  - change (Z.max 3 2 <= 2048). lia.
  - assert (L : match List.nth 1 (List.filter is_ecc_call (calls (after demo_seeded)))
                      (Enter M_match_contrast) with
               | CvFindTransformECC _ _ warp _ _ _ => warp
               | _ => identity_transformation
               end = nb_transformation Demo.neighbour)
      by (vm_compute; reflexivity).
    rewrite Hecc in L.
    assert (Hwarp : pass_warp (at_final (self demo_seeded) r) (r_final r)
                    = nb_transformation Demo.neighbour) by exact L.
    clear L.
    assert (Hans : p_answer (r_final r)
                   = mkAffine F32.one F32.zero (F32.of_int 2)
                       F32.zero F32.one (F32.of_int (-1))).
    { pose proof Hs2 as Hs. unfold solved, Demo.findTransformECC in Hs.
      rewrite Hwarp in Hs. injection Hs as <-. reflexivity. }
    exists r. split; [exact Hratio|]. split; [exact Href|]. split; [exact Hs2|].
    split.
    { rewrite Hecc. unfold ecc_event at 3. rewrite Href. reflexivity. }
    split; [rewrite Hans; reflexivity|]. split; [rewrite Hans; reflexivity|].
    apply HT; rewrite Hans; reflexivity.
Defined.

Lemma X13_result_has_source_size_witness :
  demo_task demo_whitebalance = Returned tt (after demo_whitebalance) /\
  rows (m_result (self (after demo_whitebalance))) = 2 /\
  cols (m_result (self (after demo_whitebalance))) = 3.
Proof.
  pose proof demo_whitebalance_returns as H.
  split; [exact H|].
  destruct (X13_result_has_source_size Demo.ALIGN_FULL_RESOLUTION
              Demo.ALIGN_NO_WHITEBALANCE Demo.ALIGN_NO_CONTRAST
              Demo.resize Demo.warpAffine Demo.findTransformECC Demo.solve
              demo_whitebalance (after demo_whitebalance) H)
    as (sc & Hsc & Hr & Hc).
  injection Hsc as <-. split; assumption.
Defined.

Lemma X15_whole_image_mask_witness :
  demo_task demo_geometric = Returned tt (after demo_geometric) /\
  exists r,
    List.filter is_ecc_call (calls (after demo_geometric))
    = [CvFindTransformECC (p_ref (r_rough r))
         (pass_input (at_rough (self demo_geometric) r) (r_rough r))
         (pass_warp (at_rough (self demo_geometric) r) (r_rough r)) cv.MOTION_AFFINE
         (pass_criteria true) (p_mask (r_rough r));
       CvFindTransformECC (p_ref (r_final r))
         (pass_input (at_final (self demo_geometric) r) (r_final r))
         (pass_warp (at_final (self demo_geometric) r) (r_final r)) cv.MOTION_AFFINE
         (pass_criteria false) (p_mask (r_final r))] /\
    p_ref (r_rough r) = Demo.gray_a /\
    (forall y x, 0 <= y < 2 -> 0 <= x < 3 -> at_u8 (p_mask (r_rough r)) y x = 255) /\
    p_ref (r_final r) = Demo.gray_a /\
    (forall y x, 0 <= y < 2 -> 0 <= x < 3 -> at_u8 (p_mask (r_final r)) y x = 255).
Proof.
  pose proof demo_geometric_returns as H.
  split; [exact H|].
  destruct (X15_whole_image_mask Demo.ALIGN_FULL_RESOLUTION
              Demo.ALIGN_NO_WHITEBALANCE Demo.ALIGN_NO_CONTRAST
              Demo.resize Demo.warpAffine Demo.findTransformECC Demo.solve
              demo_geometric (after demo_geometric) Demo.refgray Demo.srccolor)
    as (r & sg & _ & _ & _ & _ & _ & Hecc & _ & _ & _ & _ & Hrough & Hfinal).
  - exact H.
  - reflexivity.
  - reflexivity.
  - reflexivity.
  - reflexivity.
  - split; reflexivity.
  - cbn. lia.
  - cbn. lia.
  - destruct Hrough as (R1 & _ & _ & R2); [change (Z.max 3 2 <= 256); lia|].
    destruct Hfinal as (F1 & _ & _ & F2); [change (Z.max 3 2 <= 2048); lia|].
    exists r. repeat split; assumption.
Defined.

Lemma X16_warps_and_solves_witness :
  demo_task demo_whitebalance = Returned tt (after demo_whitebalance) /\
  count is_warp_call (calls (after demo_whitebalance)) = 2%nat /\
  count is_solve_call (calls (after demo_whitebalance)) = 1%nat.
Proof.
  pose proof demo_whitebalance_returns as H.
  split; [exact H|].
  apply (X16_warps_and_solves Demo.ALIGN_FULL_RESOLUTION
           Demo.ALIGN_NO_WHITEBALANCE Demo.ALIGN_NO_CONTRAST
           Demo.resize Demo.warpAffine Demo.findTransformECC Demo.solve
           demo_whitebalance (after demo_whitebalance) H).
  reflexivity.
Defined.
